(** * Kohonen self-organising map (1D): the training core of
    [machine_learning/kohonen_som.c]

    The C functions [get_min_1d], [update_weights] and [kohonen_som_tracer]
    are embedded as executable Rocq functions.

    - [int] is a 32-bit two's-complement integer: a [Z] with the wrap-around
      of every addition and subtraction written out.
    - [double] is kept abstract behind the classes [Arith] and [Scalar] (the
      operations the source applies to doubles).  The instance
      [float_scalar] is IEEE 754 binary64 with every operation rounded to
      nearest, the arithmetic of the compiled program; the instance
      [R_arith] is exact real arithmetic, the data model of the
      specification.
    - arrays are lists, and the rows of a matrix are arrays of their own
      (each row is allocated on its own in [test1] and [test2]); every read
      and write is bounds-checked, and an access outside the array is a
      fault ([None]).
    - a local variable read before it is assigned holds an indeterminate
      value, which the embedding takes as an extra argument ([junk]); so
      does the content of the distance buffer fresh from [malloc] ([D0]).
    - the loop of [kohonen_som_tracer] ends when [alpha] has dropped to
      [alpha_min], which no measure guarantees for every double; the
      embedding runs it on fuel and tells a return from running out of it.
    - the program is read without OpenMP (the pragmas stand under
      [#ifdef _OPENMP]). *)

From Stdlib Require Import ZArith Lia Bool Floats.
From Stdlib Require Reals Lra.
From stdpp Require Import base option list.

Set Warnings "-inexact-float".
Open Scope Z_scope.

(** ** The C type [int] *)

Definition INT_MIN : Z := - 2 ^ 31.
Definition INT_MAX : Z := 2 ^ 31 - 1.

(** Reduction of a mathematical integer into the range of [int]. *)
Definition wrap (z : Z) : Z := (z + 2 ^ 31) mod 2 ^ 32 - 2 ^ 31.

Definition int_add (a b : Z) : Z := wrap (a + b).
Definition int_sub (a b : Z) : Z := wrap (a - b).
(** [a >> n] on a signed int: the arithmetic shift. *)
Definition int_shr (a n : Z) : Z := Z.shiftr a n.
(** [a % b]: the remainder of the division that truncates towards zero. *)
Definition int_rem (a b : Z) : Z := Z.rem a b.

Definition int_range (z : Z) : Prop := INT_MIN <= z <= INT_MAX.

(** ** The operations on [double] *)

(** What the source does with doubles in [update_weights]: the constant
    [0.f], addition, subtraction, multiplication. *)
Class Arith (T : Type) := {
  num_zero : T;
  num_add : T -> T -> T;
  num_sub : T -> T -> T;
  num_mul : T -> T -> T
}.

(** What [get_min_1d] and [kohonen_som_tracer] need besides: the comparison
    [<] (and [a > b], which is [b < a]), [INFINITY], and the constants [1.f]
    and [0.01]. *)
Class Scalar (T : Type) := {
  scalar_arith :: Arith T;
  num_ltb : T -> T -> bool;
  num_inf : T;
  num_one : T;
  num_cent : T
}.

Declare Scope num_scope.
Delimit Scope num_scope with num.
Infix "+" := num_add : num_scope.
Infix "-" := num_sub : num_scope.
Infix "*" := num_mul : num_scope.
Infix "<?" := num_ltb : num_scope.

(** IEEE 754 binary64.  [0.01] is the double nearest to the decimal. *)
#[export] Instance float_arith : Arith float := {
  num_zero := 0%float;
  num_add := PrimFloat.add;
  num_sub := PrimFloat.sub;
  num_mul := PrimFloat.mul
}.

#[export] Instance float_scalar : Scalar float := {
  scalar_arith := float_arith;
  num_ltb := PrimFloat.ltb;
  num_inf := infinity;
  num_one := 1%float;
  num_cent := 0x1.47ae147ae147bp-7%float
}.

(** ** Arrays and [for] loops *)

(** [a[i]]: a read outside the array is a fault. *)
Definition rd {A} (a : list A) (i : Z) : option A :=
  if i <? 0 then None else a !! Z.to_nat i.

(** [a[i] = v]: a write outside the array is a fault. *)
Definition wr {A} (a : list A) (i : Z) (v : A) : option (list A) :=
  if (0 <=? i) && (i <? Z.of_nat (length a))
  then Some (<[Z.to_nat i := v]> a) else None.

(** [n] rounds of a loop body, the counter starting at [j]. *)
Fixpoint for_loop {S} (n : nat) (j : Z) (body : Z -> S -> option S) (s : S)
  : option S :=
  match n with
  | O => Some s
  | Datatypes.S n' => s' ← body j s; for_loop n' (j + 1) body s'
  end.

(** [for (j = lo; j < hi; j++) body]: [hi - lo] rounds, none when [hi <= lo].
    The counter stays below [hi], so [j++] does not wrap. *)
Definition for_range {S} (lo hi : Z) (body : Z -> S -> option S) (s : S)
  : option S :=
  for_loop (Z.to_nat (hi - lo)) lo body s.

(** ** The source functions *)

(** [update_weights], step 3a (lines 117-118): the neighbourhood range. *)
Definition from_node (d_min_idx R : Z) : Z :=
  if 0 >? int_sub d_min_idx R then 0 else int_sub d_min_idx R.

Definition to_node (num_out d_min_idx R : Z) : Z :=
  if num_out <? int_add (int_add d_min_idx R) 1
  then num_out else int_add (int_add d_min_idx R) 1.

(** [kohonen_som_tracer], lines 163-164: every 10th iteration the
    neighbourhood range is reduced. *)
Definition decay_radius (iter R : Z) : Z :=
  if (int_rem iter 10 =? 0) && (R >? 1) then int_sub R 1 else R.

Section Steps.
Context {T : Type} `{Arith T}.
Local Open Scope num_scope.

(** [update_weights], step 1 (lines 101-108): the distance of every
    output node from the sample. *)
Definition distance_term (x : list T) (W : list (list T)) (j k : Z)
    (D : list T) : option (list T) :=
  Wj ← rd W j;
  wjk ← rd Wj k;
  xk ← rd x k;
  dj ← rd D j;
  wr D j (dj + (wjk - xk) * (wjk - xk)).

Definition distance_row (x : list T) (W : list (list T)) (num_features : Z)
    (j : Z) (D : list T) : option (list T) :=
  D' ← wr D j num_zero;
  for_range 0%Z num_features (distance_term x W j) D'.

Definition evaluate_distances (x : list T) (W : list (list T)) (D : list T)
    (num_out num_features : Z) : option (list T) :=
  for_range 0%Z num_out (distance_row x W num_features) D.

(** Step 3b (lines 125-128), over the range of step 3a:
    [W[j][k] += alpha * (x[k] - W[j][k])]. *)
Definition pull_term (x : list T) (alpha : T) (j k : Z)
    (W : list (list T)) : option (list (list T)) :=
  Wj ← rd W j;
  wjk ← rd Wj k;
  xk ← rd x k;
  Wj' ← wr Wj k (wjk + alpha * (xk - wjk));
  wr W j Wj'.

Definition pull_row (x : list T) (num_features : Z) (alpha : T) (j : Z)
    (W : list (list T)) : option (list (list T)) :=
  for_range 0%Z num_features (pull_term x alpha j) W.

Definition update_neighborhood (x : list T) (W : list (list T))
    (num_out num_features : Z) (alpha : T) (d_min_idx R : Z)
    : option (list (list T)) :=
  for_range (from_node d_min_idx R) (to_node num_out d_min_idx R)
    (pull_row x num_features alpha) W.

End Steps.

Section Code.
Context {T : Type} `{Scalar T}.
Local Open Scope num_scope.

(** [get_min_1d] (lines 67-79).  [val[0]] starts at [INFINITY]; [idx[0]]
    keeps whatever the caller's variable held ([idx0]) until some
    [X[i] < val[0]] assigns it. *)
Definition get_min_1d_body (X : list T) (i : Z) (vi : T * Z) : option (T * Z) :=
  xi ← rd X i;
  Some (if xi <? vi.1 then (xi, i) else vi).

Definition get_min_1d (X : list T) (N : Z) (idx0 : Z) : option (T * Z) :=
  for_range 0%Z N (get_min_1d_body X) (num_inf, idx0).

(** [update_weights] (lines 92-129).  [junk] is the indeterminate value of
    the local [d_min_idx] before [get_min_1d] is called. *)
Definition update_weights (x : list T) (W : list (list T)) (D : list T)
    (num_out num_features : Z) (alpha : T) (R : Z) (junk : Z)
    : option (list (list T) * list T) :=
  D' ← evaluate_distances x W D num_out num_features;
  m ← get_min_1d D' num_out junk;
  W' ← update_neighborhood x W num_out num_features alpha m.2 R;
  Some (W', D').

(** The variables of [kohonen_som_tracer] that change during a run. *)
Record tracer_state := {
  st_W : list (list T);
  st_D : list T;
  st_R : Z;
  st_iter : Z;
  st_alpha : T
}.

Section Tracer.
Variables (X : list (list T)) (num_samples num_features num_out : Z).
Variable alpha_min : T.
(** [junk t i]: the indeterminate initial value of [d_min_idx] in the
    call for sample [i] of the pass with [iter = t]. *)
Variable junk : Z -> Z -> Z.

(** Lines 155-160: one pass over the samples. *)
Definition sample_step (alpha : T) (R iter : Z) (sample : Z)
    (WD : list (list T) * list T) : option (list (list T) * list T) :=
  x ← rd X sample;
  update_weights x WD.1 WD.2 num_out num_features alpha R (junk iter sample).

Definition sample_loop (alpha : T) (R iter : Z)
    (WD : list (list T) * list T) : option (list (list T) * list T) :=
  for_range 0%Z num_samples (sample_step alpha R iter) WD.

(** The loop condition [alpha > alpha_min] (line 152). *)
Definition continues (st : tracer_state) : bool :=
  alpha_min <? st_alpha st.

(** One outer iteration: the body, then [alpha -= 0.01, iter++]. *)
Definition pass (st : tracer_state) : option tracer_state :=
  WD ← sample_loop (st_alpha st) (st_R st) (st_iter st) (st_W st, st_D st);
  Some {| st_W := WD.1;
          st_D := WD.2;
          st_R := decay_radius (st_iter st) (st_R st);
          st_iter := int_add (st_iter st) 1;
          st_alpha := st_alpha st - num_cent |}.

(** How a run ends: the function returns, an array access faults, or the
    loop is still running when the fuel is spent. *)
Inductive outcome := Returned (st : tracer_state) | Fault | OutOfFuel.

Fixpoint tracer_loop (fuel : nat) (st : tracer_state) : outcome :=
  if continues st then
    match fuel with
    | O => OutOfFuel
    | Datatypes.S fuel' =>
        match pass st with
        | Some st' => tracer_loop fuel' st'
        | None => Fault
        end
    end
  else Returned st.

(** The state after [n] outer iterations, when the loop gets that far. *)
Fixpoint after_passes (n : nat) (st : tracer_state) : option tracer_state :=
  match n with
  | O => Some st
  | Datatypes.S n' =>
      if continues st then st' ← pass st; after_passes n' st' else None
  end.

(** [kohonen_som_tracer] (lines 143-168).  [D0] is the content of the
    buffer [malloc] returns. *)
Definition tracer_init (W : list (list T)) (D0 : list T) : tracer_state :=
  {| st_W := W; st_D := D0; st_R := int_shr num_out 2; st_iter := 0;
     st_alpha := num_one |}.

Definition kohonen_som_tracer (fuel : nat) (W : list (list T))
    (D0 : list T) : outcome :=
  tracer_loop fuel (tracer_init W D0).
End Tracer.
End Code.

Arguments tracer_state T : clear implicits.
Arguments outcome T : clear implicits.

(** ** Reference definitions *)

Section Reference.
Context {T : Type} `{Arith T}.
Local Open Scope num_scope.

(** The squared Euclidean distance of the row [w] from [x]: the terms
    [(w[k] - x[k]) * (w[k] - x[k])] summed from [k = 0] upwards, starting
    from zero. *)
Definition sq_term (acc : T) (p : T * T) : T :=
  acc + (p.1 - p.2) * (p.1 - p.2).

Definition sq_dist (w x : list T) : T :=
  fold_left sq_term (zip w x) num_zero.

(** A row pulled towards the sample with strength [alpha]. *)
Definition pull_entry (alpha : T) (wk xk : T) : T :=
  wk + alpha * (xk - wk).

Definition pull (alpha : T) (x w : list T) : list T :=
  zip_with (pull_entry alpha) w x.

(** The shapes of the arrays: [W] has [rows] rows of [cols] doubles. *)
Definition vector (x : list T) (n : Z) : Prop :=
  Z.of_nat (length x) = n.

Definition matrix (W : list (list T)) (rows cols : Z) : Prop :=
  Z.of_nat (length W) = rows ∧ Forall (λ w, vector w cols) W.
End Reference.

(** The arrays of a state of the training loop have the shapes the loop
    relies on. *)
Definition state_ok {T} (num_out num_features : Z) (st : tracer_state T)
  : Prop :=
  matrix (st_W st) num_out num_features ∧ vector (st_D st) num_out.

(** The window of the specification, in unbounded integers. *)
Definition in_window (num_out bmu R j : Z) : Prop :=
  Z.max 0 (bmu - R) <= j < Z.min num_out (bmu + R + 1).

(** The schedule of [kohonen_som_tracer]: the values of [alpha], [iter] and
    [R] after [n] outer iterations, which do not depend on the weights. *)
Fixpoint alpha_after {T} `{Scalar T} (n : nat) (alpha : T) : T :=
  match n with
  | O => alpha
  | Datatypes.S n' => alpha_after n' (alpha - num_cent)%num
  end.

Fixpoint iter_after (n : nat) (iter : Z) : Z :=
  match n with
  | O => iter
  | Datatypes.S n' => iter_after n' (int_add iter 1)
  end.

Fixpoint radius_after (n : nat) (iter R : Z) : Z :=
  match n with
  | O => R
  | Datatypes.S n' => radius_after n' (int_add iter 1) (decay_radius iter R)
  end.

(** The loop condition holds before each of the first [n] iterations and
    fails before the next one. *)
Definition runs_exactly {T} `{Scalar T} (alpha_min : T) (n : nat) : bool :=
  forallb (λ k, alpha_min <? alpha_after k num_one)%num (seq 0 n)
  && negb (alpha_min <? alpha_after n num_one)%num.

(** Exact arithmetic: the steps of [update_weights] over the real numbers,
    the data model of the specification. *)
#[export] Instance R_arith : Arith Rdefinitions.R := {
  num_zero := Rdefinitions.IZR 0;
  num_add := Rdefinitions.Rplus;
  num_sub := Rdefinitions.Rminus;
  num_mul := Rdefinitions.Rmult
}.

(** The stopping thresholds of the two test runs: [0.1] ([test1], line 241)
    and [0.01] ([test2], line 323), each the double nearest to the
    decimal. *)
Definition alpha_min_test1 : float := 0x1.999999999999ap-4%float.
Definition alpha_min_test2 : float := 0x1.47ae147ae147bp-7%float.

(** The decimal [(100 - k) / 100] as a double, and the test that [alpha]
    before iteration [k] is within [2^-49] of it. *)
Definition decimal_alpha (k : nat) : float :=
  (PrimFloat.of_uint63 (Uint63.of_Z (100 - Z.of_nat k)) / 100)%float.

Definition near_decimal (k : nat) : bool :=
  (abs (alpha_after k 1%float - decimal_alpha k) <? 0x1p-49)%float.

(** ** The order of binary64 numbers

    Every double that is not a NaN gets a key, a triple of integers; the
    comparison of two doubles is the lexicographic comparison of their keys
    (sign class, then exponent, then mantissa; both negated for negative
    numbers). *)

Definition sf_key (f : spec_float) : option (Z * Z * Z) :=
  match f with
  | S754_nan => None
  | S754_zero _ => Some (0, 0, 0)
  | S754_infinity s => Some (if s then -2 else 2, 0, 0)
  | S754_finite s m e =>
      Some (if s then (-1, - e, Z.neg m) else (1, e, Z.pos m))
  end.

Definition key_lt (a b : Z * Z * Z) : Prop :=
  a.1.1 < b.1.1 ∨
  (a.1.1 = b.1.1 ∧ (a.1.2 < b.1.2 ∨ (a.1.2 = b.1.2 ∧ a.2 < b.2))).

Definition float_key (x : float) : option (Z * Z * Z) := sf_key (Prim2SF x).

Inductive key_order (k1 k2 : Z * Z * Z) : option comparison → Prop :=
  | key_order_lt : key_lt k1 k2 → key_order k1 k2 (Some Lt)
  | key_order_eq : k1 = k2 → key_order k1 k2 (Some Eq)
  | key_order_gt : key_lt k2 k1 → key_order k1 k2 (Some Gt).

(** ** The scaffolding: random numbers, the data sets, the CSV files and
    the two test runs

    What the C library supplies is a parameter of the embedding: the values
    [rand()] returns, call by call ([rand]), the functions [cos] and [sin]
    and the constant [M_PI] of [math.h], the conversion [%.4g] of [printf]
    ([fmt]), and the content of memory fresh from [malloc] ([stale_X],
    [stale_W], [stale_D]).  A file is the text written to it, a file system
    a finite map from names to files; [fopen] is taken to succeed. *)

From Stdlib Require Import Ascii.
From stdpp Require Import strings gmap.
Open Scope Z_scope.

(** The conversion of an [int] to [double], exact below [2^53]. *)
Definition double_of_int (z : Z) : float :=
  if z <? 0 then (- PrimFloat.of_uint63 (Uint63.of_Z (- z)))%float
  else PrimFloat.of_uint63 (Uint63.of_Z z).

(** [_random] (lines 30-33); [r] is the value [rand()] returns. *)
Definition _random (a b : float) (r : Z) : float :=
  ((b - a) * double_of_int (int_rem r 100) / 100 + a)%float.

Definition comma : ascii := ","%char.
Definition newline : ascii := "010"%char.

Section Save.
Context {T : Type}.
Variable fmt : T → list ascii.

(** [save_2d_data] (lines 42-58): the text written to the file. *)
Definition save_cell (X : list (list T)) (num_features i j : Z)
    (out : list ascii) : option (list ascii) :=
  Xi ← rd X i;
  xij ← rd Xi j;
  Some (out ++ fmt xij
            ++ (if j <? int_sub num_features 1 then [comma] else [])).

Definition save_row (X : list (list T)) (num_points num_features i : Z)
    (out : list ascii) : option (list ascii) :=
  out' ← for_range 0 num_features (save_cell X num_features i) out;
  Some (out' ++ (if i <? int_sub num_points 1 then [newline] else [])).

Definition save_text (X : list (list T)) (num_points num_features : Z)
  : option (list ascii) :=
  for_range 0 num_points (save_row X num_points num_features) [].

(** [fopen (fname, "wt")] replaces the file of that name. *)
Definition save_2d_data (fs : gmap string (list ascii)) (fname : string)
    (X : list (list T)) (num_points num_features : Z)
  : option (gmap string (list ascii)) :=
  out ← save_text X num_points num_features;
  Some (<[fname := out]> fs).
End Save.

(** [a[i][j] = v]. *)
Definition wr2 {A} (a : list (list A)) (i j : Z) (v : A)
  : option (list (list A)) :=
  row ← rd a i;
  row' ← wr row j v;
  wr a i row'.

Section Generators.
Variables (cos sin : float → float) (M_PI : float).
Variable rand : nat → Z.

(** [test_circle] (lines 178-195).  The state of the loop is the matrix
    and the number of calls of [rand()] made so far. *)
Definition test_circle_point (a_t b_t a_r b_r : float) (i : Z)
    (s : list (list float) * nat) : option (list (list float) * nat) :=
  let r := _random a_r b_r (rand s.2) in
  let theta := _random a_t b_t (rand (Datatypes.S s.2)) in
  data ← wr2 s.1 i 0 (r * cos theta)%float;
  data' ← wr2 data i 1 (r * sin theta)%float;
  Some (data', Datatypes.S (Datatypes.S s.2)).

Definition test_circle (data : list (list float)) (N : Z) (calls : nat)
  : option (list (list float) * nat) :=
  let R := 0.75%float in
  let dr := 0x1.3333333333333p-2%float in
  let a_t := 0%float in
  let b_t := (2 * M_PI)%float in
  let a_r := (R - dr)%float in
  let b_r := (R + dr)%float in
  for_range 0 N (test_circle_point a_t b_t a_r b_r) (data, calls).

(** [test_lamniscate] (lines 259-275). *)
Definition test_lamniscate_point (dr : float) (i : Z)
    (s : list (list float) * nat) : option (list (list float) * nat) :=
  let dx := _random (- dr) dr (rand s.2) in
  let dy := _random (- dr) dr (rand (Datatypes.S s.2)) in
  let theta := _random 0 M_PI (rand (Datatypes.S (Datatypes.S s.2))) in
  data ← wr2 s.1 i 0 (dx + cos theta)%float;
  data' ← wr2 data i 1 (dy + sin (2 * theta) / 2)%float;
  Some (data', Datatypes.S (Datatypes.S (Datatypes.S s.2))).

Definition test_lamniscate (data : list (list float)) (N : Z) (calls : nat)
  : option (list (list float) * nat) :=
  let dr := 0x1.999999999999ap-3%float in
  for_range 0 N (test_lamniscate_point dr) (data, calls).
End Generators.

(** Texts joined by a separator, and a text split at a separator. *)
Fixpoint join_with {A} (sep : list A) (l : list (list A)) : list A :=
  match l with
  | [] => []
  | [x] => x
  | x :: l' => x ++ sep ++ join_with sep l'
  end.

Fixpoint split_at (c : ascii) (s : list ascii) : list (list ascii) :=
  match s with
  | [] => [[]]
  | a :: s' =>
      if decide (a = c) then [] :: split_at c s'
      else match split_at c s' with
           | h :: t => (a :: h) :: t
           | [] => [[a]]
           end
  end.

(** A table of cells as comma-separated values, one row per line and no
    newline after the last row; and the table read back from such a text. *)
Definition csv (cells : list (list (list ascii))) : list ascii :=
  join_with [newline] (join_with [comma] <$> cells).

Definition parse_csv (s : list ascii) : list (list (list ascii)) :=
  split_at comma <$> split_at newline s.

(** The cells of a matrix, each formatted. *)
Definition format_cells {T} (fmt : T → list ascii) (X : list (list T))
  : list (list (list ascii)) :=
  (λ row : list T, fmt <$> row) <$> X.

(** The points the generators write, from the calls of [rand()] they
    make: point [i] of [test_circle] uses the calls [2i] and [2i + 1] after
    those made before, point [i] of [test_lamniscate] the calls [3i],
    [3i + 1] and [3i + 2]. *)
Definition circle_radius (rand : nat → Z) (calls i : nat) : float :=
  _random (0.75 - 0x1.3333333333333p-2) (0.75 + 0x1.3333333333333p-2)
    (rand (calls + 2 * i)%nat).

Definition circle_angle (M_PI : float) (rand : nat → Z) (calls i : nat)
  : float :=
  _random 0 (2 * M_PI) (rand (calls + 2 * i + 1)%nat).

Definition circle_row (cos sin : float → float) (M_PI : float)
    (rand : nat → Z) (calls i : nat) (row : list float) : list float :=
  <[1%nat := (circle_radius rand calls i
              * sin (circle_angle M_PI rand calls i))%float]>
    (<[0%nat := (circle_radius rand calls i
                 * cos (circle_angle M_PI rand calls i))%float]> row).

Definition lamniscate_dx (rand : nat → Z) (calls i : nat) : float :=
  _random (- 0x1.999999999999ap-3) 0x1.999999999999ap-3
    (rand (calls + 3 * i)%nat).

Definition lamniscate_dy (rand : nat → Z) (calls i : nat) : float :=
  _random (- 0x1.999999999999ap-3) 0x1.999999999999ap-3
    (rand (calls + 3 * i + 1)%nat).

Definition lamniscate_angle (M_PI : float) (rand : nat → Z) (calls i : nat)
  : float :=
  _random 0 M_PI (rand (calls + 3 * i + 2)%nat).

Definition lamniscate_row (cos sin : float → float) (M_PI : float)
    (rand : nat → Z) (calls i : nat) (row : list float) : list float :=
  <[1%nat := (lamniscate_dy rand calls i
              + sin (2 * lamniscate_angle M_PI rand calls i) / 2)%float]>
    (<[0%nat := (lamniscate_dx rand calls i
                 + cos (lamniscate_angle M_PI rand calls i))%float]> row).

(** What a run cannot determine: the value of [d_min_idx] before each call
    of [get_min_1d] (by pass and sample) and the content of the rows of
    [X] and [W] and of the buffer [D] as [malloc] hands them out. *)
Record indeterminate := {
  junk_idx : Z → Z → Z;
  stale_X : Z → nat → float;
  stale_W : Z → nat → float;
  stale_D : nat → float
}.

(** [malloc (n * sizeof (double))]: [n] doubles of indeterminate content. *)
Definition malloc_doubles (stale : nat → float) (n : Z) : list float :=
  stale <$> seq 0 (Z.to_nat n).

(** Memory that happens to be zeroed, and a [d_min_idx] that happens to
    be 0. *)
Definition zeroed : indeterminate :=
  {| junk_idx := λ _ _, 0;
     stale_X := λ _ _, 0%float;
     stale_W := λ _ _, 0%float;
     stale_D := λ _, 0%float |}.

Section Tests.
Variables (cos sin : float → float) (M_PI : float).
Variable rand : nat → Z.
Variable fmt : float → list ascii.

(** [W[i][j] = _random (-1, 1)] (lines 233-234 and 315-316). *)
Definition init_weight (i j : Z) (s : list (list float) * nat)
  : option (list (list float) * nat) :=
  W ← wr2 s.1 i j (_random (-1) 1 (rand s.2));
  Some (W, Datatypes.S s.2).

(** One round of the allocation loop (lines 221-236 and 303-318): the row
    [X[i]] is allocated while [i < N], the row [W[i]] is allocated and
    filled with random weights while [i < num_out].  Before its allocation
    a row holds no cell. *)
Definition alloc_step (u : indeterminate) (N features num_out i : Z)
    (s : list (list float) * list (list float) * nat)
  : option (list (list float) * list (list float) * nat) :=
  X ← (if i <? N then wr s.1.1 i (malloc_doubles (stale_X u i) features)
       else Some s.1.1);
  if i <? num_out then
    W ← wr s.1.2 i (malloc_doubles (stale_W u i) features);
    Wc ← for_range 0 features (init_weight i) (W, s.2);
    Some (X, Wc.1, Wc.2)
  else Some (X, s.1.2, s.2).

Definition alloc_loop (u : indeterminate) (N features num_out : Z)
    (calls : nat)
  : option (list (list float) * list (list float) * nat) :=
  for_range 0 (if num_out >? N then num_out else N)
    (alloc_step u N features num_out)
    (replicate (Z.to_nat N) [], replicate (Z.to_nat num_out) [], calls).

(** [test1] (lines 214-251): the files and the number of calls of
    [rand()] after the run.  [None] stands for a fault, and for a training
    that outlasts the fuel. *)
Definition test1 (u : indeterminate) (fuel : nat)
    (fs : gmap string (list ascii)) (calls : nat)
  : option (gmap string (list ascii) * nat) :=
  let N := 500 in
  let features := 2 in
  let num_out := 50 in
  a ← alloc_loop u N features num_out calls;
  d ← test_circle cos sin M_PI rand a.1.1 N a.2;
  fs1 ← save_2d_data fmt fs "test1.csv" d.1 N 2;
  fs2 ← save_2d_data fmt fs1 "w11.csv" a.1.2 num_out 2;
  match kohonen_som_tracer d.1 N 2 num_out 0x1.999999999999ap-4%float
          (junk_idx u) fuel a.1.2 (malloc_doubles (stale_D u) num_out) with
  | Returned st =>
      fs3 ← save_2d_data fmt fs2 "w12.csv" (st_W st) num_out 2;
      Some (fs3, d.2)
  | _ => None
  end.

(** [test2] (lines 296-335). *)
Definition test2 (u : indeterminate) (fuel : nat)
    (fs : gmap string (list ascii)) (calls : nat)
  : option (gmap string (list ascii) * nat) :=
  let N := 500 in
  let features := 2 in
  let num_out := 20 in
  a ← alloc_loop u N features num_out calls;
  d ← test_lamniscate cos sin M_PI rand a.1.1 N a.2;
  fs1 ← save_2d_data fmt fs "test2.csv" d.1 N 2;
  fs2 ← save_2d_data fmt fs1 "w21.csv" a.1.2 num_out 2;
  match kohonen_som_tracer d.1 N 2 num_out 0x1.47ae147ae147bp-7%float
          (junk_idx u) fuel a.1.2 (malloc_doubles (stale_D u) num_out) with
  | Returned st =>
      fs3 ← save_2d_data fmt fs2 "w22.csv" (st_W st) num_out 2;
      Some (fs3, d.2)
  | _ => None
  end.

(** [main] (lines 338-343): both tests, then the exit status 0. *)
Definition main (u1 u2 : indeterminate) (fuel : nat)
    (fs : gmap string (list ascii)) (calls : nat)
  : option (Z * gmap string (list ascii) * nat) :=
  r1 ← test1 u1 fuel fs calls;
  r2 ← test2 u2 fuel r1.1 r1.2;
  Some (0, r2.1, r2.2).
End Tests.

(** The initial weights [alloc_loop] draws: row [i] holds the values of
    the calls [features * i], ..., [features * i + features - 1] of
    [rand()] after those made before. *)
Definition initial_row (rand : nat → Z) (calls : nat) (features : Z)
    (i : nat) : list float :=
  (λ j, _random (-1) 1 (rand (calls + Z.to_nat features * i + j)%nat))
    <$> seq 0 (Z.to_nat features).

Definition initial_weights (rand : nat → Z) (calls : nat)
    (features num_out : Z) : list (list float) :=
  initial_row rand calls features <$> seq 0 (Z.to_nat num_out).

(** The rows of the two data sets when every row has exactly two entries. *)
Definition circle_point (cos sin : float → float) (M_PI : float)
    (rand : nat → Z) (calls i : nat) : list float :=
  [(circle_radius rand calls i
    * cos (circle_angle M_PI rand calls i))%float;
   (circle_radius rand calls i
    * sin (circle_angle M_PI rand calls i))%float].

Definition lamniscate_point (cos sin : float → float) (M_PI : float)
    (rand : nat → Z) (calls i : nat) : list float :=
  [(lamniscate_dx rand calls i
    + cos (lamniscate_angle M_PI rand calls i))%float;
   (lamniscate_dy rand calls i
    + sin (2 * lamniscate_angle M_PI rand calls i) / 2)%float].

(** Two runs of the training loop that differ at most in what the distance
    buffer holds: both return, with the same weights, radius, iteration
    count and learning rate, or both are still running when the fuel is
    spent. *)
Definition same_but_buffer {T} (st st' : tracer_state T) : Prop :=
  st_W st = st_W st' ∧ st_R st = st_R st' ∧ st_iter st = st_iter st' ∧
  st_alpha st = st_alpha st'.

Definition same_run {T} (o o' : outcome T) : Prop :=
  match o, o' with
  | Returned st, Returned st' => same_but_buffer st st'
  | OutOfFuel, OutOfFuel => True
  | _, _ => False
  end.

(** ** The values of doubles

    What the update rule does to a distance in binary64 is read off the
    values of the doubles.  A value is an integer in units of [2 ^ -2148],
    fine enough for the product of any two doubles. *)

(** Division of [V] by [2 ^ n] rounded to nearest, ties to even. *)
Definition rne (V n : Z) : Z :=
  let q := V / 2 ^ n in
  let r := V mod 2 ^ n in
  if 2 * r <? 2 ^ n then q
  else if 2 ^ n <? 2 * r then q + 1
  else if Z.even q then q else q + 1.

(** The exponent of the doubles next to a non-negative value (53 bits of
    precision, least exponent [-1074]), and the value rounded to them. *)
Definition grid (V : Z) : Z := Z.max (Z.log2 V + 1 - 53) 1074.
Definition rnd (V : Z) : Z := rne V (grid V) * 2 ^ grid V.

(** Values of doubles: [m * 2 ^ N] with [m] of at most 53 bits, and of
    exactly 53 bits unless [N] is the least exponent. *)
Definition representable (V : Z) : Prop :=
  ∃ m N, V = m * 2 ^ N ∧ 0 <= m < 2 ^ 53 ∧ 1074 <= N ∧
         (2 ^ 52 <= m ∨ N = 1074).

(** The record after [k >= 1] right shifts of [m]. *)
Definition shifted (m : Z) (k : Z) : shr_record :=
  {| shr_m := m / 2 ^ k;
     shr_r := Z.odd (m / 2 ^ (k - 1));
     shr_s := negb (m mod 2 ^ (k - 1) =? 0) |}.

(** [2 ^ 1024] in units of [2 ^ -2148]: the least value that rounds to
    infinity, here the value of infinity. *)
Definition OVER : Z := 2 ^ 3172.

Definition sgn (s : bool) (v : Z) : Z := if s then - v else v.

Definition sf_val (f : spec_float) : Z :=
  match f with
  | S754_zero _ => 0
  | S754_infinity s => sgn s OVER
  | S754_nan => 0
  | S754_finite s m e => sgn s (Z.pos m * 2 ^ (e + 2148))
  end.

(** Rounding of a signed value; [OVER] and [- OVER] stand for the
    infinities. *)
Definition xrnd (V : Z) : Z :=
  if V <? 0 then - Z.min (rnd (- V)) OVER else Z.min (rnd V) OVER.

Definition is_fin (f : spec_float) : bool :=
  match f with
  | S754_zero _ | S754_finite _ _ _ => true
  | _ => false
  end.

Definition is_num (f : spec_float) : bool :=
  match f with S754_nan => false | _ => true end.

Definition fval (x : float) : Z := sf_val (Prim2SF x).

(** A double that is neither an infinity nor a NaN; one that is not a
    NaN. *)
Definition finite_double (x : float) : bool := is_fin (Prim2SF x).
Definition number (x : float) : bool := is_num (Prim2SF x).

Definition finite_row (w : list float) : Prop :=
  Forall (λ v, finite_double v = true) w.

(** C's [==] on every entry of two rows. *)
Definition same_values (a b : list float) : Prop :=
  Forall2 (λ u v, (u =? v)%float = true) a b.
(** ** Lemmas on [int], arrays and loops *)

(** Discharges the shape conditions on concrete arrays. *)
Ltac shapes := repeat first [done | split | constructor].

Lemma wrap_small z : int_range z → wrap z = z.
Proof.
  unfold int_range, INT_MIN, INT_MAX, wrap. intros Hz.
  rewrite Z.mod_small; lia.
Qed.

Lemma from_node_nonneg idx R : 0 <= from_node idx R.
Proof. unfold from_node. destruct (Z.gtb_spec 0 (int_sub idx R)); lia. Qed.

Lemma to_node_le num_out idx R : to_node num_out idx R <= num_out.
Proof.
  unfold to_node.
  destruct (Z.ltb_spec num_out (int_add (int_add idx R) 1)); lia.
Qed.

Lemma from_node_exact idx R :
  int_range (idx - R) → from_node idx R = Z.max 0 (idx - R).
Proof.
  intros Hr. unfold from_node, int_sub. rewrite wrap_small by done.
  destruct (Z.gtb_spec 0 (idx - R)); lia.
Qed.

Lemma to_node_exact num_out idx R :
  int_range (idx + R) → int_range (idx + R + 1) →
  to_node num_out idx R = Z.min num_out (idx + R + 1).
Proof.
  intros H1 H2. unfold to_node, int_add. rewrite (wrap_small (idx + R)) by done.
  rewrite wrap_small by done.
  destruct (Z.ltb_spec num_out (idx + R + 1)); lia.
Qed.

Lemma rd_of_nat {A} (a : list A) (i : nat) : rd a (Z.of_nat i) = a !! i.
Proof.
  unfold rd. destruct (Z.ltb_spec (Z.of_nat i) 0); [lia|].
  by rewrite Nat2Z.id.
Qed.

Lemma rd_Some {A} (a : list A) (i : Z) (v : A) :
  rd a i = Some v ↔ 0 <= i ∧ a !! Z.to_nat i = Some v.
Proof.
  unfold rd. destruct (Z.ltb_spec i 0).
  - split; [done | intros [? _]; lia].
  - split; [intros; split; [lia|done] | by intros [_ ?]].
Qed.

Lemma wr_of_nat {A} (a : list A) (i : nat) (v : A) :
  (i < length a)%nat → wr a (Z.of_nat i) v = Some (<[i := v]> a).
Proof.
  intros Hi. unfold wr.
  destruct (Z.leb_spec 0 (Z.of_nat i)); [|lia].
  destruct (Z.ltb_spec (Z.of_nat i) (Z.of_nat (length a))); [|lia].
  by rewrite Nat2Z.id.
Qed.

(** The loop rule: an invariant that every round keeps, without a fault,
    holds when the loop is left. *)
Lemma for_loop_inv {S} (P : Z → S → Prop) (body : Z → S → option S) n j s :
  P j s →
  (∀ i t, j <= i < j + Z.of_nat n → P i t →
     ∃ t', body i t = Some t' ∧ P (i + 1) t') →
  ∃ t', for_loop n j body s = Some t' ∧ P (j + Z.of_nat n) t'.
Proof.
  revert j s. induction n as [|n IH]; intros j s Hs Hstep; simpl.
  - exists s. split; [done|]. by replace (j + Z.of_nat 0) with j by lia.
  - destruct (Hstep j s) as (t & Ht & HP); [lia|done|].
    rewrite Ht. simpl.
    destruct (IH (j + 1) t HP) as (t' & Ht' & HP').
    { intros i u Hi Hu. apply Hstep; [lia|done]. }
    exists t'. split; [done|].
    by replace (j + Z.of_nat (Datatypes.S n)) with (j + 1 + Z.of_nat n) by lia.
Qed.

Lemma for_range_inv {S} (P : Z → S → Prop) (body : Z → S → option S)
    lo hi s :
  lo <= hi → P lo s →
  (∀ i t, lo <= i < hi → P i t → ∃ t', body i t = Some t' ∧ P (i + 1) t') →
  ∃ t', for_range lo hi body s = Some t' ∧ P hi t'.
Proof.
  intros Hle Hs Hstep. unfold for_range.
  destruct (for_loop_inv P body (Z.to_nat (hi - lo)) lo s Hs)
    as (t & Ht & HP).
  { intros i u Hi. apply Hstep. lia. }
  exists t. split; [done|].
  by replace (lo + Z.of_nat (Z.to_nat (hi - lo))) with hi in HP by lia.
Qed.

Lemma for_range_empty {S} (body : Z → S → option S) lo hi s :
  hi <= lo → for_range lo hi body s = Some s.
Proof.
  intros Hle. unfold for_range. by replace (Z.to_nat (hi - lo)) with O by lia.
Qed.

(** ** Lemmas on the order of doubles *)

Lemma SFcompare_key f1 f2 :
  match sf_key f1, sf_key f2 with
  | Some k1, Some k2 => key_order k1 k2 (SFcompare f1 f2)
  | _, _ => SFcompare f1 f2 = None
  end.
Proof.
  destruct f1 as [s1|s1| |s1 m1 e1], f2 as [s2|s2| |s2 m2 e2]; simpl;
    try done;
    try (destruct s1); try (destruct s2);
    try (by apply key_order_eq);
    try (apply key_order_lt; unfold key_lt; simpl; lia);
    try (apply key_order_gt; unfold key_lt; simpl; lia).
  - change (PosDef.Pos.compare_cont Eq m1 m2) with (Pos.compare m1 m2).
    destruct (Z.compare_spec e1 e2) as [->| |];
      [destruct (Pos.compare_spec m1 m2) as [->| |]|..]; simpl;
      first [ by apply key_order_eq
            | apply key_order_lt; unfold key_lt; simpl; lia
            | apply key_order_gt; unfold key_lt; simpl; lia ].
  - change (PosDef.Pos.compare_cont Eq m1 m2) with (Pos.compare m1 m2).
    destruct (Z.compare_spec e1 e2) as [->| |];
      [destruct (Pos.compare_spec m1 m2) as [->| |]|..]; simpl;
      first [ by apply key_order_eq
            | apply key_order_lt; unfold key_lt; simpl; lia
            | apply key_order_gt; unfold key_lt; simpl; lia ].
Qed.

Lemma key_lt_irrefl k : ¬ key_lt k k.
Proof. unfold key_lt. lia. Qed.

Lemma key_lt_asym k1 k2 : key_lt k1 k2 → ¬ key_lt k2 k1.
Proof. unfold key_lt. lia. Qed.

Lemma key_lt_trans k1 k2 k3 : key_lt k1 k2 → key_lt k2 k3 → key_lt k1 k3.
Proof. unfold key_lt. lia. Qed.

(** [x < y] on doubles: both are numbers and the keys are in order. *)
Lemma float_ltb_key x y :
  (x <? y)%float = true ↔
  ∃ k1 k2, float_key x = Some k1 ∧ float_key y = Some k2 ∧ key_lt k1 k2.
Proof.
  rewrite ltb_spec. unfold SFltb, float_key.
  pose proof (SFcompare_key (Prim2SF x) (Prim2SF y)) as Hc.
  destruct (sf_key (Prim2SF x)) as [k1|], (sf_key (Prim2SF y)) as [k2|];
    try (rewrite Hc; split; [done|by intros (?&?&?&?&?)]).
  destruct Hc as [Hlt|Heq|Hgt]; split; try done.
  - intros _. by exists k1, k2.
  - intros (?&?&[= <-]&[= <-]&Hlt). subst. by apply key_lt_irrefl in Hlt.
  - intros (?&?&[= <-]&[= <-]&Hlt). by apply key_lt_asym in Hlt.
Qed.

Lemma float_leb_key x y :
  (x <=? y)%float = true ↔
  ∃ k1 k2, float_key x = Some k1 ∧ float_key y = Some k2 ∧
           (key_lt k1 k2 ∨ k1 = k2).
Proof.
  rewrite leb_spec. unfold SFleb, float_key.
  pose proof (SFcompare_key (Prim2SF x) (Prim2SF y)) as Hc.
  destruct (sf_key (Prim2SF x)) as [k1|], (sf_key (Prim2SF y)) as [k2|];
    try (rewrite Hc; split; [done|by intros (?&?&?&?&?)]).
  destruct Hc as [Hlt|Heq|Hgt]; split; try done.
  - intros _. exists k1, k2. auto.
  - intros _. exists k1, k2. auto.
  - intros (?&?&[= <-]&[= <-]&[Hlt| ->]).
    + by apply key_lt_asym in Hlt.
    + by apply key_lt_irrefl in Hgt.
Qed.

Lemma float_ltb_irrefl x : (x <? x)%float = false.
Proof.
  apply not_true_is_false. intros (k1&k2&H1&H2&Hlt)%float_ltb_key.
  rewrite H1 in H2. injection H2 as <-. by apply key_lt_irrefl in Hlt.
Qed.

Lemma float_ltb_trans x y z :
  (x <? y)%float = true → (y <? z)%float = true → (x <? z)%float = true.
Proof.
  intros (k1&k2&H1&H2&Hlt)%float_ltb_key (k2'&k3&H2'&H3&Hlt')%float_ltb_key.
  rewrite H2 in H2'. injection H2' as <-.
  apply float_ltb_key. exists k1, k3. eauto using key_lt_trans.
Qed.

Lemma float_leb_not_ltb x y :
  (x <=? y)%float = true → (y <? x)%float = false.
Proof.
  intros (k1&k2&H1&H2&Hle)%float_leb_key. apply not_true_is_false.
  intros (k2'&k1'&H2'&H1'&Hlt)%float_ltb_key.
  rewrite H2 in H2'. rewrite H1 in H1'. injection H2' as <-. injection H1' as <-.
  destruct Hle as [Hlt'| ->].
  - by apply key_lt_asym in Hlt.
  - by apply key_lt_irrefl in Hlt.
Qed.

(** From [d < v] and not [e < v]: not [e <= d].  (When [e] is a number it
    is at least [v]; when it is a NaN every comparison with it fails.) *)
Lemma float_below_bound d v e :
  (d <? v)%float = true → (e <? v)%float = false → (e <=? d)%float = false.
Proof.
  intros (kd&kv&Hd&Hv&Hlt)%float_ltb_key Hev. apply not_true_is_false.
  intros (ke&kd'&He&Hd'&Hle)%float_leb_key.
  rewrite Hd in Hd'. injection Hd' as <-.
  assert (key_lt ke kv) as Hlt'.
  { destruct Hle as [Hlt'| ->]; eauto using key_lt_trans. }
  apply not_true_iff_false in Hev. apply Hev.
  apply float_ltb_key. by exists ke, kv.
Qed.

Lemma float_not_leb_not_ltb x y :
  (x <=? y)%float = false → (x <? y)%float = false.
Proof.
  intros Hle. apply not_true_is_false.
  intros (k1&k2&H1&H2&Hlt)%float_ltb_key.
  apply not_true_iff_false in Hle. apply Hle.
  apply float_leb_key. exists k1, k2. auto.
Qed.

(** ** The three steps of [update_weights] *)

Section StepProofs.
Context {T : Type} `{Arith T}.
Local Open Scope num_scope.

Lemma rd_nat_Some {A} (a : list A) (i : Z) :
  0 <= i < Z.of_nat (length a) → ∃ v, a !! Z.to_nat i = Some v ∧ rd a i = Some v.
Proof.
  intros Hi. destruct (lookup_lt_is_Some_2 a (Z.to_nat i)) as [v Hv]; [lia|].
  exists v. split; [done|]. apply rd_Some. split; [lia|done].
Qed.

Lemma sq_partial_next (w x : list T) (k : nat) wk xk :
  w !! k = Some wk → x !! k = Some xk →
  fold_left sq_term (take (Datatypes.S k) (zip w x)) num_zero
  = sq_term (fold_left sq_term (take k (zip w x)) num_zero) (wk, xk).
Proof.
  intros Hw Hx.
  rewrite (take_S_r _ _ (wk, xk)) by by apply lookup_zip_Some.
  by rewrite fold_left_app.
Qed.

Lemma distance_row_spec (x : list T) (W : list (list T)) nf (j : nat) D w :
  W !! j = Some w → vector w nf → vector x nf → (j < length D)%nat →
  distance_row x W nf (Z.of_nat j) D = Some (<[j := sq_dist w x]> D).
Proof.
  intros HW Hw Hx Hj. unfold distance_row, vector in *.
  rewrite wr_of_nat by done. simpl.
  destruct (for_range_inv
    (λ k D', D' = <[j := fold_left sq_term (take (Z.to_nat k) (zip w x)) num_zero]> D)
    (distance_term x W (Z.of_nat j)) 0 nf (<[j := num_zero]> D))
    as (D' & HD' & ->); [lia|done| |].
  - intros k D' Hk ->.
    destruct (rd_nat_Some w k) as (wk & Hwk & Hrw); [lia|].
    destruct (rd_nat_Some x k) as (xk & Hxk & Hrx); [lia|].
    unfold distance_term. rewrite (rd_of_nat W), HW. simpl.
    rewrite Hrw, Hrx. simpl.
    rewrite rd_of_nat, list_lookup_insert_eq by done. simpl.
    rewrite wr_of_nat by by rewrite length_insert.
    eexists. split; [done|].
    rewrite list_insert_insert_eq. f_equal.
    replace (Z.to_nat (k + 1)) with (Datatypes.S (Z.to_nat k)) by lia.
    by rewrite (sq_partial_next w x _ wk xk).
  - rewrite HD'. do 2 f_equal. unfold sq_dist.
    rewrite take_ge; [done|]. rewrite length_zip. lia.
Qed.

Lemma matrix_row (W : list (list T)) rows cols (j : nat) w :
  matrix W rows cols → W !! j = Some w → vector w cols.
Proof.
  intros [_ HW] Hj. by eapply (Forall_lookup_1 _ W j w) in HW.
Qed.

Lemma matrix_row_Some (W : list (list T)) rows cols (j : Z) :
  matrix W rows cols → 0 <= j < rows →
  ∃ w, W !! Z.to_nat j = Some w ∧ vector w cols.
Proof.
  intros HW Hj. destruct (lookup_lt_is_Some_2 W (Z.to_nat j)) as [w Hw].
  { destruct HW as [HW _]. lia. }
  exists w. split; [done|]. by eapply matrix_row.
Qed.

(** Step 1 writes, for every node, its squared distance from the sample. *)
Lemma evaluate_distances_spec (x : list T) (W : list (list T)) D num_out nf :
  matrix W num_out nf → vector x nf → vector D num_out →
  evaluate_distances x W D num_out nf = Some ((λ w, sq_dist w x) <$> W).
Proof.
  intros HW Hx HD. unfold evaluate_distances.
  destruct (for_range_inv
    (λ j D', length D' = length D ∧
       ∀ i : nat, Z.of_nat i < j → D' !! i = ((λ w, sq_dist w x) <$> W) !! i)
    (distance_row x W nf) 0 num_out D) as (D' & HD' & Hlen & Hget).
  - unfold vector in HD. lia.
  - split; [done|]. intros i Hi. lia.
  - intros j D1 Hj [Hlen Hget].
    destruct (matrix_row_Some W num_out nf j HW Hj) as (w & Hw & Hvw).
    pose proof (distance_row_spec x W nf (Z.to_nat j) D1 w Hw Hvw Hx) as Hrow.
    rewrite Z2Nat.id in Hrow by lia.
    rewrite Hrow by (unfold vector in HD; lia).
    eexists. split; [done|]. split; [by rewrite length_insert|].
    intros i Hi. destruct (decide (i = Z.to_nat j)) as [->|Hne].
    + rewrite list_lookup_insert_eq by (unfold vector in HD; lia).
      by rewrite list_lookup_fmap, Hw.
    + rewrite list_lookup_insert_ne by done. apply Hget. lia.
  - rewrite HD'. f_equal. apply list_eq. intros i.
    destruct (decide (Z.of_nat i < num_out)) as [Hi|Hi]; [by apply Hget|].
    destruct HW as [HWl _]. unfold vector in HD.
    rewrite !lookup_ge_None_2; [done|..]; try rewrite length_fmap; lia.
Qed.

(** Step 3b for one node: the row is replaced by the pulled row. *)
Lemma pull_row_spec (x : list T) (W : list (list T)) nf alpha (j : nat) w :
  W !! j = Some w → vector w nf → vector x nf →
  pull_row x nf alpha (Z.of_nat j) W = Some (<[j := pull alpha x w]> W).
Proof.
  intros HW Hw Hx. unfold pull_row, vector in *.
  assert (Hj : (j < length W)%nat) by by eapply lookup_lt_Some.
  destruct (for_range_inv
    (λ k W', ∃ r, W' = <[j := r]> W ∧ length r = length w ∧
       ∀ i : nat, r !! i = if decide (Z.of_nat i < k)
                           then pull alpha x w !! i else w !! i)
    (pull_term x alpha (Z.of_nat j)) 0 nf W)
    as (W' & HW' & r & -> & Hlen & Hget); [lia| | |].
  - exists w. split; [by rewrite list_insert_id|]. split; [done|].
    intros i. by destruct (decide _); [lia|].
  - intros k W1 Hk (r & -> & Hlen & Hget).
    destruct (rd_nat_Some w k) as (wk & Hwk & _); [lia|].
    destruct (rd_nat_Some x k) as (xk & Hxk & Hrx); [lia|].
    assert (Hrk : rd r k = Some wk).
    { apply rd_Some. split; [lia|]. rewrite Hget.
      by destruct (decide _); [lia|]. }
    unfold pull_term.
    rewrite (rd_of_nat (<[j:=r]> W)), list_lookup_insert_eq by done. simpl.
    rewrite Hrk, Hrx. simpl.
    pose proof (wr_of_nat r (Z.to_nat k) (wk + alpha * (xk - wk))) as Hwr.
    rewrite Z2Nat.id in Hwr by lia.
    rewrite Hwr by lia. simpl.
    rewrite wr_of_nat by by rewrite length_insert.
    eexists. split; [done|]. eexists. split; [by rewrite list_insert_insert_eq|].
    split; [by rewrite length_insert|].
    intros i. destruct (decide (i = Z.to_nat k)) as [->|Hne].
    + rewrite list_lookup_insert_eq by lia.
      destruct (decide _); [|lia].
      unfold pull. by rewrite lookup_zip_with, Hwk, Hxk.
    + rewrite list_lookup_insert_ne by done. rewrite Hget.
      destruct (decide _), (decide _); (done || lia).
  - rewrite HW'. do 2 f_equal. apply list_eq. intros i. rewrite Hget.
    destruct (decide _) as [|Hi]; [done|].
    unfold pull. rewrite !lookup_ge_None_2; [done|..];
      try rewrite length_zip_with; lia.
Qed.

(** Step 3: inside the range of step 3a every row is pulled towards the
    sample; every other row is kept. *)
Lemma update_neighborhood_spec (x : list T) (W : list (list T))
    num_out nf alpha idx R :
  matrix W num_out nf → vector x nf →
  ∃ W', update_neighborhood x W num_out nf alpha idx R = Some W' ∧
    length W' = length W ∧
    ∀ j : nat, W' !! j =
      if decide (from_node idx R <= Z.of_nat j < to_node num_out idx R)
      then pull alpha x <$> W !! j else W !! j.
Proof.
  intros HW Hx. unfold update_neighborhood.
  pose proof (from_node_nonneg idx R) as Hfrom.
  pose proof (to_node_le num_out idx R) as Hto.
  set (lo := from_node idx R) in *. set (hi := to_node num_out idx R) in *.
  destruct (decide (lo <= hi)) as [Hle|Hgt].
  - destruct (for_range_inv
      (λ i W', length W' = length W ∧
         ∀ j : nat, W' !! j = if decide (lo <= Z.of_nat j < i)
                              then pull alpha x <$> W !! j else W !! j)
      (pull_row x nf alpha) lo hi W) as (W' & HW' & Hlen & Hget);
      [done| | |by exists W'].
    + split; [done|]. intros j. by destruct (decide _); [lia|].
    + intros i W1 Hi [Hlen Hget].
      destruct (matrix_row_Some W num_out nf i HW) as (w & Hw & Hvw); [lia|].
      assert (HW1 : W1 !! Z.to_nat i = Some w).
      { rewrite Hget. by destruct (decide _); [lia|]. }
      pose proof (pull_row_spec x W1 nf alpha _ w HW1 Hvw Hx) as Hrow.
      rewrite Z2Nat.id in Hrow by lia. rewrite Hrow.
      eexists. split; [done|]. split; [by rewrite length_insert|].
      intros j. destruct (decide (j = Z.to_nat i)) as [->|Hne].
      * rewrite list_lookup_insert_eq.
        2:{ rewrite Hlen. destruct HW as [HWl _]. lia. }
        destruct (decide _); [|lia]. by rewrite Hw.
      * rewrite list_lookup_insert_ne by done. rewrite Hget.
        destruct (decide _), (decide _); (done || lia).
  - rewrite for_range_empty by lia. exists W. split; [done|]. split; [done|].
    intros j. by destruct (decide _); [lia|].
Qed.
End StepProofs.

(** ** [update_weights] and the training loop *)

Section CodeProofs.
Context {T : Type} `{Scalar T}.
Local Open Scope num_scope.

Lemma pull_vector (alpha : T) (x w : list T) n :
  vector w n → vector x n → vector (pull alpha x w) n.
Proof. unfold vector, pull. rewrite length_zip_with. lia. Qed.

Lemma update_neighborhood_matrix (x : list T) (W W' : list (list T))
    num_out nf alpha idx R :
  matrix W num_out nf → vector x nf →
  update_neighborhood x W num_out nf alpha idx R = Some W' →
  matrix W' num_out nf.
Proof.
  intros HW Hx HW'.
  destruct (update_neighborhood_spec x W num_out nf alpha idx R HW Hx)
    as (W1 & HW1 & Hlen & Hget).
  rewrite HW' in HW1. injection HW1 as <-.
  split; [destruct HW as [HW _]; lia|].
  apply Forall_lookup. intros j w' Hj. rewrite Hget in Hj.
  destruct (decide _).
  - destruct (W !! j) as [w|] eqn:Hw; [|done]. injection Hj as <-.
    apply pull_vector; [by eapply matrix_row|done].
  - by eapply matrix_row.
Qed.

(** The scan of [get_min_1d] reads inside the vector. *)
Lemma get_min_1d_total (D : list T) N idx0 :
  vector D N → ∃ m, get_min_1d D N idx0 = Some m.
Proof.
  intros HD. unfold get_min_1d, vector in *.
  destruct (for_range_inv (λ _ _, True) (get_min_1d_body D) 0 N
              (num_inf, idx0)) as (m & Hm & _); [lia|done| |by exists m].
  intros i vi Hi _. unfold get_min_1d_body.
  destruct (rd_nat_Some D i) as (d & _ & ->); [lia|]. simpl. eauto.
Qed.

(** [update_weights] does not fault on arrays of the right shape, whatever
    the radius and the indeterminate index; it leaves the distances of the
    sample in [D] and keeps the shape of [W]. *)
Lemma update_weights_ok (x : list T) (W : list (list T)) (D : list T)
    num_out nf alpha R junk :
  matrix W num_out nf → vector x nf → vector D num_out →
  ∃ W', update_weights x W D num_out nf alpha R junk
        = Some (W', (λ w, sq_dist w x) <$> W) ∧
        matrix W' num_out nf.
Proof.
  intros HW Hx HD. unfold update_weights.
  rewrite (evaluate_distances_spec x W D num_out nf HW Hx HD). simpl.
  destruct (get_min_1d_total ((λ w, sq_dist w x) <$> W) num_out junk)
    as (m & ->).
  { unfold vector. rewrite length_fmap. by destruct HW. }
  simpl.
  destruct (update_neighborhood_spec x W num_out nf alpha m.2 R HW Hx)
    as (W' & HW' & _).
  rewrite HW'. simpl. exists W'. split; [done|].
  by eapply update_neighborhood_matrix.
Qed.

Section TracerProofs.
Variables (X : list (list T)) (num_samples num_features num_out : Z).
Variable alpha_min : T.
Variable junk : Z → Z → Z.
Hypothesis X_shape : matrix X num_samples num_features.

Local Abbreviation one_pass := (pass X num_samples num_features num_out junk).
Local Abbreviation goes_on := (continues alpha_min).
Local Abbreviation run_loop :=
  (tracer_loop X num_samples num_features num_out alpha_min junk).
Local Abbreviation run_for :=
  (after_passes X num_samples num_features num_out alpha_min junk).
Local Abbreviation state_ok := (state_ok num_out num_features).

Lemma sample_loop_ok alpha R iter (W : list (list T)) (D : list T) :
  matrix W num_out num_features → vector D num_out →
  ∃ WD, sample_loop X num_samples num_features num_out junk alpha R iter (W, D)
        = Some WD ∧
        matrix WD.1 num_out num_features ∧ vector WD.2 num_out.
Proof.
  intros HW HD. unfold sample_loop.
  destruct (for_range_inv
    (λ _ WD, matrix WD.1 num_out num_features ∧ vector WD.2 num_out)
    (sample_step X num_features num_out junk alpha R iter) 0 num_samples (W, D))
    as (WD & HWD & Hok); [destruct X_shape; lia|done| |by exists WD].
  intros i [W1 D1] Hi [HW1 HD1]. simpl in *. unfold sample_step. simpl.
  destruct (matrix_row_Some X num_samples num_features i X_shape Hi)
    as (x & Hx & Hvx).
  assert (rd X i = Some x) as -> by (apply rd_Some; split; [lia|done]).
  simpl.
  destruct (update_weights_ok x W1 D1 num_out num_features alpha R
              (junk iter i) HW1 Hvx HD1) as (W' & -> & HW').
  eexists. split; [done|]. simpl. split; [done|].
  unfold vector. rewrite length_fmap. by destruct HW1.
Qed.

Lemma pass_ok st :
  state_ok st → ∃ st', one_pass st = Some st' ∧ state_ok st'.
Proof.
  intros [HW HD]. unfold pass.
  destruct (sample_loop_ok (st_alpha st) (st_R st) (st_iter st)
              (st_W st) (st_D st) HW HD) as (WD & -> & HW' & HD').
  simpl. eexists. split; [done|]. by split.
Qed.

Lemma pass_schedule st st' :
  one_pass st = Some st' →
  st_alpha st' = st_alpha st - num_cent ∧
  st_iter st' = int_add (st_iter st) 1 ∧
  st_R st' = decay_radius (st_iter st) (st_R st).
Proof.
  unfold pass. destruct (sample_loop _ _ _ _ _ _ _ _ _); [|done].
  simpl. by intros [= <-].
Qed.

(** No array access of a run faults. *)
Lemma tracer_loop_no_fault fuel st :
  state_ok st → run_loop fuel st ≠ Fault.
Proof.
  revert st. induction fuel as [|fuel IH]; intros st Hst; simpl.
  - by destruct (goes_on st).
  - destruct (goes_on st); [|done].
    destruct (pass_ok st Hst) as (st' & -> & Hst'). by apply IH.
Qed.

Lemma after_passes_schedule n st st' :
  run_for n st = Some st' →
  st_alpha st' = alpha_after n (st_alpha st) ∧
  st_iter st' = iter_after n (st_iter st) ∧
  st_R st' = radius_after n (st_iter st) (st_R st).
Proof.
  revert st. induction n as [|n IH]; intros st; simpl.
  - by intros [= <-].
  - destruct (goes_on st); [|done].
    destruct (one_pass st) as [st1|] eqn:Hp; [|done]. simpl.
    intros Hn. apply pass_schedule in Hp as (Ha & Hi & HR).
    apply IH in Hn. by rewrite Ha, Hi, HR in Hn.
Qed.

(** While the loop condition holds the passes go through. *)
Lemma after_passes_ok n st :
  state_ok st →
  (∀ k, (k < n)%nat → (alpha_min <? alpha_after k (st_alpha st)) = true) →
  ∃ st', run_for n st = Some st' ∧ state_ok st'.
Proof.
  revert st. induction n as [|n IH]; intros st Hst Hk; simpl.
  - by exists st.
  - pose proof (Hk O ltac:(lia)) as H0. simpl in H0.
    unfold continues. rewrite H0.
    destruct (pass_ok st Hst) as (st1 & Hp & Hst1). rewrite Hp. simpl.
    apply IH; [done|]. intros k Hlt.
    apply pass_schedule in Hp as (-> & _). apply (Hk (Datatypes.S k)). lia.
Qed.

(** The loop returns the state in which its condition first fails. *)
Lemma tracer_loop_returns n fuel st st' :
  run_for n st = Some st' → goes_on st' = false → (n <= fuel)%nat →
  run_loop fuel st = Returned st'.
Proof.
  revert fuel st. induction n as [|n IH]; intros fuel st; simpl.
  - intros [= <-] Hc _. destruct fuel; simpl; by rewrite Hc.
  - destruct (goes_on st) eqn:Hc; [|done].
    destruct (one_pass st) as [st1|] eqn:Hp; [|done]. simpl.
    intros Hn Hc' Hf. destruct fuel as [|fuel]; [lia|]. simpl.
    rewrite Hc, Hp. apply IH; [done..|lia].
Qed.
End TracerProofs.
End CodeProofs.

(** ** The claims that hold in every arithmetic *)

(** The range of step 3a lies inside the window of the specification. *)
Lemma code_window_in_window num_out bmu R j :
  0 <= bmu <= INT_MAX → 0 <= R <= INT_MAX →
  from_node bmu R <= j < to_node num_out bmu R →
  in_window num_out bmu R j.
Proof.
  unfold in_window, from_node, to_node, int_sub, int_add, wrap, INT_MAX.
  intros Hb HR.
  rewrite (Z.mod_small (bmu - R + 2 ^ 31)) by lia.
  destruct (Z.gtb_spec 0 (bmu - R + 2 ^ 31 - 2 ^ 31));
  destruct (Z.le_gt_cases (bmu + R) (2 ^ 31 - 1)) as [Hs|Hs].
  1,3: rewrite (Z.mod_small (bmu + R + 2 ^ 31)) by lia;
       destruct (Z.le_gt_cases (bmu + R + 1) (2 ^ 31 - 1)) as [Hs'|Hs'];
       [ rewrite (Z.mod_small (bmu + R + 2 ^ 31 - 2 ^ 31 + 1 + 2 ^ 31)) by lia
       | replace (bmu + R + 2 ^ 31 - 2 ^ 31 + 1 + 2 ^ 31)
           with (0 + 1 * 2 ^ 32) by lia;
         rewrite Z.mod_add by lia; rewrite Z.mod_0_l by lia ];
       match goal with |- context [?a <? ?b] => destruct (Z.ltb_spec a b) end;
       lia.
  all: replace (bmu + R + 2 ^ 31) with (bmu + R - 2 ^ 31 + 1 * 2 ^ 32) by lia;
       rewrite Z.mod_add by lia;
       rewrite (Z.mod_small (bmu + R - 2 ^ 31)) by lia;
       rewrite (Z.mod_small (bmu + R - 2 ^ 31 - 2 ^ 31 + 1 + 2 ^ 31)) by lia;
       match goal with |- context [?a <? ?b] => destruct (Z.ltb_spec a b) end;
       lia.
Qed.

(** Without overflow the range of step 3a is the window. *)
Lemma window_is_code_window num_out bmu R j :
  0 <= bmu → 0 <= R → bmu + R + 1 <= INT_MAX →
  in_window num_out bmu R j ↔ from_node bmu R <= j < to_node num_out bmu R.
Proof.
  intros Hb HR Hs. unfold in_window.
  rewrite from_node_exact, to_node_exact; [done|..];
    unfold int_range, INT_MIN, INT_MAX in *; lia.
Qed.

(** C1: for a sample [x] of [num_features] entries and a weight matrix of
    [num_out] rows, the distance step returns a vector [D'] of [num_out]
    entries, and [D'[j]] is the sum over [k] of
    [(W[j][k] - x[k]) * (W[j][k] - x[k])] for every node [j]. *)
Theorem C1_distance_evaluation {T} `{Arith T} (x : list T)
    (W : list (list T)) (D : list T) (num_out num_features : Z) :
  matrix W num_out num_features → vector x num_features → vector D num_out →
  ∃ D', evaluate_distances x W D num_out num_features = Some D' ∧
        vector D' num_out ∧
        ∀ (j : nat) (w : list T), W !! j = Some w →
          D' !! j = Some (sq_dist w x).
Proof.
  intros HW Hx HD. eexists. split; [by apply evaluate_distances_spec|].
  split.
  - unfold vector. rewrite length_fmap. by destruct HW.
  - intros j w Hw. by rewrite list_lookup_fmap, Hw.
Qed.

(** C4: after one neighbourhood update with BMU index [b] and radius [R],
    every row whose index lies outside the window
    [[max(0, b-R), min(num_out, b+R+1))] is equal to its value before the
    call, and the matrix keeps its number of rows. *)
Theorem C4_neighborhood_frame {T} `{Arith T} (x : list T)
    (W : list (list T)) (num_out num_features : Z) (alpha : T) (b R : Z) :
  matrix W num_out num_features → vector x num_features →
  0 <= b <= INT_MAX → 0 <= R <= INT_MAX →
  ∃ W', update_neighborhood x W num_out num_features alpha b R = Some W' ∧
    length W' = length W ∧
    ∀ j : nat, ¬ in_window num_out b R (Z.of_nat j) → W' !! j = W !! j.
Proof.
  intros HW Hx Hb HR.
  destruct (update_neighborhood_spec x W num_out num_features alpha b R
              HW Hx) as (W' & HW' & Hlen & Hget).
  exists W'. split; [done|]. split; [done|]. intros j Hj. rewrite Hget.
  destruct (decide _) as [Hin|]; [|done].
  destruct Hj. by apply code_window_in_window.
Qed.

Lemma wrap_add_l a b : wrap (wrap a + b) = wrap (a + b).
Proof.
  unfold wrap. f_equal.
  replace ((a + 2 ^ 31) mod 2 ^ 32 - 2 ^ 31 + b + 2 ^ 31)
    with ((a + 2 ^ 31) mod 2 ^ 32 + b) by lia.
  rewrite Zplus_mod_idemp_l. f_equal. lia.
Qed.

Lemma iter_after_wrap n a : iter_after n (wrap a) = wrap (a + Z.of_nat n).
Proof.
  revert a. induction n as [|n IH]; intros a; simpl.
  - f_equal. lia.
  - unfold int_add. rewrite wrap_add_l, IH. f_equal. lia.
Qed.

Lemma iter_after_0 n : iter_after n 0 = wrap (Z.of_nat n).
Proof.
  change (iter_after n 0) with (iter_after n (wrap 0)).
  by rewrite iter_after_wrap.
Qed.

(** Lines 163-164 on a radius in the range of [int]. *)
Lemma decay_radius_spec iter R :
  0 <= R <= INT_MAX →
  decay_radius iter R =
    if decide (Z.rem iter 10 = 0 ∧ 1 < R) then R - 1 else R.
Proof.
  intros HR. unfold decay_radius, int_rem, int_sub.
  destruct (Z.eqb_spec (Z.rem iter 10) 0), (Z.gtb_spec R 1); simpl;
    destruct (decide _) as [[? ?]|Hn]; try lia; try done.
  apply wrap_small. unfold int_range, INT_MIN, INT_MAX in *. lia.
Qed.


Lemma int_shr_2 num_out : int_shr num_out 2 = num_out / 4.
Proof. unfold int_shr. by rewrite Z.shiftr_div_pow2. Qed.


(** ** The claims on the run of the training loop *)

Section Schedule.
Context {T : Type} `{Scalar T}.
Local Open Scope num_scope.

Lemma alpha_after_succ n (alpha : T) :
  alpha_after (Datatypes.S n) alpha = alpha_after n alpha - num_cent.
Proof.
  revert alpha. induction n as [|n IH]; intros alpha; [done|].
  change (alpha_after (Datatypes.S (Datatypes.S n)) alpha)
    with (alpha_after (Datatypes.S n) (alpha - num_cent)).
  by rewrite IH.
Qed.

Lemma runs_exactly_spec (alpha_min : T) n :
  runs_exactly alpha_min n = true ↔
  (∀ k, (k < n)%nat → (alpha_min <? alpha_after k num_one) = true) ∧
  (alpha_min <? alpha_after n num_one) = false.
Proof.
  unfold runs_exactly.
  rewrite andb_true_iff, negb_true_iff, forallb_forall.
  split; intros [Hk Hn]; (split; [|done]).
  - intros k Hlt. apply Hk, in_seq. lia.
  - intros k Hin%in_seq. apply Hk. lia.
Qed.

(** A run whose loop condition fails for the first time after [n]
    iterations returns after exactly [n] passes. *)
Lemma tracer_runs_exactly (X : list (list T)) num_samples num_features
    num_out (alpha_min : T) junk (W : list (list T)) (D0 : list T) n fuel :
  matrix X num_samples num_features → matrix W num_out num_features →
  vector D0 num_out →
  runs_exactly alpha_min n = true → (n <= fuel)%nat →
  ∃ st, kohonen_som_tracer X num_samples num_features num_out alpha_min junk
          fuel W D0 = Returned st ∧
        after_passes X num_samples num_features num_out alpha_min junk n
          (tracer_init num_out W D0) = Some st ∧
        state_ok num_out num_features st ∧
        st_iter st = wrap (Z.of_nat n) ∧
        st_alpha st = alpha_after n num_one.
Proof.
  intros HX HW HD [Hk Hn]%runs_exactly_spec Hfuel.
  destruct (after_passes_ok X num_samples num_features num_out alpha_min junk
              HX n (tracer_init num_out W D0)) as (st & Hst & Hok);
    [by split|done|].
  pose proof Hst as (Ha & Hi & _)%after_passes_schedule.
  simpl in Ha, Hi. rewrite iter_after_0 in Hi.
  exists st. split; [|done].
  eapply tracer_loop_returns; [done| |done].
  unfold continues. by rewrite Ha.
Qed.

(** The first index at which a test fails, below an index at which it
    fails. *)
Lemma first_false (P : nat → bool) (N : nat) :
  P N = false →
  ∃ n, (n <= N)%nat ∧ (∀ k, (k < n)%nat → P k = true) ∧ P n = false.
Proof.
  revert P. induction N as [|N IH]; intros P HN.
  - exists O. split; [done|]. split; [|done]. intros k Hk. lia.
  - destruct (P O) eqn:H0.
    + destruct (IH (λ k, P (Datatypes.S k)) HN) as (n & Hn & Hbelow & HPn).
      exists (Datatypes.S n). split; [lia|]. split; [|done].
      intros [|k] Hk; [done|]. apply Hbelow. lia.
    + exists O. split; [lia|]. split; [|done]. intros k Hk. lia.
Qed.
End Schedule.
(** ** The run in double arithmetic *)

Lemma float_ltb_asym x y : (x <? y)%float = true → (y <? x)%float = false.
Proof.
  intros Hxy. apply not_true_is_false. intros Hyx.
  pose proof (float_ltb_trans x y x Hxy Hyx) as Hxx.
  by rewrite float_ltb_irrefl in Hxx.
Qed.

(** [alpha] is below zero after 100 subtractions of [0.01]. *)
Lemma alpha_after_100 : (alpha_after 100 1 <? 0)%float = true.
Proof. by vm_compute. Qed.

Lemma runs_at_most_100 (alpha_min : float) :
  (0 <? alpha_min)%float = true →
  ∃ n, (n <= 100)%nat ∧ runs_exactly alpha_min n = true.
Proof.
  intros Hpos.
  destruct (first_false (λ k, (alpha_min <? alpha_after k 1)%float) 100)
    as (n & Hn & Hbelow & Hstop).
  { apply float_ltb_asym.
    exact (float_ltb_trans (alpha_after 100 1%float) 0%float alpha_min
             alpha_after_100 Hpos). }
  exists n. split; [done|]. by apply runs_exactly_spec.
Qed.

(** C5: the loop starts with [alpha = 1.0] and subtracts [0.01] after each
    outer pass, and a pass is executed only while [alpha > alpha_min]: the
    state after [k] passes has [alpha] equal to 1.0 less [k] times 0.01 (in
    double arithmetic, within [2^-49] of the decimal [(100 - k) / 100]).
    With [alpha_min = 0.1] the loop condition holds before each of the
    first 90 passes and fails before the next, so the run returns after
    exactly 90 passes; with [alpha_min = 0.01], after exactly 99. *)
Theorem C5_schedule_termination (X W : list (list float)) (D0 : list float)
    (num_samples num_features num_out : Z) (junk : Z → Z → Z) (fuel : nat) :
  matrix X num_samples num_features → matrix W num_out num_features →
  vector D0 num_out → (99 <= fuel)%nat →
  (∀ alpha_min k st,
     after_passes X num_samples num_features num_out alpha_min junk k
       (tracer_init num_out W D0) = Some st →
     st_alpha st = alpha_after k 1%float ∧
     alpha_after (Datatypes.S k) 1%float
       = (alpha_after k 1 - 0x1.47ae147ae147bp-7)%float) ∧
  (∀ k, (k <= 100)%nat → near_decimal k = true) ∧
  runs_exactly alpha_min_test1 90 = true ∧
  runs_exactly alpha_min_test2 99 = true ∧
  (∃ st, kohonen_som_tracer X num_samples num_features num_out
           alpha_min_test1 junk fuel W D0 = Returned st ∧
         after_passes X num_samples num_features num_out alpha_min_test1
           junk 90 (tracer_init num_out W D0) = Some st ∧
         st_iter st = 90) ∧
  (∃ st, kohonen_som_tracer X num_samples num_features num_out
           alpha_min_test2 junk fuel W D0 = Returned st ∧
         after_passes X num_samples num_features num_out alpha_min_test2
           junk 99 (tracer_init num_out W D0) = Some st ∧
         st_iter st = 99).
Proof.
  intros HX HW HD Hfuel.
  assert (runs_exactly alpha_min_test1 90 = true) as H1 by by vm_compute.
  assert (runs_exactly alpha_min_test2 99 = true) as H2 by by vm_compute.
  split; [|split; [|split; [done|split; [done|split]]]].
  - intros alpha_min k st (Ha & _)%after_passes_schedule.
    split; [done|]. exact (alpha_after_succ k 1%float).
  - intros k Hk.
    assert (forallb near_decimal (seq 0 101) = true) as Hall by by vm_compute.
    rewrite forallb_forall in Hall. apply Hall, in_seq. lia.
  - destruct (tracer_runs_exactly X num_samples num_features num_out
                alpha_min_test1 junk W D0 90 fuel HX HW HD H1)
      as (st & Hret & Hafter & _ & Hiter & _); [lia|].
    by exists st.
  - destruct (tracer_runs_exactly X num_samples num_features num_out
                alpha_min_test2 junk W D0 99 fuel HX HW HD H2)
      as (st & Hret & Hafter & _ & Hiter & _); [lia|].
    by exists st.
Qed.

(** C8: on arrays of the declared shapes no array access of the training
    is out of range.  The bounds of step 3a are clamped,
    [0 <= from_node] and [to_node <= num_out], whatever the index and the
    radius; [update_weights] returns without a fault and keeps the shapes;
    no run faults, whatever the threshold and however long it runs; and for
    [alpha_min > 0] the run returns, within 100 passes, with a weight
    matrix of the same shape. *)
Theorem C8_no_fault (X W : list (list float)) (D0 : list float)
    (num_samples num_features num_out : Z) (alpha_min : float)
    (junk : Z → Z → Z) (fuel : nat) :
  matrix X num_samples num_features → matrix W num_out num_features →
  vector D0 num_out → (0 <? alpha_min)%float = true → (100 <= fuel)%nat →
  (∀ idx R, 0 <= from_node idx R ∧ to_node num_out idx R <= num_out) ∧
  (∀ (x : list float) (alpha : float) (R idx0 : Z),
     vector x num_features →
     ∃ W' D', update_weights x W D0 num_out num_features alpha R idx0
              = Some (W', D') ∧
              matrix W' num_out num_features ∧ vector D' num_out) ∧
  (∀ (threshold : float) (n : nat),
     kohonen_som_tracer X num_samples num_features num_out threshold junk n
       W D0 ≠ Fault) ∧
  ∃ st, kohonen_som_tracer X num_samples num_features num_out alpha_min
          junk fuel W D0 = Returned st ∧
        matrix (st_W st) num_out num_features.
Proof.
  intros HX HW HD Hpos Hfuel. split; [|split; [|split]].
  - intros idx R. split; [apply from_node_nonneg|apply to_node_le].
  - intros x alpha R idx0 Hx.
    destruct (update_weights_ok x W D0 num_out num_features alpha R idx0
                HW Hx HD) as (W' & HW' & Hshape).
    eexists _, _. split; [done|]. split; [done|].
    unfold vector. rewrite length_fmap. by destruct HW.
  - intros threshold n. by apply tracer_loop_no_fault.
  - destruct (runs_at_most_100 alpha_min Hpos) as (n & Hn & Hruns).
    destruct (tracer_runs_exactly X num_samples num_features num_out
                alpha_min junk W D0 n fuel HX HW HD Hruns)
      as (st & Hret & _ & [Hok _] & _); [lia|].
    by exists st.
Qed.

(** C10: for every [alpha_min >= 1.0] the loop condition fails at
    [alpha = 1.0]: the run returns at once, with no outer pass, [iter = 0]
    and the weight matrix it was given. *)
Theorem C10_no_pass (X W : list (list float)) (D0 : list float)
    (num_samples num_features num_out : Z) (alpha_min : float)
    (junk : Z → Z → Z) (fuel : nat) :
  (1 <=? alpha_min)%float = true →
  ∃ st, kohonen_som_tracer X num_samples num_features num_out alpha_min
          junk fuel W D0 = Returned st ∧
        after_passes X num_samples num_features num_out alpha_min junk 0
          (tracer_init num_out W D0) = Some st ∧
        st_iter st = 0 ∧ st_W st = W.
Proof.
  intros Hge%float_leb_not_ltb. exists (tracer_init num_out W D0).
  split; [|done]. unfold kohonen_som_tracer.
  apply tracer_loop_returns with (n := O); [done|done|lia].
Qed.

(** ** [get_min_1d] on doubles *)

(** The scan of [get_min_1d]: no entry is below the value it returns; and
    either that value is still the initial [INFINITY], or the index lies in
    the vector, the entry there is the value, and no entry before it is
    below or equal to the value. *)
Lemma get_min_1d_scan (D : list float) (N idx0 : Z) :
  vector D N →
  ∃ (val : float) (idx : Z),
    get_min_1d D N idx0 = Some (val, idx) ∧
    (∀ (j : nat) (d : float), D !! j = Some d → (d <? val)%float = false) ∧
    (val = infinity ∨
     (0 <= idx < N ∧ D !! Z.to_nat idx = Some val ∧
      ∀ (j : nat) (d : float), Z.of_nat j < idx → D !! j = Some d →
        (d <=? val)%float = false)).
Proof.
  intros HD. unfold get_min_1d, vector in *.
  destruct (for_range_inv
    (λ i (vi : float * Z),
       (∀ (j : nat) d, Z.of_nat j < i → D !! j = Some d →
          (d <? vi.1)%float = false) ∧
       (vi.1 = infinity ∨
        (0 <= vi.2 < i ∧ D !! Z.to_nat vi.2 = Some vi.1 ∧
         ∀ (j : nat) d, Z.of_nat j < vi.2 → D !! j = Some d →
           (d <=? vi.1)%float = false)))
    (get_min_1d_body D) 0 N (infinity, idx0))
    as ([val idx] & Hres & Hmin & Hidx); [lia| | |].
  - split; [intros; lia|by left].
  - intros i [val idx] Hi [Hmin Hidx]. simpl in *.
    unfold get_min_1d_body.
    destruct (rd_nat_Some D i) as (d & Hd & ->); [lia|]. simpl.
    change (num_ltb d val) with (d <? val)%float.
    destruct (d <? val)%float eqn:Hlt; eexists; (split; [done|]); simpl.
    + split.
      * intros j e Hj He. destruct (decide (j = Z.to_nat i)) as [->|Hne].
        { rewrite Hd in He. injection He as <-. apply float_ltb_irrefl. }
        apply float_not_leb_not_ltb, (float_below_bound d val e Hlt).
        apply (Hmin j); [lia|done].
      * right. split; [lia|]. split; [done|]. intros j e Hj He.
        apply (float_below_bound d val e Hlt). apply (Hmin j); [lia|done].
    + split.
      * intros j e Hj He. destruct (decide (j = Z.to_nat i)) as [->|Hne].
        { rewrite Hd in He. by injection He as <-. }
        apply (Hmin j); [lia|done].
      * destruct Hidx as [?|(? & ? & ?)]; [by left|right].
        split; [lia|done].
  - simpl in *. exists val, idx. split; [done|]. split; [|done].
    intros j d Hd. apply lookup_lt_Some in Hd as Hlt.
    apply (Hmin j); [lia|done].
Qed.

(** X1: for every vector of [N] doubles in which some entry is below
    [INFINITY], [get_min_1d] returns an index inside the vector and the
    entry there as the value; no entry is below the value, and no entry
    before the index is below or equal to it, so among equal minima the
    lowest index is returned. *)
Theorem X1_bmu_locator (D : list float) (N idx0 : Z) :
  vector D N →
  (∃ (j : nat) (d : float), D !! j = Some d ∧ (d <? infinity)%float = true) →
  ∃ (val : float) (idx : Z),
    get_min_1d D N idx0 = Some (val, idx) ∧
    0 <= idx < N ∧
    D !! Z.to_nat idx = Some val ∧
    (∀ (j : nat) (d : float), D !! j = Some d → (d <? val)%float = false) ∧
    (∀ (j : nat) (d : float), Z.of_nat j < idx → D !! j = Some d →
       (d <=? val)%float = false).
Proof.
  intros HD (j0 & d0 & Hj0 & Hd0).
  destruct (get_min_1d_scan D N idx0 HD) as (val & idx & Hres & Hmin & Hidx).
  exists val, idx. split; [done|].
  destruct Hidx as [->|(Hr & Hv & Hbefore)]; [|done].
  by rewrite (Hmin j0 d0 Hj0) in Hd0.
Qed.

Lemma get_min_1d_loop_step (D : list float) n j (vi : float * Z) :
  for_loop (Datatypes.S n) j (get_min_1d_body D) vi
  = match rd D j with
    | Some xi => for_loop n (j + 1) (get_min_1d_body D)
                   (if (xi <? vi.1)%float then (xi, j) else vi)
    | None => None
    end.
Proof.
  cbn [for_loop].
  destruct (rd D j) eqn:Hrd; unfold get_min_1d_body; rewrite Hrd; reflexivity.
Qed.

(** Two scans that differ in the initial index only return the same value,
    and the same index unless both hand back their initial index. *)
Lemma get_min_1d_loop_rel (D : list float) n j (v : float) (i i' : Z) :
  match for_loop n j (get_min_1d_body D) (v, i),
        for_loop n j (get_min_1d_body D) (v, i') with
  | Some m, Some m' => m.1 = m'.1 ∧ (m.2 = m'.2 ∨ (m.2 = i ∧ m'.2 = i'))
  | None, None => True
  | _, _ => False
  end.
Proof.
  revert j v. induction n as [|n IH]; intros j v.
  - simpl. split; [done|]. by right.
  - rewrite !get_min_1d_loop_step. destruct (rd D j) as [xi|]; [|done].
    simpl. destruct (xi <? v)%float; [|apply IH].
    destruct (for_loop n (j + 1) (get_min_1d_body D) (xi, j)); auto.
Qed.

(** When some entry is below [INFINITY] the result of [get_min_1d] does
    not depend on what the index variable held before the call. *)
Lemma get_min_1d_junk_free (D : list float) (N idx0 idx0' : Z) :
  vector D N →
  (∃ (j : nat) (d : float), D !! j = Some d ∧ (d <? infinity)%float = true) →
  get_min_1d D N idx0 = get_min_1d D N idx0'.
Proof.
  intros HD Hfound.
  assert (∀ a, get_min_1d D N a = get_min_1d D N (-1)) as Hfix.
  { intros a. destruct Hfound as (j0 & d0 & Hj0 & Hd0).
    destruct (get_min_1d_scan D N a HD) as (v & i & Ha & _).
    destruct (get_min_1d_scan D N (-1) HD) as (v' & i' & Hb & Hmin & Hi').
    destruct Hi' as [->|[Hi' _]];
      [by rewrite (Hmin j0 d0 Hj0) in Hd0|].
    pose proof (get_min_1d_loop_rel D (Z.to_nat (N - 0)) 0 infinity a (-1))
      as Hrel.
    unfold get_min_1d, for_range in Ha, Hb. simpl in Ha, Hb.
    rewrite Ha, Hb in Hrel. simpl in Hrel.
    destruct Hrel as [-> [->|[_ ->]]]; [|lia].
    unfold get_min_1d, for_range. simpl. by rewrite Ha, Hb. }
  by rewrite (Hfix idx0), (Hfix idx0').
Qed.

(** X2: a call of [update_weights] on arrays of the declared shapes
    returns the same weights and distances whatever the distance buffer
    held before, and, when the squared distance of some node from the
    sample is below [INFINITY], whatever the indeterminate initial value of
    [d_min_idx]. *)
Theorem X2_update_weights_deterministic (x : list float)
    (W : list (list float)) (D D' : list float)
    (num_out num_features : Z) (alpha : float) (R junk junk' : Z) :
  matrix W num_out num_features → vector x num_features →
  vector D num_out → vector D' num_out →
  update_weights x W D num_out num_features alpha R junk
  = update_weights x W D' num_out num_features alpha R junk ∧
  ((∃ (j : nat) (w : list float),
      W !! j = Some w ∧ (sq_dist w x <? infinity)%float = true) →
   update_weights x W D num_out num_features alpha R junk
   = update_weights x W D' num_out num_features alpha R junk').
Proof.
  intros HW Hx HD HD'. unfold update_weights.
  rewrite (evaluate_distances_spec x W D num_out num_features HW Hx HD).
  rewrite (evaluate_distances_spec x W D' num_out num_features HW Hx HD').
  split; [done|]. intros (j & w & Hw & Hlt). simpl.
  rewrite (get_min_1d_junk_free _ num_out junk junk'); [done| |].
  - unfold vector. rewrite length_fmap. by destruct HW.
  - exists j, (sq_dist w x). split; [|done]. by rewrite list_lookup_fmap, Hw.
Qed.

(** C2, at a vector whose only entry is [INFINITY]: the minimum is found
    at index 0, but no entry is below the initial [INFINITY], so the index
    is never assigned and [get_min_1d] hands back whatever the caller's
    variable held. *)
Theorem C2_index_unassigned (idx0 : Z) :
  get_min_1d [infinity] 1 idx0 = Some (infinity, idx0).
Proof. reflexivity. Qed.

(** ** More on [get_min_1d], [update_weights] and the radius *)

(** X4: when none of the first [N] entries is below [INFINITY] (all are
    [INFINITY] or NaN, or [N <= 0]), [get_min_1d] returns the value
    [INFINITY] and leaves the index as the caller had it. *)
Theorem X4_bmu_locator_unassigned (D : list float) (N idx0 : Z) :
  N <= Z.of_nat (length D) →
  (∀ (j : nat) (d : float), Z.of_nat j < N → D !! j = Some d →
     (d <? infinity)%float = false) →
  get_min_1d D N idx0 = Some (infinity, idx0).
Proof.
  intros HN Hnone. unfold get_min_1d.
  destruct (decide (0 <= N)) as [Hpos|Hneg];
    [|by rewrite for_range_empty by lia].
  destruct (for_range_inv (λ _ (vi : float * Z), vi = (infinity, idx0))
              (get_min_1d_body D) 0 N (infinity, idx0))
    as (vi & Hres & ->); [done|done| |done].
  intros i vi Hi ->. unfold get_min_1d_body.
  destruct (rd_nat_Some D i) as (d & Hd & ->); [lia|]. simpl.
  change (num_ltb d infinity) with (d <? infinity)%float.
  rewrite (Hnone (Z.to_nat i) d); [by eexists|lia|done].
Qed.

Lemma radius_after_closed n iter R :
  0 <= iter → iter + Z.of_nat n <= INT_MAX → 0 <= R <= INT_MAX →
  radius_after n iter R
  = Z.max (Z.min R 1)
      (R - ((iter + Z.of_nat n + 9) / 10 - (iter + 9) / 10)).
Proof.
  revert iter R. induction n as [|n IH]; intros iter R Hi Hn HR.
  - simpl. replace (iter + Z.of_nat 0) with iter by lia. lia.
  - cbn [radius_after]. rewrite decay_radius_spec by done.
    assert (int_add iter 1 = iter + 1) as ->.
    { apply wrap_small. unfold int_range, INT_MIN, INT_MAX in *. lia. }
    rewrite Z.rem_mod_nonneg by lia.
    destruct (decide _) as [[Hm HR1]|Hno];
      rewrite IH by lia;
      replace (iter + 1 + Z.of_nat n) with (iter + Z.of_nat (Datatypes.S n))
        by lia;
      pose proof (Z.div_mod (iter + 9) 10 ltac:(lia));
      pose proof (Z.mod_pos_bound (iter + 9) 10 ltac:(lia));
      pose proof (Z.div_mod (iter + 1 + 9) 10 ltac:(lia));
      pose proof (Z.mod_pos_bound (iter + 1 + 9) 10 ltac:(lia));
      pose proof (Z.div_mod iter 10 ltac:(lia));
      pose proof (Z.mod_pos_bound iter 10 ltac:(lia));
      pose proof (Z.div_le_mono (iter + 1 + 9)
                    (iter + Z.of_nat (Datatypes.S n) + 9) 10 ltac:(lia)
                    ltac:(lia));
      lia.
Qed.


(** X5: [update_weights] as a whole.  On arrays of the declared shapes,
    with a radius [R >= 0] such that [R + num_out] does not overflow and a
    sample whose squared distance from some node is below [INFINITY], the
    call leaves in [D] the squared distance of every node from the sample
    (taken before the update), and pulls exactly the rows within [R] of
    the best-matching unit: the lowest index among the nodes of least
    distance.  Every other row is kept. *)
Theorem X5_update_weights_spec (x : list float) (W : list (list float))
    (D : list float) (num_out num_features : Z) (alpha : float)
    (R junk : Z) :
  matrix W num_out num_features → vector x num_features →
  vector D num_out → 0 <= R → R + num_out <= INT_MAX →
  (∃ (j : nat) (w : list float),
     W !! j = Some w ∧ (sq_dist w x <? infinity)%float = true) →
  ∃ (W' : list (list float)) (bmu : nat) (wb : list float),
    update_weights x W D num_out num_features alpha R junk
      = Some (W', (λ w, sq_dist w x) <$> W) ∧
    W !! bmu = Some wb ∧
    (∀ (j : nat) (w : list float), W !! j = Some w →
       (sq_dist w x <? sq_dist wb x)%float = false) ∧
    (∀ (j : nat) (w : list float), (j < bmu)%nat → W !! j = Some w →
       (sq_dist w x <=? sq_dist wb x)%float = false) ∧
    length W' = length W ∧
    ∀ j : nat,
      W' !! j = if decide (Z.of_nat bmu - R <= Z.of_nat j <= Z.of_nat bmu + R)
                then pull alpha x <$> W !! j else W !! j.
Proof.
  intros HW Hx HD HR Hsum (j0 & w0 & Hw0 & Hlt0). unfold update_weights.
  rewrite (evaluate_distances_spec x W D num_out num_features HW Hx HD).
  simpl. set (Ds := (λ w, sq_dist w x) <$> W).
  assert (vector Ds num_out) as HDs.
  { unfold vector, Ds. rewrite length_fmap. by destruct HW. }
  destruct (get_min_1d_scan Ds num_out junk HDs)
    as (val & idx & -> & Hmin & Hidx). simpl.
  destruct Hidx as [->|(Hi & Hval & Hfirst)].
  { rewrite (Hmin j0 (sq_dist w0 x)) in Hlt0; [done|].
    unfold Ds. by rewrite list_lookup_fmap, Hw0. }
  unfold Ds in Hval. rewrite list_lookup_fmap in Hval.
  destruct (W !! Z.to_nat idx) as [wb|] eqn:Hwb; [|done].
  injection Hval as <-.
  destruct (update_neighborhood_spec x W num_out num_features alpha idx R
              HW Hx) as (W' & -> & Hlen & Hget).
  simpl. exists W', (Z.to_nat idx), wb. split; [done|]. split; [done|].
  split; [|split; [|split; [done|]]].
  - intros j w Hw. apply (Hmin j). unfold Ds. by rewrite list_lookup_fmap, Hw.
  - intros j w Hj Hw. apply (Hfirst j); [lia|].
    unfold Ds. by rewrite list_lookup_fmap, Hw.
  - intros j. rewrite Hget.
    rewrite from_node_exact, to_node_exact
      by (unfold int_range, INT_MIN, INT_MAX in *; lia).
    destruct (decide (Z.of_nat j < num_out)) as [Hj|Hj].
    + destruct (decide _), (decide _); (done || lia).
    + rewrite (lookup_ge_None_2 W j) by (destruct HW; lia).
      by destruct (decide _), (decide _).
Qed.

(** ** The distance buffer

    [kohonen_som_tracer] gets the buffer [D] from [malloc] and never
    initialises it; [update_weights] overwrites every entry before
    [get_min_1d] reads it. *)

Section Buffer.
Context {T : Type} `{Scalar T}.
Variables (X : list (list T)) (num_samples num_features num_out : Z).
Variable alpha_min : T.
Variable junk : Z → Z → Z.
Hypothesis X_shape : matrix X num_samples num_features.

Lemma update_weights_buffer (x : list T) (W : list (list T)) (D D' : list T)
    (alpha : T) (R idx0 : Z) :
  matrix W num_out num_features → vector x num_features →
  vector D num_out → vector D' num_out →
  update_weights x W D num_out num_features alpha R idx0
  = update_weights x W D' num_out num_features alpha R idx0.
Proof.
  intros HW Hx HD HD'. unfold update_weights.
  rewrite (evaluate_distances_spec x W D num_out num_features HW Hx HD).
  by rewrite (evaluate_distances_spec x W D' num_out num_features HW Hx HD').
Qed.

(** A pass over at least one sample forgets what the buffer held; a pass
    over no sample leaves weights and buffer as they are. *)
Lemma sample_loop_buffer (alpha : T) (R iter : Z) (W : list (list T))
    (D D' : list T) :
  matrix W num_out num_features → vector D num_out → vector D' num_out →
  0 < num_samples →
  sample_loop X num_samples num_features num_out junk alpha R iter (W, D)
  = sample_loop X num_samples num_features num_out junk alpha R iter (W, D').
Proof.
  intros HW HD HD' Hn. unfold sample_loop, for_range.
  destruct (Z.to_nat (num_samples - 0)) as [|n] eqn:Hk; [lia|].
  cbn [for_loop].
  assert (sample_step X num_features num_out junk alpha R iter 0 (W, D)
          = sample_step X num_features num_out junk alpha R iter 0 (W, D'))
    as ->; [|done].
  unfold sample_step. cbn [fst snd].
  destruct (matrix_row_Some X num_samples num_features 0 X_shape)
    as (x & Hx & Hvx); [lia|].
  change (Z.to_nat 0) with O in Hx.
  assert (rd X 0 = Some x) as -> by done.
  cbn [mbind option_bind].
  by apply update_weights_buffer.
Qed.

Lemma pass_buffer (st st' : tracer_state T) :
  same_but_buffer st st' →
  state_ok num_out num_features st → state_ok num_out num_features st' →
  ∃ s s', pass X num_samples num_features num_out junk st = Some s ∧
          pass X num_samples num_features num_out junk st' = Some s' ∧
          same_but_buffer s s' ∧
          state_ok num_out num_features s ∧
          state_ok num_out num_features s'.
Proof.
  intros (HW & HR & Hi & Ha) Hok Hok'.
  destruct (pass_ok X num_samples num_features num_out junk X_shape st Hok)
    as (s & Hs & Hoks).
  destruct (pass_ok X num_samples num_features num_out junk X_shape st' Hok')
    as (s' & Hs' & Hoks').
  exists s, s'. split; [done|]. split; [done|]. split; [|done].
  destruct Hok as [HWs HDs], Hok' as [HWs' HDs'].
  unfold pass in Hs, Hs'. rewrite <- HW, <- HR, <- Hi, <- Ha in Hs'.
  destruct (decide (0 < num_samples)) as [Hn|Hn].
  - rewrite <- (sample_loop_buffer (st_alpha st) (st_R st) (st_iter st)
                  (st_W st) (st_D st) (st_D st')) in Hs'
      by (done || by rewrite HW).
    rewrite Hs in Hs'. by injection Hs' as <-.
  - unfold sample_loop in Hs, Hs'.
    rewrite for_range_empty in Hs, Hs' by lia.
    cbn [mbind option_bind fst snd] in Hs, Hs'.
    injection Hs as <-. injection Hs' as <-. by repeat split.
Qed.

Lemma tracer_loop_buffer (fuel : nat) (st st' : tracer_state T) :
  same_but_buffer st st' →
  state_ok num_out num_features st → state_ok num_out num_features st' →
  same_run
    (tracer_loop X num_samples num_features num_out alpha_min junk fuel st)
    (tracer_loop X num_samples num_features num_out alpha_min junk fuel st').
Proof.
  revert st st'. induction fuel as [|fuel IH]; intros st st' Hsame Hok Hok';
    cbn [tracer_loop]; unfold continues;
    pose proof Hsame as (_ & _ & _ & <-);
    destruct (alpha_min <? st_alpha st)%num; try done.
  destruct (pass_buffer st st' Hsame Hok Hok')
    as (s & s' & -> & -> & Hsame' & Hoks & Hoks').
  by apply IH.
Qed.
End Buffer.

(** X16: what the distance buffer holds when [malloc] hands it out has no
    effect on a training run: on arrays of the declared shapes two runs
    that differ in the buffer only both return, with the same weights, or
    both outlast the fuel; neither faults. *)
Theorem X16_stale_distances_never_read {T} `{Scalar T} (X : list (list T))
    (num_samples num_features num_out : Z) (alpha_min : T)
    (junk : Z → Z → Z) (fuel : nat) (W : list (list T)) (D0 D0' : list T) :
  matrix X num_samples num_features → matrix W num_out num_features →
  vector D0 num_out → vector D0' num_out →
  same_run
    (kohonen_som_tracer X num_samples num_features num_out alpha_min junk
       fuel W D0)
    (kohonen_som_tracer X num_samples num_features num_out alpha_min junk
       fuel W D0').
Proof.
  intros HX HW HD HD'. unfold kohonen_som_tracer.
  by apply tracer_loop_buffer.
Qed.

(** ** A run without samples *)

Section NoSamples.
Context {T : Type} `{Scalar T}.
Local Open Scope num_scope.
Variables (X : list (list T)) (num_samples num_features num_out : Z).
Variable alpha_min : T.
Variable junk : Z → Z → Z.
Hypothesis no_samples : (num_samples <= 0)%Z.

Lemma pass_no_samples (st : tracer_state T) :
  pass X num_samples num_features num_out junk st
  = Some {| st_W := st_W st;
            st_D := st_D st;
            st_R := decay_radius (st_iter st) (st_R st);
            st_iter := int_add (st_iter st) 1;
            st_alpha := st_alpha st - num_cent |}.
Proof. unfold pass, sample_loop. by rewrite for_range_empty by lia. Qed.

Lemma tracer_loop_no_samples (n fuel : nat) (st : tracer_state T) :
  (∀ k, (k < n)%nat → (alpha_min <? alpha_after k (st_alpha st)) = true) →
  (alpha_min <? alpha_after n (st_alpha st)) = false → (n <= fuel)%nat →
  ∃ st',
    tracer_loop X num_samples num_features num_out alpha_min junk fuel st
      = Returned st' ∧
    st_W st' = st_W st ∧ st_D st' = st_D st ∧
    st_iter st' = iter_after n (st_iter st).
Proof.
  revert fuel st. induction n as [|n IH]; intros fuel st Hk Hn Hfuel.
  - exists st. cbn [alpha_after] in Hn.
    destruct fuel; cbn [tracer_loop]; unfold continues; by rewrite Hn.
  - destruct fuel as [|fuel]; [lia|]. cbn [tracer_loop]. unfold continues.
    pose proof (Hk O ltac:(lia)) as H0. cbn [alpha_after] in H0.
    rewrite H0, pass_no_samples.
    destruct (IH fuel
                {| st_W := st_W st;
                   st_D := st_D st;
                   st_R := decay_radius (st_iter st) (st_R st);
                   st_iter := int_add (st_iter st) 1;
                   st_alpha := st_alpha st - num_cent |})
      as (st' & Hst' & HW & HD & Hi).
    + intros k Hlt. apply (Hk (Datatypes.S k)). lia.
    + done.
    + lia.
    + by exists st'.
Qed.
End NoSamples.

(** X18: with no sample ([num_samples <= 0]) a run makes its passes
    without reading or writing any array: whatever the shapes of [X], [W]
    and the buffer, it returns after the passes the stopping threshold
    allows, with [W] and the buffer as they were. *)
Theorem X18_no_samples_nothing_learnt {T} `{Scalar T} (X : list (list T))
    (num_samples num_features num_out : Z) (alpha_min : T)
    (junk : Z → Z → Z) (n fuel : nat) (W : list (list T)) (D0 : list T) :
  num_samples <= 0 → runs_exactly alpha_min n = true → (n <= fuel)%nat →
  ∃ st,
    kohonen_som_tracer X num_samples num_features num_out alpha_min junk
      fuel W D0 = Returned st ∧
    st_W st = W ∧ st_D st = D0 ∧ st_iter st = wrap (Z.of_nat n).
Proof.
  intros Hns [Hk Hn]%runs_exactly_spec Hfuel. unfold kohonen_som_tracer.
  destruct (tracer_loop_no_samples X num_samples num_features num_out
              alpha_min junk Hns n fuel (tracer_init num_out W D0))
    as (st & Hst & HW & HD & Hi); [done..|].
  exists st. split; [done|]. split; [done|]. split; [done|].
  by rewrite Hi, <- iter_after_0.
Qed.
(** ** The code on concrete inputs *)

(** C9, at a sample whose squared distance overflows: with one node at 0
    and the sample [2^700] every distance is [INFINITY], [get_min_1d]
    assigns no index, and the rows that [update_weights] pulls are chosen
    by the indeterminate value of [d_min_idx].  Two runs on the same data
    return different weights. *)
Theorem C9_unassigned_index_decides :
  ∃ st1 st2 : tracer_state float,
    kohonen_som_tracer [[0x1p+700%float]] 1 1 1 0x1.fcp-1%float (λ _ _, 0) 1
      [[0%float]] [0%float] = Returned st1 ∧
    kohonen_som_tracer [[0x1p+700%float]] 1 1 1 0x1.fcp-1%float (λ _ _, 1) 1
      [[0%float]] [0%float] = Returned st2 ∧
    st_W st1 = [[0x1p+700%float]] ∧
    st_W st2 = [[0%float]] ∧
    st_W st1 ≠ st_W st2.
Proof.
  eexists _, _. split; [by vm_compute|]. split; [by vm_compute|].
  split; [done|]. split; [done|]. simpl. by intros [=].
Qed.

(** C3 fails as it is stated, twice.  The claim allows every radius
    [R >= 0]: with [R = INT_MAX] the [int] sum [d_min_idx + R + 1] of line
    118 overflows, which C leaves undefined; with the wrap-around of a
    two's-complement machine it is [INT_MIN], the range of step 3a is
    empty, and row 0, which is in the window, keeps its weight 0 although
    [0 + 1 * (1 - 0)] is 1.  And the stored weight is not the convex
    combination, not even approximately: for [alpha = 0.5], the weight
    [-2^1023] and the sample [2^1023], with [bmu = 0] and [R = 0], the
    difference [x - w] overflows and the update stores [+INFINITY], while
    [(1 - alpha) * w + alpha * x] is 0. *)
Lemma C3_counterexample :
  (in_window 1 0 INT_MAX 0 ∧
   update_neighborhood [1%float] [[0%float]] 1 1 1%float 0 INT_MAX
     = Some [[0%float]] ∧
   ((0 + 1 * (1 - 0)) =? 0)%float = false) ∧
  (let alpha := 0x1p-1%float in
   let w := (-0x1p+1023)%float in
   let x := 0x1p+1023%float in
   in_window 1 0 0 0 ∧ 0 + 0 + 1 <= INT_MAX ∧
   (0 <? alpha)%float = true ∧ (alpha <=? 1)%float = true ∧
   update_neighborhood [x] [[w]] 1 1 alpha 0 0 = Some [[infinity]] ∧
   (w + alpha * (x - w) =? infinity)%float = true ∧
   ((1 - alpha) * w + alpha * x =? 0)%float = true).
Proof.
  split; [split; [|split]; by vm_compute|].
  cbv zeta. split; [by vm_compute|]. split; [by vm_compute|].
  split; [by vm_compute|]. split; [by vm_compute|].
  split; [by vm_compute|]. split; by vm_compute.
Qed.

(** C7 fails in double arithmetic, twice.  For [alpha = 0.5], the row
    [[1]] and the sample [[1 + 2^-52]] the update rounds back to the row
    itself: the row differs from the sample, is unchanged, and its
    distance is not less than before.  And for the row [[INFINITY]] and
    the sample [[0]] the update stores a NaN, whose distance from the
    sample is a NaN and compares neither less than nor equal to the
    distance before. *)
Lemma C7_counterexample :
  let alpha := 0x1p-1%float in
  (0 <? alpha)%float = true ∧ (alpha <? 1)%float = true ∧
  (let w := [1%float] in
   let x := [0x1.0000000000001p+0%float] in
   w ≠ x ∧
   update_neighborhood x [w] 1 1 alpha 0 0 = Some [w] ∧
   pull alpha x w = w ∧
   (sq_dist (pull alpha x w) x <? sq_dist w x)%float = false) ∧
  (let w := [infinity] in
   let x := [0%float] in
   w ≠ x ∧
   update_neighborhood x [w] 1 1 alpha 0 0 = Some [[nan]] ∧
   pull alpha x w = [nan] ∧
   (sq_dist (pull alpha x w) x <? sq_dist w x)%float = false ∧
   (sq_dist (pull alpha x w) x <=? sq_dist w x)%float = false).
Proof.
  cbv zeta. split; [by vm_compute|]. split; [by vm_compute|]. split.
  - split; [by intros [=]|]. split; [by vm_compute|]. split; by vm_compute.
  - split; [by intros [=]|]. split; [by vm_compute|].
    split; [by vm_compute|]. split; by vm_compute.
Qed.

(** The radius on a run of 12 nodes over two samples: 3 at the start, 2
    when iteration 10 begins, 1 when it ends. *)
Lemma radius_decrement_at_10 :
  let X := [[1%float]; [0.5%float]] in
  let W := [[0]; [0]; [0]; [0]; [0]; [0]; [0]; [0]; [0]; [0]; [0]; [0]]%float in
  let D0 := [0; 0; 0; 0; 0; 0; 0; 0; 0; 0; 0; 0]%float in
  st_R (tracer_init 12 W D0) = 3 ∧
  (st_R <$> after_passes X 2 1 12 alpha_min_test1 (λ _ _, 0) 10
              (tracer_init 12 W D0)) = Some 2 ∧
  (st_iter <$> after_passes X 2 1 12 alpha_min_test1 (λ _ _, 0) 10
                 (tracer_init 12 W D0)) = Some 10 ∧
  (st_R <$> after_passes X 2 1 12 alpha_min_test1 (λ _ _, 0) 11
              (tracer_init 12 W D0)) = Some 1.
Proof. cbv zeta. repeat split; by vm_compute. Qed.
(** ** [save_2d_data] *)

Lemma join_with_snoc {A} (sep : list A) (l : list (list A)) (x : list A) :
  join_with sep (l ++ [x])
  = join_with sep l ++ (if l is [] then [] else sep) ++ x.
Proof.
  induction l as [|y l IH]; [done|].
  destruct l as [|z l]; [done|].
  change (join_with sep ((y :: z :: l) ++ [x]))
    with (y ++ sep ++ join_with sep ((z :: l) ++ [x])).
  rewrite IH.
  change (join_with sep (y :: z :: l))
    with (y ++ sep ++ join_with sep (z :: l)).
  by rewrite <- !app_assoc.
Qed.

(** A loop that appends one text per round, and a separator after every
    text but the last, appends the texts joined by the separator. *)
Lemma for_range_join {A} (body : Z → list A → option (list A))
    (sep : list A) (cs : list (list A)) (n : Z) (out0 : list A) :
  Z.of_nat (length cs) = n → n <= INT_MAX →
  (∀ (j : nat) (c out : list A), cs !! j = Some c →
     body (Z.of_nat j) out
     = Some (out ++ c ++ (if Z.of_nat j <? int_sub n 1 then sep else []))) →
  for_range 0 n body out0 = Some (out0 ++ join_with sep cs).
Proof.
  intros Hlen Hmax Hbody.
  destruct (for_range_inv
    (λ j out, out = out0 ++ join_with sep (take (Z.to_nat j) cs)
                    ++ (if (0 <? j) && (j <? n) then sep else []))
    body 0 n out0) as (out & Hres & ->); [lia| | |].
  - simpl. by rewrite !app_nil_r.
  - intros j out Hj ->.
    destruct (lookup_lt_is_Some_2 cs (Z.to_nat j)) as [c Hc]; [lia|].
    pose proof (Hbody (Z.to_nat j) c) as Hb. rewrite Z2Nat.id in Hb by lia.
    rewrite Hb by done. eexists. split; [done|].
    replace (Z.to_nat (j + 1)) with (Datatypes.S (Z.to_nat j)) by lia.
    rewrite (take_S_r _ _ c Hc), join_with_snoc.
    assert (int_sub n 1 = n - 1) as ->.
    { apply wrap_small. unfold int_range, INT_MIN, INT_MAX in *. lia. }
    rewrite <- !app_assoc. do 2 f_equal.
    destruct (Z.ltb_spec 0 j), (Z.ltb_spec j n), (Z.ltb_spec 0 (j + 1)),
      (Z.ltb_spec (j + 1) n), (Z.ltb_spec j (n - 1)); try lia; simpl;
      destruct (take (Z.to_nat j) cs) eqn:Ht;
      try done;
      try (apply (f_equal length) in Ht; rewrite length_take in Ht;
           simpl in Ht; lia);
      by rewrite ?app_nil_r.
  - rewrite Hres. do 2 f_equal.
    rewrite take_ge by lia.
    destruct (Z.ltb_spec n n); [lia|]. by rewrite andb_false_r, app_nil_r.
Qed.

Section SaveProofs.
Context {T : Type}.
Variable fmt : T → list ascii.

Lemma save_row_spec (X : list (list T)) (num_points num_features : Z)
    (i : nat) (row : list T) (out : list ascii) :
  X !! i = Some row → vector row num_features → num_features <= INT_MAX →
  save_row fmt X num_points num_features (Z.of_nat i) out
  = Some (out ++ join_with [comma] (fmt <$> row)
              ++ (if Z.of_nat i <? int_sub num_points 1
                  then [newline] else [])).
Proof.
  intros Hrow Hlen Hmax. unfold save_row.
  rewrite (for_range_join _ [comma] (fmt <$> row) num_features out).
  - simpl. by rewrite <- app_assoc.
  - by rewrite length_fmap.
  - done.
  - intros j c out' Hc. unfold save_cell.
    rewrite rd_of_nat, Hrow. simpl. rewrite rd_of_nat.
    rewrite list_lookup_fmap in Hc.
    destruct (row !! j) as [x|]; [|done]. injection Hc as <-. done.
Qed.

(** The text [save_2d_data] writes: the formatted cells as
    comma-separated values. *)
Lemma save_text_spec (X : list (list T)) (num_points num_features : Z) :
  matrix X num_points num_features →
  num_points <= INT_MAX → num_features <= INT_MAX →
  save_text fmt X num_points num_features = Some (csv (format_cells fmt X)).
Proof.
  intros HX Hp Hf. unfold save_text, csv, format_cells.
  rewrite (for_range_join _ [newline]
             (join_with [comma] <$> ((λ row : list T, fmt <$> row) <$> X))
             num_points []).
  - done.
  - rewrite !length_fmap. by destruct HX.
  - done.
  - intros i c out Hc. rewrite !list_lookup_fmap in Hc.
    destruct (X !! i) as [row|] eqn:Hrow; [|done]. injection Hc as <-.
    apply save_row_spec; [done| |done]. by eapply matrix_row.
Qed.
End SaveProofs.

(** X7: on a matrix of the declared shape [save_2d_data] replaces the
    file of the given name by the cells of the matrix, each formatted,
    joined by commas within a row and by newlines between the rows, with no
    newline after the last row; every other file is left as it is. *)
Theorem X7_save_2d_data_writes_csv {T} (fmt : T → list ascii)
    (fs : gmap string (list ascii)) (fname : string) (X : list (list T))
    (num_points num_features : Z) :
  matrix X num_points num_features →
  num_points <= INT_MAX → num_features <= INT_MAX →
  ∃ fs', save_2d_data fmt fs fname X num_points num_features = Some fs' ∧
         fs' !! fname = Some (csv (format_cells fmt X)) ∧
         ∀ other : string, other ≠ fname → fs' !! other = fs !! other.
Proof.
  intros HX Hp Hf. unfold save_2d_data.
  rewrite (save_text_spec fmt X num_points num_features HX Hp Hf). simpl.
  eexists. split; [done|]. split; [by rewrite lookup_insert_eq|].
  intros other Hne. by rewrite lookup_insert_ne.
Qed.

Lemma split_at_clean (c : ascii) (s : list ascii) :
  c ∉ s → split_at c s = [s].
Proof.
  induction s as [|a s IH]; [done|]. intros [Hne Hs]%not_elem_of_cons.
  simpl. destruct (decide (a = c)) as [->|_]; [done|]. by rewrite IH.
Qed.

Lemma split_at_app (c : ascii) (s t : list ascii) :
  c ∉ s → split_at c (s ++ c :: t) = s :: split_at c t.
Proof.
  induction s as [|a s IH]; intros Hs; simpl.
  - by destruct (decide (c = c)).
  - apply not_elem_of_cons in Hs as [Hne Hs].
    destruct (decide (a = c)) as [->|_]; [done|]. by rewrite IH.
Qed.

(** Splitting undoes joining, when no text holds the separator and there
    is at least one text. *)
Lemma split_at_join (c : ascii) (l : list (list ascii)) :
  l ≠ [] → Forall (λ s, c ∉ s) l → split_at c (join_with [c] l) = l.
Proof.
  induction l as [|x l IH]; [done|]. intros _ [Hx Hl]%Forall_cons.
  destruct l as [|y l]; [by apply split_at_clean|].
  change (join_with [c] (x :: y :: l))
    with (x ++ c :: join_with [c] (y :: l)).
  rewrite split_at_app by done. f_equal. by apply IH.
Qed.

Lemma join_with_clean (c d : ascii) (l : list (list ascii)) :
  c ≠ d → Forall (λ s, c ∉ s) l → c ∉ join_with [d] l.
Proof.
  intros Hcd. induction l as [|x l IH]; intros Hl.
  - apply not_elem_of_nil.
  - apply Forall_cons in Hl as [Hx Hl]. destruct l as [|y l]; [done|].
    change (join_with [d] (x :: y :: l))
      with (x ++ d :: join_with [d] (y :: l)).
    rewrite elem_of_app, elem_of_cons. intros [?|[?|?]]; [done|done|].
    by apply IH.
Qed.

Lemma parse_csv_csv (cells : list (list (list ascii))) :
  cells ≠ [] →
  Forall (λ row, row ≠ [] ∧ Forall (λ s, (comma ∉ s) ∧ (newline ∉ s)) row)
    cells →
  parse_csv (csv cells) = cells.
Proof.
  intros Hne Hcells. unfold parse_csv, csv.
  rewrite split_at_join.
  - rewrite <- list_fmap_compose. rewrite <- (list_fmap_id cells) at 2.
    apply Forall_fmap_ext_1. eapply Forall_impl; [done|].
    intros row [Hrow Hs]. simpl. apply split_at_join; [done|].
    eapply Forall_impl; [done|]. by intros s [? ?].
  - by destruct cells.
  - apply Forall_fmap. eapply Forall_impl; [done|].
    intros row [_ Hs]. simpl. apply join_with_clean; [done|].
    eapply Forall_impl; [done|]. by intros s [? ?].
Qed.

(** X8: the file [save_2d_data] writes can be read back: when the matrix
    has at least one row and one column and no formatted cell holds a comma
    or a newline, splitting the text at the newlines and every line at the
    commas gives the formatted cells of the matrix, row by row. *)
Theorem X8_save_2d_data_reads_back {T} (fmt : T → list ascii)
    (fs : gmap string (list ascii)) (fname : string) (X : list (list T))
    (num_points num_features : Z) :
  matrix X num_points num_features →
  1 <= num_points <= INT_MAX → 1 <= num_features <= INT_MAX →
  (∀ x : T, (comma ∉ fmt x) ∧ (newline ∉ fmt x)) →
  ∃ fs' text,
    save_2d_data fmt fs fname X num_points num_features = Some fs' ∧
    fs' !! fname = Some text ∧
    parse_csv text = format_cells fmt X.
Proof.
  intros HX Hp Hf Hfmt. unfold save_2d_data.
  rewrite (save_text_spec fmt X num_points num_features HX) by lia. simpl.
  eexists _, _. split; [done|]. split; [by rewrite lookup_insert_eq|].
  apply parse_csv_csv.
  - destruct HX as [HX _]. destruct X; [simpl in HX; lia|done].
  - unfold format_cells. apply Forall_fmap, Forall_forall. intros row Hrow.
    simpl. split.
    + destruct HX as [_ HX]. rewrite Forall_forall in HX.
      specialize (HX row Hrow). unfold vector in HX.
      destruct row; [simpl in HX; lia|done].
    + apply Forall_fmap, Forall_forall. intros x _. apply Hfmt.
Qed.

Lemma join_with_empty_rows {A} (sep : A) (n : nat) :
  join_with [sep] (replicate n []) = replicate (pred n) sep.
Proof.
  induction n as [|n IH]; [done|]. destruct n as [|n]; [done|].
  change (join_with [sep] (replicate (Datatypes.S (Datatypes.S n)) []))
    with (sep :: join_with [sep] (replicate (Datatypes.S n) [])).
  by rewrite IH.
Qed.

(** X9: with [num_points <= 0] the file is replaced by an empty one and the
    matrix is not read; with [num_features <= 0] the matrix is not read
    either and the file holds [num_points - 1] newlines. *)
Theorem X9_save_2d_data_degenerate {T} (fmt : T → list ascii)
    (fs : gmap string (list ascii)) (fname : string) (X : list (list T))
    (num_points num_features : Z) :
  num_points <= INT_MAX →
  num_points <= 0 ∨ num_features <= 0 →
  save_2d_data fmt fs fname X num_points num_features
  = Some (<[fname := replicate (Z.to_nat (num_points - 1)) newline]> fs).
Proof.
  intros Hmax Hdeg. unfold save_2d_data, save_text.
  destruct (decide (num_points <= 0)) as [Hp|Hp].
  { rewrite for_range_empty by lia. simpl.
    by replace (Z.to_nat (num_points - 1)) with O by lia. }
  destruct Hdeg as [?|Hf]; [lia|].
  rewrite (for_range_join _ [newline]
             (replicate (Z.to_nat num_points) []) num_points []).
  - simpl. rewrite join_with_empty_rows. do 3 f_equal. lia.
  - rewrite length_replicate. lia.
  - done.
  - intros i c out [-> _]%lookup_replicate. unfold save_row.
    by rewrite for_range_empty by lia.
Qed.

(** ** The data sets *)

Lemma wr2_spec {A} (a : list (list A)) (i j : nat) (row : list A) (v : A) :
  a !! i = Some row → (j < length row)%nat →
  wr2 a (Z.of_nat i) (Z.of_nat j) v = Some (<[i := <[j := v]> row]> a).
Proof.
  intros Hrow Hj. unfold wr2. rewrite rd_of_nat, Hrow. simpl.
  rewrite wr_of_nat by done. simpl.
  apply wr_of_nat. by eapply lookup_lt_Some.
Qed.

(** A loop that rewrites the entries 0 and 1 of one row per round, from
    the calls of [rand()] made so far, of which every round makes [d]. *)
Lemma point_loop (body : Z → list (list float) * nat
                         → option (list (list float) * nat))
    (f0 f1 : nat → float) (d : nat) (data : list (list float)) (N : Z)
    (calls : nat) :
  N <= Z.of_nat (length data) →
  (∀ (i : nat) (row : list float), Z.of_nat i < N → data !! i = Some row →
     (2 <= length row)%nat) →
  (∀ i s, body i s
          = (data1 ← wr2 s.1 i 0 (f0 s.2);
             data2 ← wr2 data1 i 1 (f1 s.2);
             Some (data2, (d + s.2)%nat))) →
  ∃ data',
    for_range 0 N body (data, calls)
      = Some (data', (calls + d * Z.to_nat N)%nat) ∧
    length data' = length data ∧
    ∀ i : nat,
      data' !! i =
        if decide (Z.of_nat i < N)
        then (λ row, <[1%nat := f1 (calls + d * i)%nat]>
                       (<[0%nat := f0 (calls + d * i)%nat]> row))
             <$> data !! i
        else data !! i.
Proof.
  intros HN Hrows Hbody.
  destruct (decide (0 <= N)) as [Hpos|Hneg].
  2:{ rewrite for_range_empty by lia. exists data.
      replace (Z.to_nat N) with O by lia. rewrite Nat.mul_0_r, Nat.add_0_r.
      split; [done|]. split; [done|]. intros i.
      by destruct (decide _); [lia|]. }
  destruct (for_range_inv
    (λ n (s : list (list float) * nat),
       s.2 = (calls + d * Z.to_nat n)%nat ∧ length s.1 = length data ∧
       ∀ i : nat,
         s.1 !! i =
           if decide (Z.of_nat i < n)
           then (λ row, <[1%nat := f1 (calls + d * i)%nat]>
                          (<[0%nat := f0 (calls + d * i)%nat]> row))
                <$> data !! i
           else data !! i)
    body 0 N (data, calls)) as ([data' c'] & Hres & Hc & Hlen & Hget);
    [done| | |].
  - simpl. split; [lia|]. split; [done|]. intros i.
    by destruct (decide _); [lia|].
  - intros n [data1 c1] Hn (Hc & Hlen & Hget). simpl in *. subst c1.
    destruct (lookup_lt_is_Some_2 data (Z.to_nat n)) as [row Hrow]; [lia|].
    pose proof (Hrows (Z.to_nat n) row ltac:(lia) Hrow) as Hrow2.
    assert (data1 !! Z.to_nat n = Some row) as Hrow1.
    { rewrite Hget. by destruct (decide _); [lia|]. }
    rewrite Hbody. cbn [fst snd].
    pose proof (wr2_spec data1 (Z.to_nat n) 0 row
                  (f0 (calls + d * Z.to_nat n)%nat) Hrow1 ltac:(lia)) as Hw0.
    rewrite Z2Nat.id in Hw0 by lia. change (Z.of_nat 0) with 0 in Hw0.
    rewrite Hw0. cbn [mbind option_bind].
    match goal with |- context [wr2 ?a n 1 ?v] =>
      pose proof (wr2_spec a (Z.to_nat n) 1
                    (<[0%nat := f0 (calls + d * Z.to_nat n)%nat]> row) v)
        as Hw1 end.
    rewrite Z2Nat.id in Hw1 by lia. change (Z.of_nat 1) with 1 in Hw1.
    rewrite Hw1.
    2:{ apply list_lookup_insert_eq. apply lookup_lt_Some in Hrow1. lia. }
    2:{ rewrite length_insert. lia. }
    cbn [mbind option_bind]. eexists. split; [done|]. cbn [fst snd].
    split; [lia|]. split; [by rewrite !length_insert|].
    intros i. rewrite list_insert_insert_eq.
    destruct (decide (i = Z.to_nat n)) as [->|Hne].
    + rewrite list_lookup_insert_eq by (apply lookup_lt_Some in Hrow1; lia).
      destruct (decide _); [|lia]. by rewrite Hrow.
    + rewrite list_lookup_insert_ne by done. rewrite Hget.
      destruct (decide _), (decide _); (done || lia).
  - simpl in *. subst c'. exists data'. by rewrite Hres.
Qed.

(** Every value [_random] returns for a non-negative [rand()] is one of
    the hundred values it returns for 0, ..., 99. *)
Lemma _random_cases (a b : float) (r : Z) (P : float → bool) :
  0 <= r →
  forallb (λ k, P (_random a b (Z.of_nat k))) (seq 0 100) = true →
  P (_random a b r) = true.
Proof.
  intros Hr Hall. rewrite forallb_forall in Hall.
  specialize (Hall (Z.to_nat (Z.rem r 100))).
  unfold _random, int_rem in *.
  pose proof (Z.rem_bound_pos r 100 Hr ltac:(lia)) as Hb.
  rewrite Z2Nat.id in Hall by lia.
  rewrite Z.rem_rem in Hall by lia. apply Hall, in_seq. lia.
Qed.

(** X10: on a matrix with at least [N] rows of at least two entries
    [test_circle] makes exactly [2 N] calls of [rand()] and rewrites the
    entries 0 and 1 of the rows [0, ..., N - 1] to
    [(r cos theta, r sin theta)], with [r] and [theta] drawn by the two
    calls of the row; every other entry and row is kept.  When [rand()] is
    not negative every radius [r] is at least [0.75 - 0.3] and below
    [0.75 + 0.3]. *)
Theorem X10_test_circle_points (cos sin : float → float) (M_PI : float)
    (rand : nat → Z) (data : list (list float)) (N : Z) (calls : nat) :
  N <= Z.of_nat (length data) →
  (∀ (i : nat) (row : list float), Z.of_nat i < N → data !! i = Some row →
     (2 <= length row)%nat) →
  ∃ data',
    test_circle cos sin M_PI rand data N calls
      = Some (data', (calls + 2 * Z.to_nat N)%nat) ∧
    length data' = length data ∧
    (∀ i : nat,
       data' !! i = if decide (Z.of_nat i < N)
                    then circle_row cos sin M_PI rand calls i <$> data !! i
                    else data !! i) ∧
    ((∀ n, 0 <= rand n) →
     ∀ i : nat,
       (0.75 - 0x1.3333333333333p-2 <=? circle_radius rand calls i)%float
         = true ∧
       (circle_radius rand calls i <? 0.75 + 0x1.3333333333333p-2)%float
         = true).
Proof.
  intros HN Hrows. unfold test_circle.
  destruct (point_loop
    (test_circle_point cos sin rand 0 (2 * M_PI)
       (0.75 - 0x1.3333333333333p-2) (0.75 + 0x1.3333333333333p-2))
    (λ c, (_random (0.75 - 0x1.3333333333333p-2)
             (0.75 + 0x1.3333333333333p-2) (rand c)
           * cos (_random 0 (2 * M_PI) (rand (Datatypes.S c))))%float)
    (λ c, (_random (0.75 - 0x1.3333333333333p-2)
             (0.75 + 0x1.3333333333333p-2) (rand c)
           * sin (_random 0 (2 * M_PI) (rand (Datatypes.S c))))%float)
    2%nat data N calls HN Hrows) as (data' & Hres & Hlen & Hget); [done|].
  exists data'. split; [done|]. split; [done|]. split.
  - intros i. rewrite Hget. destruct (decide _); [|done].
    unfold circle_row, circle_radius, circle_angle.
    by replace (calls + 2 * i + 1)%nat with (Datatypes.S (calls + 2 * i))
      by lia.
  - intros Hrand i. unfold circle_radius. split.
    + by apply (_random_cases _ _ _
                  (λ r, (0.75 - 0x1.3333333333333p-2 <=? r)%float)).
    + by apply (_random_cases _ _ _
                  (λ r, (r <? 0.75 + 0x1.3333333333333p-2)%float)).
Qed.

(** X11: on a matrix with at least [N] rows of at least two entries
    [test_lamniscate] makes exactly [3 N] calls of [rand()] and rewrites
    the entries 0 and 1 of the rows [0, ..., N - 1] to
    [(dx + cos theta, dy + sin (2 theta) / 2)], with [dx], [dy] and [theta]
    drawn by the three calls of the row; every other entry and row is
    kept.  When [rand()] is not negative the offsets [dx] and [dy] are at
    least [-0.2] and below [0.2]. *)
Theorem X11_test_lamniscate_points (cos sin : float → float) (M_PI : float)
    (rand : nat → Z) (data : list (list float)) (N : Z) (calls : nat) :
  N <= Z.of_nat (length data) →
  (∀ (i : nat) (row : list float), Z.of_nat i < N → data !! i = Some row →
     (2 <= length row)%nat) →
  ∃ data',
    test_lamniscate cos sin M_PI rand data N calls
      = Some (data', (calls + 3 * Z.to_nat N)%nat) ∧
    length data' = length data ∧
    (∀ i : nat,
       data' !! i = if decide (Z.of_nat i < N)
                    then lamniscate_row cos sin M_PI rand calls i
                         <$> data !! i
                    else data !! i) ∧
    ((∀ n, 0 <= rand n) →
     ∀ i : nat,
       (- 0x1.999999999999ap-3 <=? lamniscate_dx rand calls i)%float = true ∧
       (lamniscate_dx rand calls i <? 0x1.999999999999ap-3)%float = true ∧
       (- 0x1.999999999999ap-3 <=? lamniscate_dy rand calls i)%float = true ∧
       (lamniscate_dy rand calls i <? 0x1.999999999999ap-3)%float = true).
Proof.
  intros HN Hrows. unfold test_lamniscate.
  destruct (point_loop
    (test_lamniscate_point cos sin M_PI rand 0x1.999999999999ap-3)
    (λ c, (_random (- 0x1.999999999999ap-3) 0x1.999999999999ap-3 (rand c)
           + cos (_random 0 M_PI
                    (rand (Datatypes.S (Datatypes.S c)))))%float)
    (λ c, (_random (- 0x1.999999999999ap-3) 0x1.999999999999ap-3
             (rand (Datatypes.S c))
           + sin (2 * _random 0 M_PI
                        (rand (Datatypes.S (Datatypes.S c)))) / 2)%float)
    3%nat data N calls HN Hrows) as (data' & Hres & Hlen & Hget); [done|].
  exists data'. split; [done|]. split; [done|]. split.
  - intros i. rewrite Hget. destruct (decide _); [|done].
    unfold lamniscate_row, lamniscate_dx, lamniscate_dy, lamniscate_angle.
    replace (calls + 3 * i + 1)%nat with (Datatypes.S (calls + 3 * i)) by lia.
    by replace (calls + 3 * i + 2)%nat
      with (Datatypes.S (Datatypes.S (calls + 3 * i))) by lia.
  - intros Hrand i. unfold lamniscate_dx, lamniscate_dy.
    split; [|split; [|split]].
    + by apply (_random_cases _ _ _
                  (λ r, (- 0x1.999999999999ap-3 <=? r)%float)).
    + by apply (_random_cases _ _ _
                  (λ r, (r <? 0x1.999999999999ap-3)%float)).
    + by apply (_random_cases _ _ _
                  (λ r, (- 0x1.999999999999ap-3 <=? r)%float)).
    + by apply (_random_cases _ _ _
                  (λ r, (r <? 0x1.999999999999ap-3)%float)).
Qed.

(** ** The test runs *)

Section TestProofs.
Variables (cos sin : float → float) (M_PI : float).
Variable rand : nat → Z.
Variable fmt : float → list ascii.

Lemma fill_row_spec (W : list (list float)) (i : nat) (row : list float)
    (features : Z) (c : nat) :
  W !! i = Some row → vector row features →
  for_range 0 features (init_weight rand (Z.of_nat i)) (W, c)
  = Some (<[i := (λ j, _random (-1) 1 (rand (c + j)%nat))
                   <$> seq 0 (Z.to_nat features)]> W,
          (c + Z.to_nat features)%nat).
Proof.
  intros HW Hrow. unfold vector in Hrow.
  assert (Hi : (i < length W)%nat) by by eapply lookup_lt_Some.
  destruct (for_range_inv
    (λ j (s : list (list float) * nat),
       s.2 = (c + Z.to_nat j)%nat ∧
       ∃ r, s.1 = <[i := r]> W ∧ length r = length row ∧
         ∀ k : nat, r !! k = if decide (Z.of_nat k < j)
                             then Some (_random (-1) 1 (rand (c + k)%nat))
                             else row !! k)
    (init_weight rand (Z.of_nat i)) 0 features (W, c))
    as ([W' c'] & Hres & Hc & r & HW' & Hlen & Hget); [lia| | |].
  - simpl. split; [lia|]. exists row. split; [by rewrite list_insert_id|].
    split; [done|]. intros k. by destruct (decide _); [lia|].
  - intros j [W1 c1] Hj (Hc & r & HW1 & Hlen & Hget). simpl in *. subst.
    unfold init_weight. cbn [fst snd].
    pose proof (wr2_spec (<[i := r]> W) i (Z.to_nat j) r
                  (_random (-1) 1 (rand (c + Z.to_nat j)%nat))) as Hw.
    rewrite Z2Nat.id in Hw by lia. rewrite Hw.
    2:{ by apply list_lookup_insert_eq. }
    2:{ lia. }
    cbn [mbind option_bind]. eexists. split; [done|]. cbn [fst snd].
    split; [lia|]. eexists. split; [by rewrite list_insert_insert_eq|].
    split; [by rewrite length_insert|]. intros k.
    destruct (decide (k = Z.to_nat j)) as [->|Hne].
    + rewrite list_lookup_insert_eq by lia. by destruct (decide _); [|lia].
    + rewrite list_lookup_insert_ne by done. rewrite Hget.
      destruct (decide _), (decide _); (done || lia).
  - simpl in *. subst. rewrite Hres. do 3 f_equal.
    apply list_eq. intros k. rewrite Hget, list_lookup_fmap.
    destruct (decide _) as [Hk|Hk].
    + by rewrite lookup_seq_lt by lia.
    + rewrite lookup_seq_ge by lia. apply lookup_ge_None_2. lia.
Qed.

Lemma malloc_doubles_vector (stale : nat → float) (n : Z) :
  0 <= n → vector (malloc_doubles stale n) n.
Proof.
  intros Hn. unfold vector, malloc_doubles.
  rewrite length_fmap, length_seq. lia.
Qed.

(** The allocation loop: [X] gets [N] rows and [W] gets [num_out] rows of
    [features] doubles; the rows of [X] hold what [malloc] handed out, the
    rows of [W] the random weights, drawn row by row. *)
Lemma alloc_loop_spec (u : indeterminate) (N features num_out : Z)
    (calls : nat) :
  0 <= N → 0 <= features → 0 <= num_out →
  alloc_loop rand u N features num_out calls
  = Some ((λ i, malloc_doubles (stale_X u (Z.of_nat i)) features)
            <$> seq 0 (Z.to_nat N),
          initial_weights rand calls features num_out,
          (calls + Z.to_nat features * Z.to_nat num_out)%nat).
Proof.
  intros HN Hf Hout. unfold alloc_loop.
  set (M := if num_out >? N then num_out else N).
  assert (N <= M ∧ num_out <= M) as [HNM HoM].
  { unfold M. destruct (Z.gtb_spec num_out N); lia. }
  destruct (for_range_inv
    (λ i (s : list (list float) * list (list float) * nat),
       s.2 = (calls + Z.to_nat features * Z.to_nat (Z.min i num_out))%nat ∧
       length s.1.1 = Z.to_nat N ∧ length s.1.2 = Z.to_nat num_out ∧
       (∀ k : nat, (k < Z.to_nat N)%nat →
          s.1.1 !! k = Some (if decide (Z.of_nat k < i)
                             then malloc_doubles (stale_X u (Z.of_nat k))
                                    features
                             else [])) ∧
       (∀ k : nat, (k < Z.to_nat num_out)%nat →
          s.1.2 !! k = Some (if decide (Z.of_nat k < i)
                             then initial_row rand calls features k
                             else [])))
    (alloc_step rand u N features num_out) 0 M
    (replicate (Z.to_nat N) [], replicate (Z.to_nat num_out) [], calls))
    as ([[X W] c] & Hres & Hc & HlX & HlW & HX & HW); [lia| | |].
  - simpl. split; [lia|]. rewrite !length_replicate.
    split; [done|]. split; [done|].
    split; intros k Hk; (destruct (decide _); [lia|]);
      by apply lookup_replicate_2.
  - intros i [[X W] c] Hi (Hc & HlX & HlW & HX & HW). simpl in *. subst c.
    unfold alloc_step. cbn [fst snd].
    assert (∃ X', (if i <? N
                   then wr X i (malloc_doubles (stale_X u i) features)
                   else Some X) = Some X' ∧
                  length X' = Z.to_nat N ∧
                  ∀ k : nat, (k < Z.to_nat N)%nat →
                    X' !! k = Some (if decide (Z.of_nat k < i + 1)
                                    then malloc_doubles
                                           (stale_X u (Z.of_nat k)) features
                                    else [])) as (X' & -> & HlX' & HX').
    { destruct (Z.ltb_spec i N) as [HiN|HiN].
      - pose proof (wr_of_nat X (Z.to_nat i)
                      (malloc_doubles (stale_X u i) features)) as Hw.
        rewrite Z2Nat.id in Hw by lia. rewrite Hw by lia.
        eexists. split; [done|]. split; [by rewrite length_insert|].
        intros k Hk. destruct (decide (k = Z.to_nat i)) as [->|Hne].
        + rewrite list_lookup_insert_eq by lia.
          destruct (decide _); [|lia]. by rewrite Z2Nat.id by lia.
        + rewrite list_lookup_insert_ne by done. rewrite HX by done.
          destruct (decide _), (decide _); (done || lia).
      - exists X. split; [done|]. split; [done|]. intros k Hk.
        rewrite HX by done. destruct (decide _), (decide _); (done || lia). }
    cbn [mbind option_bind].
    destruct (Z.ltb_spec i num_out) as [Hio|Hio].
    + pose proof (wr_of_nat W (Z.to_nat i)
                    (malloc_doubles (stale_W u i) features)) as Hw.
      rewrite Z2Nat.id in Hw by lia. rewrite Hw by lia.
      cbn [mbind option_bind].
      pose proof (fill_row_spec
                    (<[Z.to_nat i := malloc_doubles (stale_W u i) features]> W)
                    (Z.to_nat i) (malloc_doubles (stale_W u i) features)
                    features
                    (calls + Z.to_nat features * Z.to_nat (Z.min i num_out)))
        as Hfill.
      rewrite Z2Nat.id in Hfill by lia. rewrite Hfill.
      2:{ apply list_lookup_insert_eq. lia. }
      2:{ by apply malloc_doubles_vector. }
      cbn [mbind option_bind fst snd]. eexists. split; [done|]. cbn [fst snd].
      split; [|split; [done|split; [by rewrite !length_insert|split; [done|]]]].
      { replace (Z.min i num_out) with i by lia.
        replace (Z.min (i + 1) num_out) with (i + 1) by lia.
        replace (Z.to_nat (i + 1)) with (Datatypes.S (Z.to_nat i)) by lia.
        lia. }
      intros k Hk. rewrite list_insert_insert_eq.
      destruct (decide (k = Z.to_nat i)) as [->|Hne].
      * rewrite list_lookup_insert_eq by lia.
        destruct (decide _); [|lia]. unfold initial_row.
        by replace (Z.min i num_out) with i by lia.
      * rewrite list_lookup_insert_ne by done. rewrite HW by done.
        destruct (decide _), (decide _); (done || lia).
    + eexists. split; [done|]. cbn [fst snd].
      split; [|split; [done|split; [done|split; [done|]]]].
      { by replace (Z.min i num_out) with (Z.min (i + 1) num_out) by lia. }
      intros k Hk. rewrite HW by done.
      destruct (decide _), (decide _); (done || lia).
  - simpl in *. subst c. rewrite Hres. f_equal. f_equal; [f_equal|].
    + apply list_eq. intros k. rewrite list_lookup_fmap.
      destruct (decide (k < Z.to_nat N)%nat) as [Hk|Hk].
      * rewrite HX by done. rewrite lookup_seq_lt by done.
        by destruct (decide _); [|lia].
      * rewrite lookup_seq_ge by lia. apply lookup_ge_None_2. lia.
    + apply list_eq. intros k. unfold initial_weights.
      rewrite list_lookup_fmap.
      destruct (decide (k < Z.to_nat num_out)%nat) as [Hk|Hk].
      * rewrite HW by done. rewrite lookup_seq_lt by done.
        by destruct (decide _); [|lia].
      * rewrite lookup_seq_ge by lia. apply lookup_ge_None_2. lia.
    + by replace (Z.min M num_out) with num_out by lia.
Qed.

Lemma malloc_rows_matrix (stale : Z → nat → float) (n : nat) (features : Z) :
  0 <= features →
  matrix ((λ i, malloc_doubles (stale (Z.of_nat i)) features) <$> seq 0 n)
    (Z.of_nat n) features.
Proof.
  intros Hf. split; [by rewrite length_fmap, length_seq|].
  apply Forall_fmap, Forall_forall. intros i _. simpl.
  by apply malloc_doubles_vector.
Qed.

Lemma initial_weights_matrix (calls : nat) (features num_out : Z) :
  0 <= features → 0 <= num_out →
  matrix (initial_weights rand calls features num_out) num_out features.
Proof.
  intros Hf Hout. unfold initial_weights. split.
  - rewrite length_fmap, length_seq. lia.
  - apply Forall_fmap, Forall_forall. intros i _. simpl.
    unfold vector, initial_row. rewrite length_fmap, length_seq. lia.
Qed.

(** A data set of two columns is overwritten as a whole: nothing of what
    [malloc] handed out is left in it. *)
Lemma points_table (body : Z → list (list float) * nat
                           → option (list (list float) * nat))
    (f0 f1 : nat → float) (d : nat) (stale : Z → nat → float) (n calls : nat) :
  (∀ i s, body i s
          = (data1 ← wr2 s.1 i 0 (f0 s.2);
             data2 ← wr2 data1 i 1 (f1 s.2);
             Some (data2, (d + s.2)%nat))) →
  for_range 0 (Z.of_nat n) body
    ((λ i, malloc_doubles (stale (Z.of_nat i)) 2) <$> seq 0 n, calls)
  = Some ((λ i, [f0 (calls + d * i)%nat; f1 (calls + d * i)%nat])
            <$> seq 0 n,
          (calls + d * n)%nat).
Proof.
  intros Hbody.
  destruct (point_loop body f0 f1 d
              ((λ i, malloc_doubles (stale (Z.of_nat i)) 2) <$> seq 0 n)
              (Z.of_nat n) calls) as (data' & Hres & Hlen & Hget).
  - rewrite length_fmap, length_seq. lia.
  - intros i row _ Hrow. rewrite list_lookup_fmap in Hrow.
    destruct (seq 0 n !! i); [|done]. by injection Hrow as <-.
  - done.
  - rewrite Hres, Nat2Z.id. do 2 f_equal. apply list_eq. intros i.
    rewrite Hget, !list_lookup_fmap.
    destruct (decide (i < n)%nat) as [Hi|Hi].
    + rewrite lookup_seq_lt by done. by destruct (decide _); [|lia].
    + rewrite lookup_seq_ge by lia. by destruct (decide _).
Qed.

Lemma points_matrix (f : nat → list float) (n : nat) :
  (∀ i, length (f i) = 2%nat) → matrix (f <$> seq 0 n) (Z.of_nat n) 2.
Proof.
  intros Hf. split; [by rewrite length_fmap, length_seq|].
  apply Forall_fmap, Forall_forall. intros i _. simpl.
  unfold vector. by rewrite Hf.
Qed.

(** The run of a test after the allocation: the data set and the initial
    weights are saved, the map is trained, the trained weights are saved. *)
Lemma train_and_save (u : indeterminate) (fuel passes : nat)
    (fs : gmap string (list ascii)) (X W : list (list float))
    (N num_out : Z) (alpha_min : float) (f1 f2 f3 : string) :
  matrix X N 2 → matrix W num_out 2 → N <= INT_MAX → num_out <= INT_MAX →
  runs_exactly alpha_min passes = true → Z.of_nat passes <= INT_MAX →
  (passes <= fuel)%nat →
  ∃ st,
    kohonen_som_tracer X N 2 num_out alpha_min (junk_idx u) fuel W
      (malloc_doubles (stale_D u) num_out) = Returned st ∧
    st_iter st = Z.of_nat passes ∧
    st_R st = Z.max (Z.min (num_out / 4) 1)
                    (num_out / 4 - (Z.of_nat passes + 9) / 10) ∧
    matrix (st_W st) num_out 2 ∧
    (fs1 ← save_2d_data fmt fs f1 X N 2;
     fs2 ← save_2d_data fmt fs1 f2 W num_out 2;
     save_2d_data fmt fs2 f3 (st_W st) num_out 2)
    = Some (<[f3 := csv (format_cells fmt (st_W st))]>
              (<[f2 := csv (format_cells fmt W)]>
                 (<[f1 := csv (format_cells fmt X)]> fs))).
Proof.
  intros HX HW HN Hout Hruns Hp Hfuel.
  assert (0 <= num_out) as Hout0 by (destruct HW; lia).
  destruct (tracer_runs_exactly X N 2 num_out alpha_min (junk_idx u) W
              (malloc_doubles (stale_D u) num_out) passes fuel HX HW
              (malloc_doubles_vector _ _ Hout0) Hruns Hfuel)
    as (st & Hret & Hafter & [HWst _] & Hiter & _).
  exists st. split; [done|]. split.
  { rewrite Hiter. apply wrap_small. unfold int_range, INT_MIN. lia. }
  split.
  { apply after_passes_schedule in Hafter as (_ & _ & HR).
    simpl in HR. rewrite int_shr_2 in HR. rewrite HR.
    assert (0 <= num_out / 4 <= INT_MAX) as HR0.
    { split; [apply Z.div_pos; lia|].
      etrans; [apply Z.div_le_upper_bound with (q := num_out); lia|done]. }
    rewrite radius_after_closed by lia.
    replace (0 + Z.of_nat passes + 9) with (Z.of_nat passes + 9) by lia.
    change ((0 + 9) / 10) with 0. by rewrite Z.sub_0_r. }
  split; [done|].
  unfold save_2d_data.
  rewrite (save_text_spec fmt X N 2 HX HN) by done. cbn [mbind option_bind].
  rewrite (save_text_spec fmt W num_out 2 HW Hout) by done.
  cbn [mbind option_bind].
  by rewrite (save_text_spec fmt (st_W st) num_out 2 HWst Hout) by done.
Qed.


Lemma test_circle_table (stale : Z → nat → float) (N : Z) (calls : nat) :
  0 <= N →
  test_circle cos sin M_PI rand
    ((λ i, malloc_doubles (stale (Z.of_nat i)) 2) <$> seq 0 (Z.to_nat N))
    N calls
  = Some (circle_point cos sin M_PI rand calls <$> seq 0 (Z.to_nat N),
          (calls + 2 * Z.to_nat N)%nat).
Proof.
  intros HN. unfold test_circle.
  pose proof (points_table
    (test_circle_point cos sin rand 0 (2 * M_PI)
       (0.75 - 0x1.3333333333333p-2) (0.75 + 0x1.3333333333333p-2))
    (λ c, (_random (0.75 - 0x1.3333333333333p-2)
             (0.75 + 0x1.3333333333333p-2) (rand c)
           * cos (_random 0 (2 * M_PI) (rand (Datatypes.S c))))%float)
    (λ c, (_random (0.75 - 0x1.3333333333333p-2)
             (0.75 + 0x1.3333333333333p-2) (rand c)
           * sin (_random 0 (2 * M_PI) (rand (Datatypes.S c))))%float)
    2%nat stale (Z.to_nat N) calls) as Htab.
  rewrite Z2Nat.id in Htab by done. rewrite Htab by done.
  do 2 f_equal. apply list_fmap_ext. intros _ i _.
  unfold circle_point, circle_radius, circle_angle.
  by replace (calls + 2 * i + 1)%nat
    with (Datatypes.S (calls + 2 * i)) by lia.
Qed.

Lemma test_lamniscate_table (stale : Z → nat → float) (N : Z) (calls : nat) :
  0 <= N →
  test_lamniscate cos sin M_PI rand
    ((λ i, malloc_doubles (stale (Z.of_nat i)) 2) <$> seq 0 (Z.to_nat N))
    N calls
  = Some (lamniscate_point cos sin M_PI rand calls <$> seq 0 (Z.to_nat N),
          (calls + 3 * Z.to_nat N)%nat).
Proof.
  intros HN. unfold test_lamniscate.
  pose proof (points_table
    (test_lamniscate_point cos sin M_PI rand 0x1.999999999999ap-3)
    (λ c, (_random (- 0x1.999999999999ap-3) 0x1.999999999999ap-3 (rand c)
           + cos (_random 0 M_PI
                    (rand (Datatypes.S (Datatypes.S c)))))%float)
    (λ c, (_random (- 0x1.999999999999ap-3) 0x1.999999999999ap-3
             (rand (Datatypes.S c))
           + sin (2 * _random 0 M_PI
                        (rand (Datatypes.S (Datatypes.S c)))) / 2)%float)
    3%nat stale (Z.to_nat N) calls) as Htab.
  rewrite Z2Nat.id in Htab by done. rewrite Htab by done.
  do 2 f_equal. apply list_fmap_ext. intros _ i _.
  unfold lamniscate_point, lamniscate_dx, lamniscate_dy, lamniscate_angle.
  replace (calls + 3 * i + 1)%nat
    with (Datatypes.S (calls + 3 * i)) by lia.
  by replace (calls + 3 * i + 2)%nat
    with (Datatypes.S (Datatypes.S (calls + 3 * i))) by lia.
Qed.

(** A test run with its constants left open: [gen] fills the data set. *)
Lemma test_run (u : indeterminate) (fuel passes : nat)
    (fs : gmap string (list ascii)) (calls : nat) (N num_out : Z)
    (alpha_min : float) (f1 f2 f3 : string)
    (gen : list (list float) → Z → nat → option (list (list float) * nat))
    (pt : nat → nat → list float) (d : nat) :
  0 <= N <= INT_MAX → 0 <= num_out <= INT_MAX →
  (∀ c i, length (pt c i) = 2%nat) →
  (∀ c, gen ((λ i, malloc_doubles (stale_X u (Z.of_nat i)) 2)
               <$> seq 0 (Z.to_nat N)) N c
        = Some (pt c <$> seq 0 (Z.to_nat N), (c + d * Z.to_nat N)%nat)) →
  runs_exactly alpha_min passes = true → Z.of_nat passes <= INT_MAX →
  (passes <= fuel)%nat →
  ∃ st,
    kohonen_som_tracer
      (pt (calls + Z.to_nat 2 * Z.to_nat num_out)%nat <$> seq 0 (Z.to_nat N))
      N 2 num_out alpha_min (junk_idx u) fuel
      (initial_weights rand calls 2 num_out)
      (malloc_doubles (stale_D u) num_out) = Returned st ∧
    st_iter st = Z.of_nat passes ∧
    st_R st = Z.max (Z.min (num_out / 4) 1)
                    (num_out / 4 - (Z.of_nat passes + 9) / 10) ∧
    matrix (st_W st) num_out 2 ∧
    (a ← alloc_loop rand u N 2 num_out calls;
     d ← gen a.1.1 N a.2;
     fs1 ← save_2d_data fmt fs f1 d.1 N 2;
     fs2 ← save_2d_data fmt fs1 f2 a.1.2 num_out 2;
     match kohonen_som_tracer d.1 N 2 num_out alpha_min
             (junk_idx u) fuel a.1.2 (malloc_doubles (stale_D u) num_out) with
     | Returned st =>
         fs3 ← save_2d_data fmt fs2 f3 (st_W st) num_out 2;
         Some (fs3, d.2)
     | _ => None
     end)
    = Some (<[f3 := csv (format_cells fmt (st_W st))]>
              (<[f2 := csv (format_cells fmt
                              (initial_weights rand calls 2 num_out))]>
                 (<[f1 := csv (format_cells fmt
                                 (pt (calls + Z.to_nat 2 * Z.to_nat num_out)%nat
                                    <$> seq 0 (Z.to_nat N)))]> fs)),
            (calls + Z.to_nat 2 * Z.to_nat num_out + d * Z.to_nat N)%nat).
Proof.
  intros HN Hout Hpt Hgen Hruns Hp Hfuel.
  set (c0 := (calls + Z.to_nat 2 * Z.to_nat num_out)%nat).
  assert (matrix (pt c0 <$> seq 0 (Z.to_nat N)) N 2) as HX.
  { pose proof (points_matrix (pt c0) (Z.to_nat N) (Hpt c0)) as HX.
    by rewrite Z2Nat.id in HX by lia. }
  assert (matrix (initial_weights rand calls 2 num_out) num_out 2) as HW
    by (apply initial_weights_matrix; lia).
  destruct (train_and_save u fuel passes fs _ _ N num_out alpha_min f1 f2 f3
              HX HW (proj2 HN) (proj2 Hout) Hruns Hp Hfuel)
    as (st & Hret & Hiter & HR & HWst & Hsave).
  exists st. split; [done|]. split; [done|]. split; [done|]. split; [done|].
  rewrite alloc_loop_spec by lia. cbn [mbind option_bind fst snd].
  fold c0. rewrite Hgen. cbn [mbind option_bind fst snd].
  rewrite Hret.
  destruct (save_2d_data fmt fs f1 _ N 2) as [fs1|]; [|done].
  cbn [mbind option_bind] in Hsave |- *.
  destruct (save_2d_data fmt fs1 f2 _ num_out 2) as [fs2|]; [|done].
  cbn [mbind option_bind] in Hsave |- *.
  by rewrite Hsave.
Qed.

Lemma test1_run (u : indeterminate) (fuel : nat)
    (fs : gmap string (list ascii)) (calls : nat) :
  (90 <= fuel)%nat →
  ∃ st,
    kohonen_som_tracer
      (circle_point cos sin M_PI rand (calls + 100) <$> seq 0 500)
      500 2 50 alpha_min_test1 (junk_idx u) fuel
      (initial_weights rand calls 2 50)
      (malloc_doubles (stale_D u) 50) = Returned st ∧
    st_iter st = 90 ∧ st_R st = 3 ∧ matrix (st_W st) 50 2 ∧
    test1 cos sin M_PI rand fmt u fuel fs calls
    = Some (<["w12.csv" := csv (format_cells fmt (st_W st))]>
              (<["w11.csv" :=
                   csv (format_cells fmt (initial_weights rand calls 2 50))]>
                 (<["test1.csv" :=
                      csv (format_cells fmt
                             (circle_point cos sin M_PI rand (calls + 100)
                                <$> seq 0 500))]> fs)),
            (calls + 1100)%nat).
Proof.
  intros Hfuel.
  assert (runs_exactly alpha_min_test1 90 = true) as Hruns by by vm_compute.
  assert (0 <= 500 <= INT_MAX) as HN by (unfold INT_MAX; lia).
  assert (0 <= 50 <= INT_MAX) as Hout by (unfold INT_MAX; lia).
  assert (Z.of_nat 90 <= INT_MAX) as Hp by (unfold INT_MAX; lia).
  assert (calls + Z.to_nat 2 * Z.to_nat 50 = calls + 100)%nat as Hc by lia.
  assert (calls + 100 + 2 * Z.to_nat 500 = calls + 1100)%nat as Hc' by lia.
  pose proof (test_run u fuel 90 fs calls 500 50 alpha_min_test1
                "test1.csv" "w11.csv" "w12.csv"
                (test_circle cos sin M_PI rand)
                (circle_point cos sin M_PI rand) 2 HN Hout
                (λ _ _, eq_refl)
                (λ c, test_circle_table (stale_X u) 500 c (proj1 HN))
                Hruns Hp Hfuel) as Hrun.
  rewrite Hc, Hc' in Hrun. exact Hrun.
Qed.

Lemma test2_run (u : indeterminate) (fuel : nat)
    (fs : gmap string (list ascii)) (calls : nat) :
  (99 <= fuel)%nat →
  ∃ st,
    kohonen_som_tracer
      (lamniscate_point cos sin M_PI rand (calls + 40) <$> seq 0 500)
      500 2 20 alpha_min_test2 (junk_idx u) fuel
      (initial_weights rand calls 2 20)
      (malloc_doubles (stale_D u) 20) = Returned st ∧
    st_iter st = 99 ∧ st_R st = 1 ∧ matrix (st_W st) 20 2 ∧
    test2 cos sin M_PI rand fmt u fuel fs calls
    = Some (<["w22.csv" := csv (format_cells fmt (st_W st))]>
              (<["w21.csv" :=
                   csv (format_cells fmt (initial_weights rand calls 2 20))]>
                 (<["test2.csv" :=
                      csv (format_cells fmt
                             (lamniscate_point cos sin M_PI rand (calls + 40)
                                <$> seq 0 500))]> fs)),
            (calls + 1540)%nat).
Proof.
  intros Hfuel.
  assert (runs_exactly alpha_min_test2 99 = true) as Hruns by by vm_compute.
  assert (0 <= 500 <= INT_MAX) as HN by (unfold INT_MAX; lia).
  assert (0 <= 20 <= INT_MAX) as Hout by (unfold INT_MAX; lia).
  assert (Z.of_nat 99 <= INT_MAX) as Hp by (unfold INT_MAX; lia).
  assert (calls + Z.to_nat 2 * Z.to_nat 20 = calls + 40)%nat as Hc by lia.
  assert (calls + 40 + 3 * Z.to_nat 500 = calls + 1540)%nat as Hc' by lia.
  pose proof (test_run u fuel 99 fs calls 500 20 alpha_min_test2
                "test2.csv" "w21.csv" "w22.csv"
                (test_lamniscate cos sin M_PI rand)
                (lamniscate_point cos sin M_PI rand) 3 HN Hout
                (λ _ _, eq_refl)
                (λ c, test_lamniscate_table (stale_X u) 500 c (proj1 HN))
                Hruns Hp Hfuel) as Hrun.
  rewrite Hc, Hc' in Hrun. exact Hrun.
Qed.

Lemma main_run (u1 u2 : indeterminate) (fuel : nat)
    (fs fs1 fs2 : gmap string (list ascii)) (calls c1 c2 : nat) :
  test1 cos sin M_PI rand fmt u1 fuel fs calls = Some (fs1, c1) →
  test2 cos sin M_PI rand fmt u2 fuel fs1 c1 = Some (fs2, c2) →
  main cos sin M_PI rand fmt u1 u2 fuel fs calls = Some (0, fs2, c2).
Proof.
  intros H1 H2. unfold main.
  apply bind_Some. exists (fs1, c1). split; [exact H1|].
  apply bind_Some. exists (fs2, c2). split; [exact H2|reflexivity].
Qed.

(** What [malloc] hands out does not reach the files. *)
Lemma train_stale (u u' : indeterminate) (fuel : nat)
    (fs : gmap string (list ascii)) (X W : list (list float))
    (N num_out : Z) (alpha_min : float) (f3 : string) (c : nat) :
  matrix X N 2 → matrix W num_out 2 → 0 <= num_out →
  junk_idx u = junk_idx u' →
  match kohonen_som_tracer X N 2 num_out alpha_min
          (junk_idx u) fuel W (malloc_doubles (stale_D u) num_out) with
  | Returned st =>
      fs3 ← save_2d_data fmt fs f3 (st_W st) num_out 2;
      Some (fs3, c)
  | _ => None
  end
  = match kohonen_som_tracer X N 2 num_out alpha_min
            (junk_idx u') fuel W (malloc_doubles (stale_D u') num_out) with
    | Returned st =>
        fs3 ← save_2d_data fmt fs f3 (st_W st) num_out 2;
        Some (fs3, c)
    | _ => None
    end.
Proof.
  intros HX HW Hout <-.
  assert (same_run
            (kohonen_som_tracer X N 2 num_out alpha_min (junk_idx u) fuel W
               (malloc_doubles (stale_D u) num_out))
            (kohonen_som_tracer X N 2 num_out alpha_min (junk_idx u) fuel W
               (malloc_doubles (stale_D u') num_out))) as Hsame.
  { apply tracer_loop_buffer; [done|done|..];
      (split; [done|by apply malloc_doubles_vector]). }
  destruct (kohonen_som_tracer X N 2 num_out alpha_min (junk_idx u) fuel W
              (malloc_doubles (stale_D u) num_out)) as [st| |],
    (kohonen_som_tracer X N 2 num_out alpha_min (junk_idx u) fuel W
       (malloc_doubles (stale_D u') num_out)) as [st'| |]; try done.
  by destruct Hsame as (-> & _).
Qed.

Lemma test_run_stale (u u' : indeterminate) (fuel : nat)
    (fs : gmap string (list ascii)) (calls : nat) (N num_out : Z)
    (alpha_min : float) (f1 f2 f3 : string)
    (gen : list (list float) → Z → nat → option (list (list float) * nat))
    (pt : nat → nat → list float) (d : nat) :
  0 <= N → 0 <= num_out →
  (∀ c i, length (pt c i) = 2%nat) →
  (∀ stale c,
     gen ((λ i, malloc_doubles (stale (Z.of_nat i)) 2)
            <$> seq 0 (Z.to_nat N)) N c
     = Some (pt c <$> seq 0 (Z.to_nat N), (c + d * Z.to_nat N)%nat)) →
  junk_idx u = junk_idx u' →
  (a ← alloc_loop rand u N 2 num_out calls;
   d ← gen a.1.1 N a.2;
   fs1 ← save_2d_data fmt fs f1 d.1 N 2;
   fs2 ← save_2d_data fmt fs1 f2 a.1.2 num_out 2;
   match kohonen_som_tracer d.1 N 2 num_out alpha_min
           (junk_idx u) fuel a.1.2 (malloc_doubles (stale_D u) num_out) with
   | Returned st =>
       fs3 ← save_2d_data fmt fs2 f3 (st_W st) num_out 2;
       Some (fs3, d.2)
   | _ => None
   end)
  = (a ← alloc_loop rand u' N 2 num_out calls;
     d ← gen a.1.1 N a.2;
     fs1 ← save_2d_data fmt fs f1 d.1 N 2;
     fs2 ← save_2d_data fmt fs1 f2 a.1.2 num_out 2;
     match kohonen_som_tracer d.1 N 2 num_out alpha_min
             (junk_idx u') fuel a.1.2 (malloc_doubles (stale_D u') num_out) with
     | Returned st =>
         fs3 ← save_2d_data fmt fs2 f3 (st_W st) num_out 2;
         Some (fs3, d.2)
     | _ => None
     end).
Proof.
  intros HN Hout Hpt Hgen Hjunk.
  rewrite !alloc_loop_spec by lia. cbn [mbind option_bind fst snd].
  rewrite !Hgen. cbn [mbind option_bind fst snd].
  destruct (save_2d_data fmt fs f1 _ N 2) as [fs1|]; [|done].
  cbn [mbind option_bind].
  destruct (save_2d_data fmt fs1 f2 _ num_out 2) as [fs2|]; [|done].
  cbn [mbind option_bind].
  apply train_stale; [|by apply initial_weights_matrix|done|done].
  pose proof (points_matrix
                (pt (calls + Z.to_nat 2 * Z.to_nat num_out)%nat)
                (Z.to_nat N) (Hpt _)) as HX.
  by rewrite Z2Nat.id in HX by lia.
Qed.

Lemma test1_stale (u u' : indeterminate) (fuel : nat)
    (fs : gmap string (list ascii)) (calls : nat) :
  junk_idx u = junk_idx u' →
  test1 cos sin M_PI rand fmt u fuel fs calls
  = test1 cos sin M_PI rand fmt u' fuel fs calls.
Proof.
  intros Hjunk. unfold test1.
  exact (test_run_stale u u' fuel fs calls 500 50 0x1.999999999999ap-4
           "test1.csv" "w11.csv" "w12.csv" (test_circle cos sin M_PI rand)
           (circle_point cos sin M_PI rand) 2 ltac:(lia) ltac:(lia)
           (λ _ _, eq_refl)
           (λ stale c, test_circle_table stale 500 c ltac:(lia)) Hjunk).
Qed.

Lemma test2_stale (u u' : indeterminate) (fuel : nat)
    (fs : gmap string (list ascii)) (calls : nat) :
  junk_idx u = junk_idx u' →
  test2 cos sin M_PI rand fmt u fuel fs calls
  = test2 cos sin M_PI rand fmt u' fuel fs calls.
Proof.
  intros Hjunk. unfold test2.
  exact (test_run_stale u u' fuel fs calls 500 20 0x1.47ae147ae147bp-7
           "test2.csv" "w21.csv" "w22.csv" (test_lamniscate cos sin M_PI rand)
           (lamniscate_point cos sin M_PI rand) 3 ltac:(lia) ltac:(lia)
           (λ _ _, eq_refl)
           (λ stale c, test_lamniscate_table stale 500 c ltac:(lia)) Hjunk).
Qed.
End TestProofs.


(** X12: the allocation loop of [test1] and [test2] returns a data set of
    [N] rows and a map of [num_out] rows, of [features] cells each, after
    [features * num_out] calls of [rand()].  The cells of the data set are
    what [malloc] handed out; the weights are drawn row by row, one call of
    [rand()] each, and when [rand()] is not negative every weight is at
    least [-1] and below [1]. *)
Theorem X12_allocation_loop (rand : nat → Z) (u : indeterminate)
    (N features num_out : Z) (calls : nat) :
  0 <= N → 0 <= features → 0 <= num_out →
  ∃ X W,
    alloc_loop rand u N features num_out calls
      = Some (X, W, (calls + Z.to_nat features * Z.to_nat num_out)%nat) ∧
    matrix X N features ∧ matrix W num_out features ∧
    (∀ (i j : nat) (row : list float),
       X !! i = Some row → Z.of_nat j < features →
       row !! j = Some (stale_X u (Z.of_nat i) j)) ∧
    (∀ (i j : nat) (row : list float),
       W !! i = Some row → Z.of_nat j < features →
       row !! j = Some (_random (-1) 1
                          (rand (calls + Z.to_nat features * i + j)%nat))) ∧
    ((∀ n, 0 <= rand n) →
     ∀ (row : list float) (w : float), row ∈ W → w ∈ row →
       (-1 <=? w)%float = true ∧ (w <? 1)%float = true).
Proof.
  intros HN Hf Hout. eexists _, _.
  split; [by apply alloc_loop_spec|].
  split.
  { pose proof (malloc_rows_matrix (stale_X u) (Z.to_nat N) features Hf) as H.
    by rewrite Z2Nat.id in H by done. }
  split; [by apply initial_weights_matrix|].
  split; [|split].
  - intros i j row Hrow Hj. rewrite list_lookup_fmap in Hrow.
    destruct (seq 0 (Z.to_nat N) !! i) as [i'|] eqn:Hi; [|done].
    apply lookup_seq in Hi as [-> _]. injection Hrow as <-.
    unfold malloc_doubles. rewrite list_lookup_fmap.
    by rewrite lookup_seq_lt by lia.
  - intros i j row Hrow Hj. unfold initial_weights in Hrow.
    rewrite list_lookup_fmap in Hrow.
    destruct (seq 0 (Z.to_nat num_out) !! i) as [i'|] eqn:Hi; [|done].
    apply lookup_seq in Hi as [-> _]. injection Hrow as <-.
    unfold initial_row. rewrite list_lookup_fmap.
    by rewrite lookup_seq_lt by lia.
  - intros Hrand row w Hrow Hw. unfold initial_weights in Hrow.
    apply list_elem_of_fmap in Hrow as (i & -> & _).
    apply list_elem_of_fmap in Hw as (j & -> & _). split.
    + by apply (_random_cases _ _ _ (λ r, (-1 <=? r)%float)).
    + by apply (_random_cases _ _ _ (λ r, (r <? 1)%float)).
Qed.

(** X13: with fuel for 90 passes [test1] returns, after 1100 calls of
    [rand()]: 100 for the weights of the 50 nodes, then 1000 for the 500
    points near the circle.  The training makes 90 passes and ends with the
    radius 3.  The points are in [test1.csv], the initial weights in
    [w11.csv] and the trained weights in [w12.csv], each as lines of two
    cells; no other file is touched, and nothing of what [malloc] handed
    out reaches the points or the initial weights. *)
Theorem X13_test1_run (cos sin : float → float) (M_PI : float)
    (rand : nat → Z) (fmt : float → list ascii) (u : indeterminate)
    (fuel : nat) (fs : gmap string (list ascii)) (calls : nat) :
  (90 <= fuel)%nat →
  ∃ st fs',
    test1 cos sin M_PI rand fmt u fuel fs calls
      = Some (fs', (calls + 1100)%nat) ∧
    kohonen_som_tracer
      (circle_point cos sin M_PI rand (calls + 100) <$> seq 0 500)
      500 2 50 0x1.999999999999ap-4%float (junk_idx u) fuel
      (initial_weights rand calls 2 50)
      (malloc_doubles (stale_D u) 50) = Returned st ∧
    st_iter st = 90 ∧ st_R st = 3 ∧
    fs' !! "test1.csv"
      = Some (csv (format_cells fmt
                     (circle_point cos sin M_PI rand (calls + 100)
                        <$> seq 0 500))) ∧
    fs' !! "w11.csv"
      = Some (csv (format_cells fmt (initial_weights rand calls 2 50))) ∧
    fs' !! "w12.csv" = Some (csv (format_cells fmt (st_W st))) ∧
    ∀ f, f ∉ ["test1.csv"; "w11.csv"; "w12.csv"] → fs' !! f = fs !! f.
Proof.
  intros Hfuel.
  destruct (test1_run cos sin M_PI rand fmt u fuel fs calls Hfuel)
    as (st & Hret & Hiter & HR & _ & Hrun).
  eexists st, _. split; [exact Hrun|]. split; [exact Hret|].
  split; [exact Hiter|]. split; [exact HR|].
  clear Hret Hiter HR Hrun.
  split; [|split; [|split]].
  - do 2 (rewrite lookup_insert_ne by done). by rewrite lookup_insert_eq.
  - rewrite lookup_insert_ne by done. by rewrite lookup_insert_eq.
  - by rewrite lookup_insert_eq.
  - intros f Hf. repeat (apply not_elem_of_cons in Hf as [? Hf]).
    by rewrite !lookup_insert_ne by done.
Qed.

(** X14: with fuel for 99 passes [test2] returns, after 1540 calls of
    [rand()]: 40 for the weights of the 20 nodes, then 1500 for the 500
    points near the lemniscate.  The training makes 99 passes and ends with
    the radius 1.  The points are in [test2.csv], the initial weights in
    [w21.csv] and the trained weights in [w22.csv]; no other file is
    touched. *)
Theorem X14_test2_run (cos sin : float → float) (M_PI : float)
    (rand : nat → Z) (fmt : float → list ascii) (u : indeterminate)
    (fuel : nat) (fs : gmap string (list ascii)) (calls : nat) :
  (99 <= fuel)%nat →
  ∃ st fs',
    test2 cos sin M_PI rand fmt u fuel fs calls
      = Some (fs', (calls + 1540)%nat) ∧
    kohonen_som_tracer
      (lamniscate_point cos sin M_PI rand (calls + 40) <$> seq 0 500)
      500 2 20 0x1.47ae147ae147bp-7%float (junk_idx u) fuel
      (initial_weights rand calls 2 20)
      (malloc_doubles (stale_D u) 20) = Returned st ∧
    st_iter st = 99 ∧ st_R st = 1 ∧
    fs' !! "test2.csv"
      = Some (csv (format_cells fmt
                     (lamniscate_point cos sin M_PI rand (calls + 40)
                        <$> seq 0 500))) ∧
    fs' !! "w21.csv"
      = Some (csv (format_cells fmt (initial_weights rand calls 2 20))) ∧
    fs' !! "w22.csv" = Some (csv (format_cells fmt (st_W st))) ∧
    ∀ f, f ∉ ["test2.csv"; "w21.csv"; "w22.csv"] → fs' !! f = fs !! f.
Proof.
  intros Hfuel.
  destruct (test2_run cos sin M_PI rand fmt u fuel fs calls Hfuel)
    as (st & Hret & Hiter & HR & _ & Hrun).
  eexists st, _. split; [exact Hrun|]. split; [exact Hret|].
  split; [exact Hiter|]. split; [exact HR|].
  clear Hret Hiter HR Hrun.
  split; [|split; [|split]].
  - do 2 (rewrite lookup_insert_ne by done). by rewrite lookup_insert_eq.
  - rewrite lookup_insert_ne by done. by rewrite lookup_insert_eq.
  - by rewrite lookup_insert_eq.
  - intros f Hf. repeat (apply not_elem_of_cons in Hf as [? Hf]).
    by rewrite !lookup_insert_ne by done.
Qed.

(** X15: with fuel for 99 passes [main] returns the exit status 0 after
    2640 calls of [rand()]; the second test draws from where the first one
    stopped.  The six files of the two tests are there afterwards, the data
    sets and the initial weights with the contents below, and no other
    file is touched. *)
Theorem X15_main_run (cos sin : float → float) (M_PI : float)
    (rand : nat → Z) (fmt : float → list ascii) (u1 u2 : indeterminate)
    (fuel : nat) (fs : gmap string (list ascii)) (calls : nat) :
  (99 <= fuel)%nat →
  ∃ fs',
    main cos sin M_PI rand fmt u1 u2 fuel fs calls
      = Some (0, fs', (calls + 2640)%nat) ∧
    fs' !! "test1.csv"
      = Some (csv (format_cells fmt
                     (circle_point cos sin M_PI rand (calls + 100)
                        <$> seq 0 500))) ∧
    fs' !! "w11.csv"
      = Some (csv (format_cells fmt (initial_weights rand calls 2 50))) ∧
    fs' !! "test2.csv"
      = Some (csv (format_cells fmt
                     (lamniscate_point cos sin M_PI rand (calls + 1140)
                        <$> seq 0 500))) ∧
    fs' !! "w21.csv"
      = Some (csv (format_cells fmt
                     (initial_weights rand (calls + 1100) 2 20))) ∧
    is_Some (fs' !! "w12.csv") ∧ is_Some (fs' !! "w22.csv") ∧
    ∀ f, f ∉ ["test1.csv"; "w11.csv"; "w12.csv";
              "test2.csv"; "w21.csv"; "w22.csv"] → fs' !! f = fs !! f.
Proof.
  intros Hfuel.
  destruct (test1_run cos sin M_PI rand fmt u1 fuel fs calls)
    as (st1 & _ & _ & _ & _ & Hrun1); [lia|].
  destruct (test2_run cos sin M_PI rand fmt u2 fuel
              (<["w12.csv" := csv (format_cells fmt (st_W st1))]>
                 (<["w11.csv" :=
                      csv (format_cells fmt
                             (initial_weights rand calls 2 50))]>
                    (<["test1.csv" :=
                         csv (format_cells fmt
                                (circle_point cos sin M_PI rand (calls + 100)
                                   <$> seq 0 500))]> fs)))
              (calls + 1100)%nat Hfuel)
    as (st2 & _ & _ & _ & _ & Hrun2).
  assert (calls + 1100 + 1540 = calls + 2640)%nat as Hc by lia.
  assert (calls + 1100 + 40 = calls + 1140)%nat as Hc' by lia.
  rewrite Hc, Hc' in Hrun2.
  eexists. split.
  { exact (main_run cos sin M_PI rand fmt u1 u2 fuel fs _ _ calls _ _
             Hrun1 Hrun2). }
  clear Hrun1 Hrun2 Hc Hc'.
  split; [|split; [|split; [|split; [|split; [|split]]]]].
  - do 5 (rewrite lookup_insert_ne by done). by rewrite lookup_insert_eq.
  - do 4 (rewrite lookup_insert_ne by done). by rewrite lookup_insert_eq.
  - do 2 (rewrite lookup_insert_ne by done). by rewrite lookup_insert_eq.
  - rewrite lookup_insert_ne by done. by rewrite lookup_insert_eq.
  - do 3 (rewrite lookup_insert_ne by done). by rewrite lookup_insert_eq.
  - by rewrite lookup_insert_eq.
  - intros f Hf. repeat (apply not_elem_of_cons in Hf as [? Hf]).
    by rewrite !lookup_insert_ne by done.
Qed.

(** X17: what [malloc] hands out never reaches the files: two runs of
    [main] that differ in the content of fresh memory only (same calls of
    [rand()], same indeterminate values of [d_min_idx]) end alike, with the
    same files. *)
Theorem X17_main_ignores_stale_memory (cos sin : float → float)
    (M_PI : float) (rand : nat → Z) (fmt : float → list ascii)
    (u1 u2 u1' u2' : indeterminate) (fuel : nat)
    (fs : gmap string (list ascii)) (calls : nat) :
  junk_idx u1 = junk_idx u1' → junk_idx u2 = junk_idx u2' →
  main cos sin M_PI rand fmt u1 u2 fuel fs calls
  = main cos sin M_PI rand fmt u1' u2' fuel fs calls.
Proof.
  intros H1 H2. unfold main.
  rewrite (test1_stale cos sin M_PI rand fmt u1 u1' fuel fs calls H1).
  apply option_bind_ext; [|reflexivity]. intros r1.
  rewrite (test2_stale cos sin M_PI rand fmt u2 u2' fuel r1.1 r1.2 H2).
  reflexivity.
Qed.
(** ** The update rule in exact arithmetic *)

Module Exact.
Import Reals Lra.
Local Open Scope R_scope.

(** In exact arithmetic the update rule is the convex combination. *)
Lemma pull_entry_convex (alpha wk xk : R) :
  pull_entry alpha wk xk = (1 - alpha) * wk + alpha * xk.
Proof. unfold pull_entry. simpl. ring. Qed.

Lemma fold_sq_shift (l : list (R * R)) (a : R) :
  fold_left sq_term l a = a + fold_left sq_term l 0.
Proof.
  revert a. induction l as [|p l IH]; intros a; cbn [fold_left].
  - ring.
  - rewrite (IH (sq_term a p)), (IH (sq_term 0 p)).
    unfold sq_term. simpl. ring.
Qed.

Lemma sq_dist_cons (wk xk : R) (w x : list R) :
  sq_dist (wk :: w) (xk :: x) = (wk - xk) * (wk - xk) + sq_dist w x.
Proof.
  unfold sq_dist. cbn [zip_with fold_left]. rewrite fold_sq_shift.
  unfold sq_term. simpl. ring.
Qed.

Lemma sq_dist_nil_l (x : list R) : sq_dist [] x = 0.
Proof. done. Qed.

Lemma sq_dist_nil_r (w : list R) : sq_dist w [] = 0.
Proof. by destruct w. Qed.

Lemma sq_dist_nonneg (w x : list R) : 0 <= sq_dist w x.
Proof.
  revert x. induction w as [|wk w IH]; intros [|xk x];
    rewrite ?sq_dist_nil_l, ?sq_dist_nil_r; try lra.
  rewrite sq_dist_cons. specialize (IH x).
  pose proof (Rle_0_sqr (wk - xk)) as Hsq. unfold Rsqr in Hsq. lra.
Qed.

Lemma sq_dist_zero (w x : list R) :
  length w = length x → sq_dist w x = 0 → w = x.
Proof.
  revert x. induction w as [|wk w IH]; intros [|xk x] Hlen Hd; try done.
  rewrite sq_dist_cons in Hd. pose proof (sq_dist_nonneg w x) as Hn.
  injection Hlen as Hlen.
  pose proof (Rle_0_sqr (wk - xk)) as Hsq. unfold Rsqr in Hsq.
  assert ((wk - xk) * (wk - xk) = 0) as H0 by lra.
  apply Rmult_integral in H0.
  assert (wk = xk) as -> by (destruct H0; lra).
  f_equal. apply IH; [done|]. lra.
Qed.

Lemma sq_dist_pull (alpha : R) (w x : list R) :
  sq_dist (pull alpha x w) x = (1 - alpha) * (1 - alpha) * sq_dist w x.
Proof.
  revert x. induction w as [|wk w IH]; intros [|xk x];
    try (cbn [pull zip_with]; rewrite ?sq_dist_nil_l, ?sq_dist_nil_r; ring).
  change (pull alpha (xk :: x) (wk :: w))
    with (pull_entry alpha wk xk :: pull alpha x w).
  rewrite !sq_dist_cons, IH, pull_entry_convex. ring.
Qed.

Lemma pull_same (alpha : R) (x : list R) : pull alpha x x = x.
Proof.
  induction x as [|xk x IH]; [done|].
  change (pull alpha (xk :: x) (xk :: x))
    with (pull_entry alpha xk xk :: pull alpha x x).
  rewrite IH, pull_entry_convex. f_equal. ring.
Qed.

(** In exact arithmetic every row [w] that the neighbourhood update pulls
    towards the sample [x] with [alpha] in the open interval (0,1) becomes
    [pull alpha x w]; its squared distance from [x] is strictly less than
    before unless [w = x], and then it is unchanged. *)
Lemma pull_contracts (x : list R) (W : list (list R))
    (num_out num_features : Z) (alpha : R) (bmu radius : Z) :
  matrix W num_out num_features → vector x num_features → 0 < alpha < 1 →
  ∃ W', update_neighborhood x W num_out num_features alpha bmu radius
        = Some W' ∧
    ∀ (j : nat) (w : list R),
      (from_node bmu radius <= Z.of_nat j < to_node num_out bmu radius)%Z →
      W !! j = Some w →
      W' !! j = Some (pull alpha x w) ∧
      (w ≠ x → sq_dist (pull alpha x w) x < sq_dist w x) ∧
      (w = x → pull alpha x w = w).
Proof.
  intros HW Hx Ha.
  destruct (update_neighborhood_spec x W num_out num_features alpha bmu
              radius HW Hx) as (W' & HW' & _ & Hget).
  exists W'. split; [done|]. intros j w Hj Hw. split; [|split].
  - rewrite Hget. destruct (decide _); [|done]. by rewrite Hw.
  - intros Hne. rewrite sq_dist_pull.
    pose proof (sq_dist_nonneg w x) as Hn.
    assert (sq_dist w x ≠ 0) as Hpos.
    { intros H0. apply Hne, sq_dist_zero; [|done].
      pose proof (matrix_row W num_out num_features j w HW Hw) as Hvw.
      unfold vector in *. lia. }
    assert (0 < alpha * (2 - alpha) * sq_dist w x) as Hgain.
    { apply Rmult_lt_0_compat; [apply Rmult_lt_0_compat|]; lra. }
    lra.
  - intros ->. apply pull_same.
Qed.
End Exact.


(** ** The update rule, in the arithmetic of the program and exactly *)

Section UpdateRule.
Import Reals.

(** C3, as the code has it: when [bmu + R + 1] does not overflow [int]
    ([R] is [radius] below),
    the update sets [W[j][k]] to [W[j][k] + alpha * (x[k] - W[j][k])],
    evaluated in this order in the arithmetic of the scalar type (for the
    compiled program: binary64), for every node [j] of the window
    [[max(0, bmu-R), min(num_out, bmu+R+1))] and every feature [k].  Run in
    exact arithmetic, the same update stores the convex combination
    [(1 - alpha) * W[j][k] + alpha * x[k]]. *)
Theorem C3_neighborhood_update {T} `{Arith T} (x : list T)
    (W : list (list T)) (num_out num_features : Z) (alpha : T) (bmu radius : Z) :
  matrix W num_out num_features → vector x num_features →
  0 <= bmu < num_out → 0 <= radius → bmu + radius + 1 <= INT_MAX →
  (∃ W', update_neighborhood x W num_out num_features alpha bmu radius = Some W' ∧
     ∀ (j k : nat) (w : list T) (wk xk : T),
       in_window num_out bmu radius (Z.of_nat j) →
       W !! j = Some w → w !! k = Some wk → x !! k = Some xk →
       ∃ w', W' !! j = Some w' ∧
             w' !! k = Some (wk + alpha * (xk - wk))%num) ∧
  ∀ (xr : list R) (Wr : list (list R)) (a : R),
    matrix Wr num_out num_features → vector xr num_features →
    ∃ Wr', update_neighborhood xr Wr num_out num_features a bmu radius
           = Some Wr' ∧
      ∀ (j k : nat) (w : list R) (wk xk : R),
        in_window num_out bmu radius (Z.of_nat j) →
        Wr !! j = Some w → w !! k = Some wk → xr !! k = Some xk →
        ∃ w', Wr' !! j = Some w' ∧
              w' !! k = Some ((1 - a) * wk + a * xk)%R.
Proof.
  intros HW Hx Hb HR Hs.
  assert (∀ {U} `{Arith U} (y : list U) (V : list (list U)) (b : U),
            matrix V num_out num_features → vector y num_features →
            ∃ V', update_neighborhood y V num_out num_features b bmu radius
                  = Some V' ∧
              ∀ (j k : nat) (w : list U) (wk yk : U),
                in_window num_out bmu radius (Z.of_nat j) →
                V !! j = Some w → w !! k = Some wk → y !! k = Some yk →
                ∃ w', V' !! j = Some w' ∧
                      w' !! k = Some (wk + b * (yk - wk))%num) as Hany.
  { intros U HU y V b HV Hy.
    destruct (update_neighborhood_spec y V num_out num_features b bmu
                radius HV Hy) as (V' & HV' & _ & Hget).
    exists V'. split; [done|]. intros j k w wk yk Hj Hw Hwk Hyk.
    apply window_is_code_window in Hj; [|lia..].
    exists (pull b y w). rewrite Hget.
    destruct (decide _); [|done]. rewrite Hw. split; [done|].
    unfold pull. by rewrite lookup_zip_with, Hwk, Hyk. }
  split; [by apply Hany|].
  intros xr Wr a HWr Hxr.
  destruct (Hany R R_arith xr Wr a HWr Hxr) as (Wr' & HWr' & Hrows).
  exists Wr'. split; [done|]. intros j k w wk xk Hj Hw Hwk Hxk.
  destruct (Hrows j k w wk xk Hj Hw Hwk Hxk) as (w' & Hw' & Hk).
  exists w'. split; [done|]. rewrite Hk. f_equal.
  apply Exact.pull_entry_convex.
Qed.
End UpdateRule.

(** ** Rounding to nearest in binary64

    The operations of [SpecFloat] on valid doubles, as functions of the
    values: each is the exact result rounded by [xrnd]. *)

Lemma pow2_pos n : 0 <= n → 0 < 2 ^ n.
Proof. intros. by apply Z.pow_pos_nonneg. Qed.

Lemma rne_cases V n :
  0 <= n →
  let q := V / 2 ^ n in
  let r := V mod 2 ^ n in
  V = q * 2 ^ n + r ∧ 0 <= r < 2 ^ n ∧
  ((rne V n = q ∧ 2 * r <= 2 ^ n) ∨ (rne V n = q + 1 ∧ 2 ^ n <= 2 * r)).
Proof.
  intros Hn q r. pose proof (pow2_pos n Hn) as Hp.
  pose proof (Z.div_mod V (2 ^ n) ltac:(lia)) as Hdm.
  pose proof (Z.mod_pos_bound V (2 ^ n) Hp) as Hb.
  split; [unfold q, r; lia|]. split; [done|].
  unfold rne. fold q r.
  destruct (Z.ltb_spec (2 * r) (2 ^ n)); [left; lia|].
  destruct (Z.ltb_spec (2 ^ n) (2 * r)); [right; lia|].
  destruct (Z.even q); [left|right]; lia.
Qed.

Lemma rne_exact k n : 0 <= n → rne (k * 2 ^ n) n = k.
Proof.
  intros Hn. pose proof (pow2_pos n Hn) as Hp. unfold rne.
  rewrite Z.div_mul, Z.mod_mul by lia.
  destruct (Z.ltb_spec (2 * 0) (2 ^ n)); [done|lia].
Qed.

Lemma rne_mono V1 V2 n : 0 <= n → V1 <= V2 → rne V1 n <= rne V2 n.
Proof.
  intros Hn Hle. pose proof (pow2_pos n Hn) as Hp.
  pose proof (Z.div_le_mono V1 V2 (2 ^ n) Hp Hle) as Hq.
  pose proof (Z.div_mod V1 (2 ^ n) ltac:(lia)) as Hdm1.
  pose proof (Z.div_mod V2 (2 ^ n) ltac:(lia)) as Hdm2.
  pose proof (Z.mod_pos_bound V1 (2 ^ n) Hp) as Hb1.
  pose proof (Z.mod_pos_bound V2 (2 ^ n) Hp) as Hb2.
  unfold rne.
  set (q1 := V1 / 2 ^ n) in *. set (q2 := V2 / 2 ^ n) in *.
  set (r1 := V1 mod 2 ^ n) in *. set (r2 := V2 mod 2 ^ n) in *.
  destruct (Z.eq_dec q1 q2) as [Heq|Hne].
  - assert (r1 <= r2) by nia. rewrite <- Heq.
    destruct (Z.ltb_spec (2 * r1) (2 ^ n)), (Z.ltb_spec (2 * r2) (2 ^ n));
      destruct (Z.ltb_spec (2 ^ n) (2 * r1)), (Z.ltb_spec (2 ^ n) (2 * r2));
      destruct (Z.even q1); lia.
  - assert (q1 + 1 <= q2) by lia.
    destruct (Z.ltb_spec (2 * r1) (2 ^ n)), (Z.ltb_spec (2 * r2) (2 ^ n));
      destruct (Z.ltb_spec (2 ^ n) (2 * r1)), (Z.ltb_spec (2 ^ n) (2 * r2));
      destruct (Z.even q1), (Z.even q2); lia.
Qed.

Lemma rne_shift V n k : 0 <= n → 0 <= k → rne (V * 2 ^ k) (n + k) = rne V n.
Proof.
  intros Hn Hk. pose proof (pow2_pos n Hn) as Hp.
  pose proof (pow2_pos k Hk) as Hpk. unfold rne.
  rewrite Z.pow_add_r by done.
  rewrite Z.div_mul_cancel_r by lia.
  rewrite Z.mul_mod_distr_r by lia.
  set (r := V mod 2 ^ n).
  destruct (Z.ltb_spec (2 * r) (2 ^ n)), (Z.ltb_spec (2 * (r * 2 ^ k)) (2 ^ n * 2 ^ k));
    try nia.
  all: destruct (Z.ltb_spec (2 ^ n) (2 * r)), (Z.ltb_spec (2 ^ n * 2 ^ k) (2 * (r * 2 ^ k))); try nia; done.
Qed.

Lemma grid_ge V : 1074 <= grid V.
Proof. unfold grid. lia. Qed.

Lemma grid_mono V1 V2 : 0 <= V1 <= V2 → grid V1 <= grid V2.
Proof.
  intros H. unfold grid. pose proof (Z.log2_le_mono V1 V2 ltac:(lia)). lia.
Qed.

Lemma rne_lower V n : 0 <= n → V / 2 ^ n <= rne V n <= V / 2 ^ n + 1.
Proof. intros Hn. destruct (rne_cases V n Hn) as (_ & _ & [[-> _]|[-> _]]); lia. Qed.

Lemma rnd_nonneg V : 0 <= V → 0 <= rnd V.
Proof.
  intros HV. unfold rnd. pose proof (grid_ge V).
  pose proof (pow2_pos (grid V) ltac:(lia)).
  pose proof (rne_lower V (grid V) ltac:(lia)).
  pose proof (Z.div_pos V (2 ^ grid V) HV ltac:(lia)). nia.
Qed.

(** below the top of its binade *)
Lemma rnd_upper V : 0 <= V → rnd V <= 2 ^ (grid V + 53).
Proof.
  intros HV. unfold rnd. pose proof (grid_ge V) as Hg.
  pose proof (pow2_pos (grid V) ltac:(lia)) as Hp.
  pose proof (rne_lower V (grid V) ltac:(lia)) as [_ Hr].
  assert (V < 2 ^ (grid V + 53)) as Hlt.
  { destruct (Z.eq_dec V 0) as [->|Hne]; [apply pow2_pos; lia|].
    pose proof (Z.log2_spec V ltac:(lia)) as [_ Hs].
    eapply Z.lt_le_trans; [done|]. apply Z.pow_le_mono_r; [lia|].
    unfold grid. lia. }
  rewrite Z.pow_add_r in * by lia.
  assert (V / 2 ^ grid V < 2 ^ 53).
  { apply Z.div_lt_upper_bound; lia. }
  nia.
Qed.

Lemma rnd_lower V : 1074 < grid V → 2 ^ (grid V + 52) <= rnd V.
Proof.
  intros Hg. unfold rnd.
  pose proof (pow2_pos (grid V) ltac:(lia)) as Hp.
  pose proof (rne_lower V (grid V) ltac:(lia)) as [Hr _].
  assert (0 < V) as HV.
  { destruct (Z.lt_total 0 V) as [|[<-|Hneg]]; [done|by vm_compute in Hg|].
    unfold grid in Hg. rewrite Z.log2_nonpos in Hg by lia. lia. }
  pose proof (Z.log2_spec V HV) as [Hs _].
  assert (Z.log2 V = grid V + 52) as Hl by (unfold grid in *; lia).
  rewrite Hl in Hs. rewrite Z.pow_add_r in * by lia.
  assert (2 ^ 52 <= V / 2 ^ grid V).
  { apply Z.div_le_lower_bound; lia. }
  nia.
Qed.

Lemma rnd_mono V1 V2 : 0 <= V1 <= V2 → rnd V1 <= rnd V2.
Proof.
  intros [H1 H2]. pose proof (grid_mono V1 V2 ltac:(lia)) as Hg.
  pose proof (grid_ge V1) as Hg1.
  destruct (Z.eq_dec (grid V1) (grid V2)) as [Heq|Hne].
  - unfold rnd. rewrite Heq.
    pose proof (pow2_pos (grid V2) ltac:(lia)) as Hp.
    pose proof (rne_mono V1 V2 (grid V2) ltac:(lia) H2). nia.
  - etrans; [by apply rnd_upper|]. etrans; [|apply rnd_lower; lia].
    apply Z.pow_le_mono_r; lia.
Qed.

Lemma grid_repr m N :
  0 < m < 2 ^ 53 → 1074 <= N → (2 ^ 52 <= m ∨ N = 1074) →
  grid (m * 2 ^ N) = N.
Proof.
  intros Hm HN Hc. unfold grid.
  rewrite Z.log2_mul_pow2 by lia.
  pose proof (Z.log2_spec m ltac:(lia)) as [Hlo Hhi].
  assert (Z.log2 m < 53).
  { apply Z.log2_lt_pow2; lia. }
  destruct Hc as [Hc| ->]; [|lia].
  assert (52 <= Z.log2 m) by (apply Z.log2_le_pow2; lia). lia.
Qed.

Lemma rnd_fix V : representable V → rnd V = V.
Proof.
  intros (m & N & -> & Hm & HN & Hc).
  destruct (Z.eq_dec m 0) as [->|Hne]; [done|].
  unfold rnd. rewrite grid_repr by (done || lia).
  by rewrite rne_exact by lia.
Qed.

(** On the coarsest grid every multiple of the unit is kept. *)
Lemma rnd_exact_small V :
  0 <= V → V < 2 ^ (1074 + 53) → (2 ^ 1074 | V) → rnd V = V.
Proof.
  intros HV Hlt [k ->]. unfold rnd.
  assert (grid (k * 2 ^ 1074) = 1074) as ->.
  { unfold grid. destruct (Z.eq_dec k 0) as [->|Hk]; [done|].
    assert (0 < k) by nia.
    assert (Z.log2 (k * 2 ^ 1074) < 1074 + 53); [|lia].
    apply Z.log2_lt_pow2; [nia|done]. }
  by rewrite rne_exact.
Qed.

Lemma digits2_log2 (m : positive) :
  Z.pos (digits2_pos m) = Z.log2 (Z.pos m) + 1.
Proof.
  induction m as [m IH|m IH|]; [| |done].
  - change (digits2_pos m~1) with (Pos.succ (digits2_pos m)).
    rewrite Pos2Z.inj_succ, IH.
    change (Z.pos m~1) with (2 * Z.pos m + 1).
    rewrite Z.log2_succ_double by lia. lia.
  - change (digits2_pos m~0) with (Pos.succ (digits2_pos m)).
    rewrite Pos2Z.inj_succ, IH.
    change (Z.pos m~0) with (2 * Z.pos m).
    rewrite Z.log2_double by lia. lia.
Qed.

Lemma iter_pos_nat {A} (f : A → A) (p : positive) (x : A) :
  SpecFloat.iter_pos f p x = Nat.iter (Pos.to_nat p) f x.
Proof.
  revert x. induction p as [p IH|p IH|]; intros x; cbn [SpecFloat.iter_pos].
  - rewrite !IH, Pos2Nat.inj_xI.
    replace (Datatypes.S (2 * Pos.to_nat p))
      with (Pos.to_nat p + Datatypes.S (Pos.to_nat p))%nat by lia.
    rewrite Nat.iter_add. f_equal. by rewrite Nat.iter_succ_r.
  - rewrite !IH, Pos2Nat.inj_xO.
    replace (2 * Pos.to_nat p)%nat with (Pos.to_nat p + Pos.to_nat p)%nat
      by lia.
    by rewrite Nat.iter_add.
  - done.
Qed.

Lemma pow2_pred k : 1 <= k → 2 ^ k = 2 ^ (k - 1) * 2.
Proof.
  intros Hk. replace k with (k - 1 + 1) at 1 by lia.
  by rewrite Z.pow_add_r by lia.
Qed.

Lemma shr_1_nonneg (q : Z) (r s : bool) :
  0 <= q →
  shr_1 {| shr_m := q; shr_r := r; shr_s := s |}
  = {| shr_m := q / 2; shr_r := Z.odd q; shr_s := r || s |}.
Proof.
  intros Hq. destruct q as [|[p|p|]|p]; try done; cbn [shr_1].
  - f_equal. change (Z.pos p~1) with (2 * Z.pos p + 1).
    apply Z.div_unique with 1; lia.
  - f_equal. change (Z.pos p~0) with (2 * Z.pos p).
    apply Z.div_unique with 0; lia.
Qed.

Lemma shifted_first m : 0 <= m →
  shr_1 {| shr_m := m; shr_r := false; shr_s := false |} = shifted m 1.
Proof.
  intros Hm. rewrite shr_1_nonneg by done. unfold shifted.
  change (2 ^ (1 - 1)) with 1. change (2 ^ 1) with 2.
  by rewrite Z.div_1_r, Z.mod_1_r.
Qed.

Lemma shifted_next m k : 0 <= m → 1 <= k →
  shr_1 (shifted m k) = shifted m (k + 1).
Proof.
  intros Hm Hk. unfold shifted.
  pose proof (pow2_pos k ltac:(lia)) as Hp.
  pose proof (pow2_pos (k - 1) ltac:(lia)) as Hp'.
  rewrite shr_1_nonneg by (apply Z.div_pos; lia).
  replace (k + 1 - 1) with k by lia.
  f_equal.
  - rewrite (Z.pow_add_r 2 k 1) by lia. change (2 ^ 1) with 2.
    by rewrite Z.div_div by lia.
  - (* odd (m / 2^(k-1)) || (m mod 2^(k-1) ≠ 0)  =  m mod 2^k ≠ 0 *)
    pose proof (pow2_pred k Hk) as Hk2.
    pose proof (Z.div_mod m (2 ^ (k - 1)) ltac:(lia)) as Hdm.
    pose proof (Z.mod_pos_bound m (2 ^ (k - 1)) Hp') as Hb.
    set (a := m / 2 ^ (k - 1)) in *. set (b := m mod 2 ^ (k - 1)) in *.
    pose proof (Z.div_mod a 2 ltac:(lia)) as Hdm2.
    pose proof (Z.mod_pos_bound a 2 ltac:(lia)) as Hb2.
    assert (m mod 2 ^ k = (a mod 2) * 2 ^ (k - 1) + b) as ->.
    { symmetry. apply Z.mod_unique with (a / 2); [left; nia|nia]. }
    rewrite Zodd_mod.
    destruct (Z.eqb_spec (a mod 2) 1), (Z.eqb_spec b 0),
      (Z.eqb_spec (a mod 2 * 2 ^ (k - 1) + b) 0); simpl; try done; nia.
Qed.

Lemma iter_shr_1 m (k : nat) : 0 <= m →
  Nat.iter (Datatypes.S k) shr_1 {| shr_m := m; shr_r := false; shr_s := false |}
  = shifted m (Z.of_nat (Datatypes.S k)).
Proof.
  intros Hm. induction k as [|k IH].
  - cbn [Nat.iter nat_rect]. by apply shifted_first.
  - rewrite Nat.iter_succ, IH, shifted_next by (done || lia).
    f_equal. lia.
Qed.

Lemma shr_shifted m e (p : positive) : 0 <= m →
  shr {| shr_m := m; shr_r := false; shr_s := false |} e (Z.pos p)
  = (shifted m (Z.pos p), e + Z.pos p).
Proof.
  intros Hm. unfold shr. rewrite iter_pos_nat.
  destruct (Pos2Nat.is_succ p) as [k Hk]. rewrite Hk, iter_shr_1 by done.
  do 2 f_equal. lia.
Qed.

(** Rounding the shifted record is [rne]. *)
Lemma round_shifted m k : 0 <= m → 1 <= k →
  round_nearest_even (shr_m (shifted m k)) (loc_of_shr_record (shifted m k))
  = rne m k.
Proof.
  intros Hm Hk. unfold shifted, rne. cbn [shr_m].
  pose proof (pow2_pos k ltac:(lia)) as Hp.
  pose proof (pow2_pos (k - 1) ltac:(lia)) as Hp'.
  pose proof (pow2_pred k Hk) as Hk2.
  pose proof (Z.div_mod m (2 ^ (k - 1)) ltac:(lia)) as Hdm.
  pose proof (Z.mod_pos_bound m (2 ^ (k - 1)) Hp') as Hb.
  set (a := m / 2 ^ (k - 1)) in *. set (b := m mod 2 ^ (k - 1)) in *.
  pose proof (Z.div_mod a 2 ltac:(lia)) as Hdm2.
  pose proof (Z.mod_pos_bound a 2 ltac:(lia)) as Hb2.
  assert (m mod 2 ^ k = (a mod 2) * 2 ^ (k - 1) + b) as ->.
  { symmetry. apply Z.mod_unique with (a / 2); [left; nia|nia]. }
  assert (m / 2 ^ k = a / 2) as ->.
  { symmetry. apply Z.div_unique with ((a mod 2) * 2 ^ (k - 1) + b);
      [left; nia|nia]. }
  rewrite Zodd_mod. unfold loc_of_shr_record, round_nearest_even.
  destruct (Z.eqb_spec (a mod 2) 1) as [H1|H1], (Z.eqb_spec b 0) as [H0|H0];
    cbn [negb].
  - (* tie *)
    destruct (Z.ltb_spec (2 * (a mod 2 * 2 ^ (k - 1) + b)) (2 ^ k)); [nia|].
    destruct (Z.ltb_spec (2 ^ k) (2 * (a mod 2 * 2 ^ (k - 1) + b))); [nia|].
    done.
  - destruct (Z.ltb_spec (2 * (a mod 2 * 2 ^ (k - 1) + b)) (2 ^ k)); [nia|].
    destruct (Z.ltb_spec (2 ^ k) (2 * (a mod 2 * 2 ^ (k - 1) + b))); [|nia].
    done.
  - destruct (Z.ltb_spec (2 * (a mod 2 * 2 ^ (k - 1) + b)) (2 ^ k)); [|nia].
    done.
  - destruct (Z.ltb_spec (2 * (a mod 2 * 2 ^ (k - 1) + b)) (2 ^ k)); [|nia].
    done.
Qed.

Lemma fexp_eq x : fexp 53 1024 x = Z.max (x - 53) (-1074).
Proof. done. Qed.

Lemma shr_fexp_exact m e : 0 <= m →
  shr_fexp 53 1024 m e loc_Exact
  = if 0 <? fexp 53 1024 (Zdigits2 m + e) - e
    then (shifted m (fexp 53 1024 (Zdigits2 m + e) - e),
          e + (fexp 53 1024 (Zdigits2 m + e) - e))
    else ({| shr_m := m; shr_r := false; shr_s := false |}, e).
Proof.
  intros Hm. unfold shr_fexp. cbn [shr_record_of_loc].
  destruct (fexp 53 1024 (Zdigits2 m + e) - e) as [|p|p] eqn:Hn; [done| |done].
  by rewrite shr_shifted.
Qed.

Lemma Zdigits2_log2 m : 0 < m → Zdigits2 m = Z.log2 m + 1.
Proof. destruct m as [|p|p]; [lia| |lia]. intros _. apply digits2_log2. Qed.

Lemma rne_zero_shift m : rne m 0 = m.
Proof.
  unfold rne. change (2 ^ 0) with 1. rewrite Z.div_1_r, Z.mod_1_r. done.
Qed.

Lemma OVER_eq : OVER = 2 ^ 53 * 2 ^ (971 + 2148).
Proof. unfold OVER. rewrite <- Z.pow_add_r by lia. done. Qed.

(** The rounding of SpecFloat, by value. *)
Lemma round_aux_val (sx : bool) (m : positive) (e : Z) :
  -2148 <= e → e <= fexp 53 1024 (Z.pos (digits2_pos m) + e) →
  binary_round_aux 53 1024 sx (Z.pos m) e loc_Exact ≠ S754_nan ∧
  sf_val (binary_round_aux 53 1024 sx (Z.pos m) e loc_Exact)
  = sgn sx (Z.min (rnd (Z.pos m * 2 ^ (e + 2148))) OVER).
Proof.
  intros He Hn.
  set (d := Z.pos (digits2_pos m)) in *.
  set (E := fexp 53 1024 (d + e)) in *.
  set (n := E - e).
  assert (0 <= n) as Hn0 by (unfold n; lia).
  pose proof (digits2_log2 m) as Hd. fold d in Hd.
  pose proof (Z.log2_spec (Z.pos m) ltac:(lia)) as [Hlo Hhi].
  replace (Z.succ (Z.log2 (Z.pos m))) with d in Hhi by lia.
  replace (Z.log2 (Z.pos m)) with (d - 1) in Hlo by lia.
  assert (1 <= d) as Hd1 by (pose proof (Z.log2_nonneg (Z.pos m)); lia).
  pose proof (fexp_eq (d + e)) as HE. fold E in HE.
  (* the value and its grid *)
  assert (grid (Z.pos m * 2 ^ (e + 2148)) = E + 2148) as Hgrid.
  { unfold grid. rewrite Z.log2_mul_pow2 by lia. lia. }
  assert (rnd (Z.pos m * 2 ^ (e + 2148))
          = rne (Z.pos m) n * 2 ^ (E + 2148)) as Hrnd.
  { unfold rnd. rewrite Hgrid.
    replace (E + 2148) with (n + (e + 2148)) at 1 by (unfold n; lia).
    by rewrite rne_shift by lia. }
  rewrite Hrnd. clear Hrnd Hgrid.
  (* the first shift *)
  assert (∃ mrs, shr_fexp 53 1024 (Z.pos m) e loc_Exact = (mrs, E) ∧
            round_nearest_even (shr_m mrs) (loc_of_shr_record mrs)
            = rne (Z.pos m) n) as (mrs & Hshr & Hround).
  { rewrite shr_fexp_exact by lia. cbn [Zdigits2]. fold d E n.
    destruct (Z.ltb_spec 0 n) as [Hpos|Hz].
    - eexists. split; [f_equal; unfold n; lia|].
      apply round_shifted; lia.
    - eexists. split; [f_equal; unfold n in *; lia|].
      cbn. replace n with 0 by lia. by rewrite rne_zero_shift. }
  unfold binary_round_aux. rewrite Hshr, Hround. clear Hshr Hround mrs.
  set (m1 := rne (Z.pos m) n).
  pose proof (pow2_pos n Hn0) as Hpn.
  pose proof (rne_lower (Z.pos m) n Hn0) as [Hq1 Hq2]. fold m1 in Hq1, Hq2.
  assert (0 <= Z.pos m / 2 ^ n) as Hq0 by (apply Z.div_pos; lia).
  rewrite shr_fexp_exact by lia.
  destruct (Z.eq_dec m1 0) as [Hz|Hnz].
  { (* the result is zero *)
    rewrite Hz. cbn [Zdigits2].
    destruct (Z.ltb_spec 0 (fexp 53 1024 (0 + E) - E)) as [Hlt|_].
    { rewrite fexp_eq in Hlt. lia. }
    cbn. split; [done|]. by destruct sx. }
  assert (0 < m1) as Hm1 by lia.
  rewrite (Zdigits2_log2 m1 Hm1).
  pose proof (Z.log2_spec m1 Hm1) as [Hl1 Hl2].
  rewrite fexp_eq.
  pose proof (pow2_pos (E + 2148) ltac:(lia)) as HpE.
  destruct (Z.le_gt_cases (-1074) (d + e - 53)) as [Hnormal|Hsub].
  - (* the binade of the normal doubles *)
    assert (E = d + e - 53) as HEn by lia.
    assert (n = d - 53) as Hnd by (unfold n; lia).
    assert (2 ^ 52 <= Z.pos m / 2 ^ n < 2 ^ 53) as Hq.
    { split.
      - apply Z.div_le_lower_bound; [lia|].
        rewrite <- Z.pow_add_r by lia.
        replace (n + 52) with (d - 1) by lia. done.
      - apply Z.div_lt_upper_bound; [lia|].
        rewrite <- Z.pow_add_r by lia.
        replace (n + 53) with d by lia. done. }
    destruct (Z.eq_dec m1 (2 ^ 53)) as [Hcarry|Hnc].
    + (* the mantissa carried into the next binade *)
      assert (Z.log2 m1 = 53) as -> by (rewrite Hcarry; done).
      destruct (Z.ltb_spec 0 (Z.max (53 + 1 + E - 53) (-1074) - E)) as [_|?];
        [|lia].
      replace (Z.max (53 + 1 + E - 53) (-1074) - E) with 1 by lia.
      rewrite Hcarry. cbn [shifted shr_m].
      change (2 ^ 53 / 2 ^ 1) with (Z.pos (2 ^ 52)%positive).
      cbv iota beta.
      destruct (Z.leb_spec (E + 1) (1024 - 53)) as [Hfit|Hover].
      * split; [done|]. cbn [sf_val]. f_equal.
        rewrite Z.min_l.
        -- replace (E + 1 + 2148) with (1 + (E + 2148)) by lia.
           rewrite Z.pow_add_r by lia.
           change (Z.pos (2 ^ 52)) with (2 ^ 52). change (2 ^ 1) with 2.
           change (2 ^ 53) with (2 ^ 52 * 2). lia.
        -- rewrite OVER_eq.
           assert (2 ^ (E + 2148) <= 2 ^ (970 + 2148))
             by (apply Z.pow_le_mono_r; lia).
           replace (971 + 2148) with (1 + (970 + 2148)) by lia.
           rewrite (Z.pow_add_r 2 1) by lia. change (2 ^ 1) with 2. nia.
      * split; [done|]. cbn [sf_val]. f_equal.
        rewrite Z.min_r; [done|]. rewrite OVER_eq.
        assert (2 ^ (971 + 2148) <= 2 ^ (E + 2148))
          by (apply Z.pow_le_mono_r; lia).
        nia.
    + assert (m1 < 2 ^ 53) as Hlt53 by lia.
      assert (Z.log2 m1 = 52) as ->.
      { apply Z.log2_unique; [lia|]. split; [lia|]. done. }
      destruct (Z.ltb_spec 0 (Z.max (52 + 1 + E - 53) (-1074) - E)) as [?|_];
        [lia|].
      cbn [shr_m fst snd]. destruct m1 as [|p1|p1] eqn:Hp1; [lia| |lia].
      destruct (Z.leb_spec E (1024 - 53)) as [Hfit|Hover].
      * split; [done|]. cbn [sf_val]. f_equal.
        rewrite Z.min_l; [done|]. rewrite OVER_eq.
        assert (2 ^ (E + 2148) <= 2 ^ (971 + 2148))
          by (apply Z.pow_le_mono_r; lia).
        nia.
      * split; [done|]. cbn [sf_val]. f_equal.
        rewrite Z.min_r; [done|]. unfold OVER.
        assert (2 ^ (972 + 2148) <= 2 ^ (E + 2148))
          by (apply Z.pow_le_mono_r; lia).
        change (2 ^ 3172) with (2 ^ 52 * 2 ^ (972 + 2148)). nia.
  - (* the binade of the subnormal doubles *)
    assert (E = -1074) as HEs by lia.
    assert (d <= n + 52) as Hdn by (unfold n; lia).
    assert (Z.pos m / 2 ^ n < 2 ^ 52) as Hq.
    { apply Z.div_lt_upper_bound; [lia|].
      rewrite <- Z.pow_add_r by lia.
      eapply Z.lt_le_trans; [done|]. apply Z.pow_le_mono_r; lia. }
    assert (Z.log2 m1 <= 52) as Hlog.
    { destruct (Z.eq_dec m1 (2 ^ 52)) as [->|?]; [done|].
      assert (Z.log2 m1 < 52); [|lia]. apply Z.log2_lt_pow2; lia. }
    destruct (Z.ltb_spec 0 (Z.max (Z.log2 m1 + 1 + E - 53) (-1074) - E))
      as [?|_]; [lia|].
    cbn [shr_m fst snd]. destruct m1 as [|p1|p1] eqn:Hp1; [lia| |lia].
    destruct (Z.leb_spec E (1024 - 53)) as [Hfit|Hover]; [|lia].
    split; [done|]. cbn [sf_val]. f_equal.
    rewrite Z.min_l; [done|]. rewrite OVER_eq, HEs.
    assert (2 ^ (-1074 + 2148) <= 2 ^ (971 + 2148))
      by (apply Z.pow_le_mono_r; lia).
    nia.
Qed.

Lemma iter_xO (m d : positive) :
  Z.pos (Pos.iter xO m d) = Z.pos m * 2 ^ Z.pos d.
Proof.
  induction d as [|d IH] using Pos.peano_ind.
  - cbn [Pos.iter]. change (2 ^ 1) with 2. lia.
  - rewrite Pos.iter_succ. change (Z.pos (Pos.iter xO m d)~0)
      with (2 * Z.pos (Pos.iter xO m d)).
    rewrite IH, Pos2Z.inj_succ, Z.pow_succ_r by lia. lia.
Qed.

Lemma binary_round_val (sx : bool) (m : positive) (e : Z) :
  -2148 <= e →
  binary_round 53 1024 sx m e ≠ S754_nan ∧
  sf_val (binary_round 53 1024 sx m e)
  = sgn sx (Z.min (rnd (Z.pos m * 2 ^ (e + 2148))) OVER).
Proof.
  intros He. unfold binary_round.
  set (E := fexp 53 1024 (Z.pos (digits2_pos m) + e)).
  pose proof (fexp_eq (Z.pos (digits2_pos m) + e)) as HE. fold E in HE.
  unfold shl_align. destruct (E - e) as [|p|p] eqn:Hd.
  - apply round_aux_val; [done|]. fold E. lia.
  - apply round_aux_val; [done|]. fold E. lia.
  - assert (Z.pos (Pos.iter xO m p) * 2 ^ (E + 2148)
            = Z.pos m * 2 ^ (e + 2148)) as <-.
    { rewrite iter_xO. replace (e + 2148) with (Z.pos p + (E + 2148)) by lia.
      rewrite (Z.pow_add_r 2 (Z.pos p) (E + 2148)) by lia. ring. }
    apply round_aux_val; [lia|].
    rewrite digits2_log2, iter_xO, Z.log2_mul_pow2 by lia.
    rewrite fexp_eq. pose proof (digits2_log2 m). lia.
Qed.

Lemma xrnd_opp V : xrnd (- V) = - xrnd V.
Proof.
  unfold xrnd. destruct (Z.ltb_spec (- V) 0), (Z.ltb_spec V 0); try lia.
  - by rewrite Z.opp_involutive.
  - replace V with 0 by lia. done.
Qed.

Lemma binary_normalize_val (m e : Z) (sz : bool) :
  -2148 <= e →
  binary_normalize 53 1024 m e sz ≠ S754_nan ∧
  sf_val (binary_normalize 53 1024 m e sz) = xrnd (m * 2 ^ (e + 2148)).
Proof.
  intros He. pose proof (pow2_pos (e + 2148) ltac:(lia)) as Hp.
  destruct m as [|p|p]; cbn [binary_normalize].
  - done.
  - destruct (binary_round_val false p e He) as [Hn Hv].
    split; [done|]. rewrite Hv. unfold xrnd, sgn.
    destruct (Z.ltb_spec (Z.pos p * 2 ^ (e + 2148)) 0); [nia|done].
  - destruct (binary_round_val true p e He) as [Hn Hv].
    split; [done|]. rewrite Hv. unfold xrnd, sgn.
    destruct (Z.ltb_spec (Z.neg p * 2 ^ (e + 2148)) 0); [|nia].
    do 3 f_equal. lia.
Qed.

(** Valid doubles *)
Lemma bounded_spec (m : positive) (e : Z) :
  bounded 53 1024 m e = true →
  -1074 <= e <= 971 ∧ Z.pos m < 2 ^ 53 ∧ (2 ^ 52 <= Z.pos m ∨ e = -1074).
Proof.
  unfold bounded, canonical_mantissa. rewrite andb_true_iff, fexp_eq.
  intros [Hc He]. apply Z.eqb_eq in Hc. apply Z.leb_le in He.
  rewrite digits2_log2 in Hc.
  pose proof (Z.log2_spec (Z.pos m) ltac:(lia)) as [Hlo Hhi].
  change (1024 - 53) with 971 in He.
  split; [lia|]. split.
  - eapply Z.lt_le_trans; [done|]. apply Z.pow_le_mono_r; lia.
  - destruct (Z.eq_dec e (-1074)) as [|Hne]; [by right|left].
    etrans; [|done]. apply Z.pow_le_mono_r; lia.
Qed.

Lemma valid_representable (f : spec_float) :
  valid_binary f = true → is_fin f = true → representable (Z.abs (sf_val f)).
Proof.
  destruct f as [s|s| |s m e]; try done; intros Hv _.
  - exists 0, 1074. cbn. split; [done|]. split; [done|]. split; [done|].
    by right.
  - apply bounded_spec in Hv as (He & Hm & Hc).
    exists (Z.pos m), (e + 2148). split.
    { pose proof (pow2_pos (e + 2148) ltac:(lia)).
      cbn [sf_val]. destruct s; cbn [sgn]; lia. }
    split; [lia|]. split; [lia|]. lia.
Qed.

Lemma xrnd_fix V : representable (Z.abs V) → Z.abs V < OVER → xrnd V = V.
Proof.
  intros Hr Hlt. unfold xrnd. destruct (Z.ltb_spec V 0).
  - replace (- V) with (Z.abs V) by lia. rewrite rnd_fix by done. lia.
  - replace V with (Z.abs V) at 1 2 by lia. rewrite rnd_fix by done. lia.
Qed.

Lemma valid_below_over (f : spec_float) :
  valid_binary f = true → is_fin f = true → Z.abs (sf_val f) < OVER.
Proof.
  destruct f as [s|s| |s m e]; try done; intros Hv _.
  apply bounded_spec in Hv as (He & Hm & Hc). cbn [sf_val].
  rewrite OVER_eq.
  assert (2 ^ (e + 2148) <= 2 ^ (971 + 2148))
    by (apply Z.pow_le_mono_r; lia).
  pose proof (pow2_pos (e + 2148) ltac:(lia)).
  destruct s; cbn [sgn]; nia.
Qed.

Lemma xrnd_valid (f : spec_float) :
  valid_binary f = true → is_fin f = true → xrnd (sf_val f) = sf_val f.
Proof.
  intros Hv Hf. apply xrnd_fix; [by apply valid_representable|].
  by apply valid_below_over.
Qed.

Lemma xrnd_0 : xrnd 0 = 0.
Proof. done. Qed.

Lemma shl_align_fst (m : positive) (e e' : Z) :
  e' <= e → Z.pos (fst (shl_align m e e')) = Z.pos m * 2 ^ (e - e').
Proof.
  intros Hle. unfold shl_align. destruct (e' - e) as [|p|p] eqn:Hd; [|lia|].
  - cbn [fst]. replace (e - e') with 0 by lia. change (2 ^ 0) with 1. lia.
  - cbn [fst]. rewrite iter_xO. do 2 f_equal. lia.
Qed.

Lemma sgn_cond_Zopp s v : cond_Zopp s v = sgn s v.
Proof. done. Qed.

Lemma sgn_mul s v w : sgn s v * w = sgn s (v * w).
Proof. destruct s; cbn; lia. Qed.

Lemma aligned_val (s : bool) (m : positive) (e ez : Z) :
  ez <= e → -2148 <= ez →
  cond_Zopp s (Z.pos (fst (shl_align m e ez))) * 2 ^ (ez + 2148)
  = sgn s (Z.pos m * 2 ^ (e + 2148)).
Proof.
  intros Hle Hez. rewrite sgn_cond_Zopp, sgn_mul, shl_align_fst by done.
  f_equal. replace (e + 2148) with ((e - ez) + (ez + 2148)) by lia.
  rewrite (Z.pow_add_r 2 (e - ez)) by lia. ring.
Qed.

Lemma SFadd_val (a b : spec_float) :
  valid_binary a = true → valid_binary b = true →
  is_fin a = true → is_fin b = true →
  is_num (SF64add a b) = true ∧
  sf_val (SF64add a b) = xrnd (sf_val a + sf_val b).
Proof.
  intros Ha Hb Hfa Hfb.
  destruct a as [sa|sa| |sa ma ea], b as [sb|sb| |sb mb eb]; try done.
  - by destruct sa, sb.
  - split; [done|]. cbn [SF64add SFadd]. rewrite Z.add_0_l.
    by rewrite xrnd_valid.
  - split; [done|]. cbn [SF64add SFadd]. rewrite Z.add_0_r.
    by rewrite xrnd_valid.
  - pose proof (bounded_spec ma ea Ha) as (Hea & _).
    pose proof (bounded_spec mb eb Hb) as (Heb & _).
    unfold SF64add, SFadd, FloatOps.prec, FloatOps.emax. cbv zeta.
    destruct (binary_normalize_val
                (cond_Zopp sa (Z.pos (fst (shl_align ma ea (Z.min ea eb))))
                 + cond_Zopp sb (Z.pos (fst (shl_align mb eb (Z.min ea eb)))))
                (Z.min ea eb) false ltac:(lia)) as [Hn Hv].
    split; [by destruct (binary_normalize _ _ _ _ _)|].
    rewrite Hv. f_equal. rewrite Z.mul_add_distr_r.
    rewrite !aligned_val by lia. done.
Qed.

Lemma SFsub_val (a b : spec_float) :
  valid_binary a = true → valid_binary b = true →
  is_fin a = true → is_fin b = true →
  is_num (SF64sub a b) = true ∧
  sf_val (SF64sub a b) = xrnd (sf_val a - sf_val b).
Proof.
  intros Ha Hb Hfa Hfb.
  destruct a as [sa|sa| |sa ma ea], b as [sb|sb| |sb mb eb]; try done.
  - by destruct sa, sb.
  - split; [done|]. cbn [SF64sub SFsub]. rewrite Z.sub_0_l, xrnd_opp.
    rewrite (xrnd_valid (S754_finite sb mb eb)) by done.
    cbn [sf_val]. destruct sb; cbn [negb sgn]; lia.
  - split; [done|]. cbn [SF64sub SFsub]. rewrite Z.sub_0_r.
    by rewrite xrnd_valid.
  - pose proof (bounded_spec ma ea Ha) as (Hea & _).
    pose proof (bounded_spec mb eb Hb) as (Heb & _).
    unfold SF64sub, SFsub, FloatOps.prec, FloatOps.emax. cbv zeta.
    destruct (binary_normalize_val
                (cond_Zopp sa (Z.pos (fst (shl_align ma ea (Z.min ea eb))))
                 - cond_Zopp sb (Z.pos (fst (shl_align mb eb (Z.min ea eb)))))
                (Z.min ea eb) false ltac:(lia)) as [Hn Hv].
    split; [by destruct (binary_normalize _ _ _ _ _)|].
    rewrite Hv. f_equal. rewrite Z.mul_sub_distr_r.
    rewrite !aligned_val by lia. done.
Qed.

Lemma SFmul_val (a b : spec_float) :
  valid_binary a = true → valid_binary b = true →
  is_fin a = true → is_fin b = true →
  is_num (SF64mul a b) = true ∧
  ∃ P, P * 2 ^ 2148 = sf_val a * sf_val b ∧
       sf_val (SF64mul a b) = xrnd P.
Proof.
  intros Ha Hb Hfa Hfb.
  destruct a as [sa|sa| |sa ma ea], b as [sb|sb| |sb mb eb]; try done.
  - split; [done|]. by exists 0.
  - split; [done|]. exists 0. split; [|done]. cbn [sf_val]. lia.
  - split; [done|]. exists 0. split; [|done]. cbn [sf_val]. lia.
  - pose proof (bounded_spec ma ea Ha) as (Hea & Hma & Hca).
    pose proof (bounded_spec mb eb Hb) as (Heb & Hmb & Hcb).
    unfold SF64mul, SFmul, FloatOps.prec, FloatOps.emax.
    destruct (round_aux_val (xorb sa sb) (ma * mb) (ea + eb)) as [Hn Hv].
    { lia. }
    { rewrite fexp_eq, digits2_log2, Pos2Z.inj_mul.
      pose proof (Z.log2_mul_below (Z.pos ma) (Z.pos mb) ltac:(lia) ltac:(lia)).
      pose proof (Z.log2_nonneg (Z.pos ma)).
      pose proof (Z.log2_nonneg (Z.pos mb)).
      assert (∀ m, 2 ^ 52 <= m → 52 <= Z.log2 m) as Hlog
        by (intros m ?; by apply Z.log2_le_pow2; lia).
      destruct Hca as [Hca|Hca], Hcb as [Hcb|Hcb];
        try apply Hlog in Hca; try apply Hlog in Hcb; lia. }
    split; [by destruct (binary_round_aux _ _ _ _ _ _)|].
    exists (sgn (xorb sa sb)
              (Z.pos (ma * mb) * 2 ^ (ea + eb + 2148))).
    split.
    + cbn [sf_val]. rewrite Pos2Z.inj_mul.
      replace (ea + eb + 2148 ) with ((ea + 2148) + eb) by lia.
      assert (2 ^ (ea + 2148 + eb) * 2 ^ 2148
              = 2 ^ (ea + 2148) * 2 ^ (eb + 2148)) as Hpow.
      { rewrite <- !Z.pow_add_r by lia. f_equal. lia. }
      destruct sa, sb; cbn [xorb sgn]; nia.
    + rewrite Hv. unfold xrnd, sgn.
      pose proof (pow2_pos (ea + eb + 2148) ltac:(lia)).
      destruct (xorb sa sb).
      * destruct (Z.ltb_spec (- (Z.pos (ma * mb) * 2 ^ (ea + eb + 2148))) 0);
          [|nia]. by rewrite Z.opp_involutive.
      * destruct (Z.ltb_spec (Z.pos (ma * mb) * 2 ^ (ea + eb + 2148)) 0);
          [nia|done].
Qed.

(** The order of valid doubles is the order of their values. *)
Lemma SFcompare_val (a b : spec_float) :
  valid_binary a = true → valid_binary b = true →
  is_num a = true → is_num b = true →
  SFcompare a b = Some (sf_val a ?= sf_val b).
Proof.
  intros Ha Hb Hna Hnb.
  assert (0 < OVER) as HO by done.
  assert (∀ (s : bool) m e, bounded 53 1024 m e = true →
            0 < Z.pos m * 2 ^ (e + 2148) < OVER) as Hpos.
  { intros s m e Hv.
    pose proof (valid_below_over (S754_finite false m e) Hv eq_refl) as Hlt.
    cbn in Hlt. apply bounded_spec in Hv as (He & _).
    pose proof (pow2_pos (e + 2148) ltac:(lia)). lia. }
  destruct a as [sa|sa| |sa ma ea], b as [sb|sb| |sb mb eb]; try done;
    cbn [SFcompare sf_val];
    try pose proof (Hpos sa ma ea Ha) as Hva;
    try pose proof (Hpos sb mb eb Hb) as Hvb;
    try (f_equal; symmetry; try destruct sa; try destruct sb; cbn [sgn];
         first [apply Z.compare_eq_iff; lia | apply Z.compare_lt_iff; lia
               | apply Z.compare_gt_iff; lia]).
  (* two finite doubles *)
  pose proof (bounded_spec ma ea Ha) as (Hea & Hma & Hca).
  pose proof (bounded_spec mb eb Hb) as (Heb & Hmb & Hcb).
  change (PosDef.Pos.compare_cont Eq ma mb) with (Pos.compare ma mb).
  rewrite Pos2Z.inj_compare.
  assert (ea < eb → Z.pos ma * 2 ^ (ea + 2148) < Z.pos mb * 2 ^ (eb + 2148))
    as Hlt.
  { intros Hlt. destruct Hcb as [Hcb|?]; [|lia].
    pose proof (pow2_pos (ea + 2148) ltac:(lia)).
    assert (2 ^ (ea + 2148) * 2 <= 2 ^ (eb + 2148)).
    { replace (2 ^ (ea + 2148) * 2) with (2 ^ (ea + 2148 + 1))
        by (rewrite Z.pow_add_r by lia; done).
      apply Z.pow_le_mono_r; lia. }
    change (2 ^ 53) with (2 ^ 52 * 2) in Hma. nia. }
  assert (eb < ea → Z.pos mb * 2 ^ (eb + 2148) < Z.pos ma * 2 ^ (ea + 2148))
    as Hgt.
  { intros Hlt'. destruct Hca as [Hca|?]; [|lia].
    pose proof (pow2_pos (eb + 2148) ltac:(lia)).
    assert (2 ^ (eb + 2148) * 2 <= 2 ^ (ea + 2148)).
    { replace (2 ^ (eb + 2148) * 2) with (2 ^ (eb + 2148 + 1))
        by (rewrite Z.pow_add_r by lia; done).
      apply Z.pow_le_mono_r; lia. }
    change (2 ^ 53) with (2 ^ 52 * 2) in Hmb. nia. }
  f_equal. symmetry.
  destruct sa, sb; cbn [sgn].
  + destruct (Z.compare_spec ea eb) as [->| |].
    * pose proof (pow2_pos (eb + 2148) ltac:(lia)).
      destruct (Z.compare_spec (Z.pos ma) (Z.pos mb)); cbn [CompOpp];
        first [apply Z.compare_eq_iff; nia | apply Z.compare_lt_iff; nia
              | apply Z.compare_gt_iff; nia].
    * apply Z.compare_gt_iff. specialize (Hlt ltac:(lia)). lia.
    * apply Z.compare_lt_iff. specialize (Hgt ltac:(lia)). lia.
  + apply Z.compare_lt_iff. lia.
  + apply Z.compare_gt_iff. lia.
  + destruct (Z.compare_spec ea eb) as [->| |].
    * pose proof (pow2_pos (eb + 2148) ltac:(lia)).
      destruct (Z.compare_spec (Z.pos ma) (Z.pos mb));
        first [apply Z.compare_eq_iff; nia | apply Z.compare_lt_iff; nia
              | apply Z.compare_gt_iff; nia].
    * apply Z.compare_lt_iff. specialize (Hlt ltac:(lia)). lia.
    * apply Z.compare_gt_iff. specialize (Hgt ltac:(lia)). lia.
Qed.

Lemma OVER_pos : 0 < OVER.
Proof. done. Qed.

Lemma xrnd_mono V1 V2 : V1 <= V2 → xrnd V1 <= xrnd V2.
Proof.
  intros Hle. unfold xrnd. pose proof OVER_pos.
  destruct (Z.ltb_spec V1 0), (Z.ltb_spec V2 0).
  - pose proof (rnd_mono (- V2) (- V1) ltac:(lia)). lia.
  - pose proof (rnd_nonneg (- V1) ltac:(lia)).
    pose proof (rnd_nonneg V2 ltac:(lia)). lia.
  - lia.
  - pose proof (rnd_mono V1 V2 ltac:(lia)). lia.
Qed.

Lemma xrnd_bound V : - OVER <= xrnd V <= OVER.
Proof.
  unfold xrnd. pose proof OVER_pos.
  destruct (Z.ltb_spec V 0).
  - pose proof (rnd_nonneg (- V) ltac:(lia)). lia.
  - pose proof (rnd_nonneg V ltac:(lia)). lia.
Qed.

Lemma xrnd_nonneg V : 0 <= V → 0 <= xrnd V.
Proof. intros. rewrite <- xrnd_0. by apply xrnd_mono. Qed.

Lemma xrnd_nonpos V : V <= 0 → xrnd V <= 0.
Proof. intros. rewrite <- xrnd_0. by apply xrnd_mono. Qed.

Lemma representable_pow2 N : 1074 + 52 <= N → representable (2 ^ N).
Proof.
  intros HN. exists (2 ^ 52), (N - 52). split.
  - rewrite <- Z.pow_add_r by lia. f_equal. lia.
  - split; [done|]. split; [lia|]. by left.
Qed.

Lemma xrnd_OVER : xrnd OVER = OVER.
Proof.
  unfold xrnd. destruct (Z.ltb_spec OVER 0); [done|].
  rewrite rnd_fix; [lia|]. by apply representable_pow2.
Qed.

(** Nothing is rounded across a double. *)
Lemma xrnd_le_repr V g :
  representable (Z.abs g) → Z.abs g < OVER → V <= g → xrnd V <= g.
Proof.
  intros Hr Hlt Hle. rewrite <- (xrnd_fix g) by done. by apply xrnd_mono.
Qed.

Lemma xrnd_ge_repr V g :
  representable (Z.abs g) → Z.abs g < OVER → g <= V → g <= xrnd V.
Proof.
  intros Hr Hlt Hle. rewrite <- (xrnd_fix g) by done. by apply xrnd_mono.
Qed.

(** A double below the rounding of [v] is not above [v]. *)
Lemma below_rounded v g :
  representable (Z.abs g) → Z.abs g < OVER → g < xrnd v → g <= v.
Proof.
  intros Hr Hlt Hg. destruct (Z.le_gt_cases g v) as [|Hgt]; [done|].
  pose proof (xrnd_le_repr v g Hr Hlt ltac:(lia)). lia.
Qed.

(** On the coarsest grid a difference of doubles is a double. *)
Lemma xrnd_small_exact v :
  (2 ^ 1074 | v) → 0 <= v → xrnd v < 2 ^ (1074 + 53) → xrnd v = v.
Proof.
  intros Hdiv Hv Hlt.
  assert (v < 2 ^ (1074 + 53)) as Hv'.
  { destruct (Z.lt_ge_cases v (2 ^ (1074 + 53))) as [|Hge]; [done|].
    pose proof (xrnd_ge_repr v (2 ^ (1074 + 53))) as Hx.
    rewrite Z.abs_eq in Hx by done.
    specialize (Hx (representable_pow2 (1074 + 53) ltac:(lia)) ltac:(done)
                  Hge). lia. }
  unfold xrnd. destruct (Z.ltb_spec v 0); [lia|].
  rewrite rnd_exact_small by done.
  assert (2 ^ (1074 + 53) < OVER) by done. lia.
Qed.

(** Values up to half a step above a double of full mantissa are rounded
    down to it. *)
Lemma rnd_to_lower (m N V : Z) :
  2 ^ 52 <= m < 2 ^ 53 → 1074 <= N →
  m * 2 ^ N <= V → 2 * (V - m * 2 ^ N) < 2 ^ N →
  rnd V = m * 2 ^ N.
Proof.
  intros Hm HN Hlo Hhi. pose proof (pow2_pos N ltac:(lia)) as Hp.
  assert (Z.log2 V = 52 + N) as Hlog.
  { apply Z.log2_unique; [lia|]. rewrite Z.pow_add_r by lia.
    replace (2 ^ (Z.succ (52 + N))) with (2 ^ 53 * 2 ^ N)
      by (rewrite <- Z.pow_add_r by lia; f_equal; lia).
    nia. }
  unfold rnd, grid. rewrite Hlog.
  replace (Z.max (52 + N + 1 - 53) 1074) with N by lia.
  f_equal. unfold rne.
  assert (V / 2 ^ N = m) as ->
    by (symmetry; apply Z.div_unique with (V - m * 2 ^ N); lia).
  assert (V mod 2 ^ N = V - m * 2 ^ N) as ->
    by (symmetry; apply Z.mod_unique with m; lia).
  destruct (Z.ltb_spec (2 * (V - m * 2 ^ N)) (2 ^ N)); [done|lia].
Qed.

(** One step of the update rule, by value: the increment
    [alpha * (x - w)], rounded, lies between 0 and the exact difference
    [v = x - w] when [alpha] is a double between 0 and 1 and the rounded
    difference is finite. *)
Lemma increment_between_pos (v A Pe : Z) :
  (2 ^ 1074 | v) → 0 <= v → xrnd v < OVER → representable (xrnd v) →
  0 < A <= 2 ^ 2148 - 2 ^ (2148 - 53) →
  Pe * 2 ^ 2148 = A * xrnd v →
  0 <= xrnd Pe <= v.
Proof.
  intros Hdiv Hv Hfin Hrep HA HPe.
  set (D := xrnd v) in *.
  assert (0 <= D) as HD by (by apply xrnd_nonneg).
  assert (0 <= Pe <= D) as HPeD.
  { assert (0 < 2 ^ 2148) by done.
    assert (0 < 2 ^ (2148 - 53)) by done. nia. }
  assert (xrnd D = D) as HfixD.
  { apply xrnd_fix; rewrite Z.abs_eq by done; done. }
  split; [apply xrnd_nonneg; lia|].
  destruct (Z.lt_ge_cases D (2 ^ (1074 + 53))) as [Hsmall|Hbig].
  - (* the difference is exact *)
    rewrite <- (xrnd_small_exact v Hdiv Hv Hsmall). fold D.
    rewrite <- HfixD. apply xrnd_mono. lia.
  - (* a double of full mantissa *)
    destruct Hrep as (m & N & HmN & Hm & HN & Hc).
    assert (1075 <= N ∧ 2 ^ 52 <= m) as [HN' Hm'].
    { destruct (Z.eq_dec N 1074) as [->|?].
      - assert (m * 2 ^ 1074 < 2 ^ 53 * 2 ^ 1074).
        { apply Z.mul_lt_mono_pos_r; [done|lia]. }
        change (2 ^ (1074 + 53)) with (2 ^ 53 * 2 ^ 1074) in Hbig. lia.
      - split; [lia|]. destruct Hc; [done|lia]. }
    pose proof (pow2_pos N ltac:(lia)) as HpN.
    pose proof (pow2_pos (N - 53) ltac:(lia)) as HpN53.
    pose proof (pow2_pos (N - 1) ltac:(lia)) as HpN1.
    assert (2 ^ N = 2 ^ (N - 53) * 2 ^ 53) as HN53.
    { rewrite <- Z.pow_add_r by lia. f_equal. lia. }
    assert (2 ^ (N - 1) = 2 ^ (N - 53) * 2 ^ 52) as HN1.
    { rewrite <- Z.pow_add_r by lia. f_equal. lia. }
    assert (2 ^ N = 2 ^ (N - 1) * 2) as HN2 by (apply pow2_pred; lia).
    assert (Pe <= D - m * 2 ^ (N - 53)) as HPe'.
    { assert (2 ^ 2148 = 2 ^ (2148 - 53) * 2 ^ 53) as HK by done.
      assert (0 < 2 ^ (2148 - 53)) as HK' by done.
      set (u := 2 ^ (2148 - 53)) in *. set (h := 2 ^ (N - 53)) in *.
      assert (Pe * (u * 2 ^ 53) <= (u * 2 ^ 53 - u) * (m * (h * 2 ^ 53)))
        as Hb.
      { rewrite <- HK, <- HN53, <- HmN. rewrite HPe.
        apply Z.mul_le_mono_nonneg_r; lia. }
      assert ((u * 2 ^ 53 - u) * (m * (h * 2 ^ 53))
              = (u * 2 ^ 53) * (m * (h * 2 ^ 53) - m * h)) as Heq by ring.
      rewrite Heq in Hb. rewrite HmN, HN53.
      apply Z.mul_le_mono_pos_l with (u * 2 ^ 53); [lia|].
      rewrite (Z.mul_comm _ Pe). lia. }
    assert (∃ g, representable (Z.abs g) ∧ Z.abs g < OVER ∧
                 xrnd Pe <= g ∧ g < D) as (g & Hgr & Hgo & HPg & HgD).
    { destruct (Z.eq_dec m (2 ^ 52)) as [Hpow|Hnpow].
      - (* below a power of two the grid is finer *)
        exists ((2 ^ 53 - 1) * 2 ^ (N - 1)).
        assert (0 <= (2 ^ 53 - 1) * 2 ^ (N - 1) < D) as Hg.
        { rewrite HmN, Hpow, HN2. nia. }
        rewrite Z.abs_eq by lia.
        assert (representable ((2 ^ 53 - 1) * 2 ^ (N - 1))) as Hr.
        { exists (2 ^ 53 - 1), (N - 1). split; [done|]. split; [done|].
          split; [lia|]. by left. }
        split; [done|]. split; [lia|]. split; [|lia].
        apply xrnd_le_repr; rewrite ?Z.abs_eq by lia; [done|lia|].
        rewrite HmN, Hpow, HN53 in HPe'. rewrite HN1. lia.
      - exists ((m - 1) * 2 ^ N).
        assert (0 <= (m - 1) * 2 ^ N < D) as Hg by (rewrite HmN; nia).
        rewrite Z.abs_eq by lia.
        assert (representable ((m - 1) * 2 ^ N)) as Hr.
        { exists (m - 1), N. split; [done|]. split; [lia|].
          split; [lia|]. left. lia. }
        split; [done|]. split; [lia|]. split; [|lia].
        destruct (Z.le_gt_cases Pe ((m - 1) * 2 ^ N)) as [Hle|Hgt].
        + apply xrnd_le_repr; rewrite ?Z.abs_eq by lia; [done|lia|done].
        + unfold xrnd. destruct (Z.ltb_spec Pe 0); [lia|].
          rewrite (rnd_to_lower (m - 1) N Pe); [lia|lia|lia|lia|].
          rewrite HmN in HPe'. rewrite HN53 in *. nia. }
    pose proof (below_rounded v g Hgr Hgo ltac:(fold D; lia)). lia.
Qed.

Lemma finite_number x : finite_double x = true → number x = true.
Proof. unfold finite_double, number. by destruct (Prim2SF x). Qed.

Lemma float_add_val a b :
  finite_double a = true → finite_double b = true →
  number (a + b) = true ∧ fval (a + b) = xrnd (fval a + fval b).
Proof.
  intros Ha Hb. unfold number, fval. rewrite FloatAxioms.add_spec.
  apply SFadd_val; (done || apply Prim2SF_valid).
Qed.

Lemma float_sub_val a b :
  finite_double a = true → finite_double b = true →
  number (a - b) = true ∧ fval (a - b) = xrnd (fval a - fval b).
Proof.
  intros Ha Hb. unfold number, fval. rewrite FloatAxioms.sub_spec.
  apply SFsub_val; (done || apply Prim2SF_valid).
Qed.

Lemma float_mul_val a b :
  finite_double a = true → finite_double b = true →
  number (a * b) = true ∧
  ∃ P, P * 2 ^ 2148 = fval a * fval b ∧ fval (a * b) = xrnd P.
Proof.
  intros Ha Hb. unfold number, fval. rewrite FloatAxioms.mul_spec.
  apply SFmul_val; (done || apply Prim2SF_valid).
Qed.

Lemma float_compare_val a b :
  number a = true → number b = true →
  SFcompare (Prim2SF a) (Prim2SF b) = Some (fval a ?= fval b).
Proof. intros. apply SFcompare_val; (done || apply Prim2SF_valid). Qed.

Lemma float_leb_val a b :
  number a = true → number b = true →
  (a <=? b)%float = (fval a <=? fval b).
Proof.
  intros Ha Hb. rewrite FloatAxioms.leb_spec. unfold SFleb.
  rewrite float_compare_val by done. unfold Z.leb.
  by destruct (fval a ?= fval b).
Qed.

Lemma float_eqb_val a b :
  number a = true → number b = true →
  (a =? b)%float = (fval a =? fval b).
Proof.
  intros Ha Hb. rewrite FloatAxioms.eqb_spec. unfold SFeqb.
  rewrite float_compare_val by done.
  destruct (Z.eqb_spec (fval a) (fval b)) as [->|Hne].
  - by rewrite Z.compare_refl.
  - destruct (fval a ?= fval b) eqn:Hc; try done.
    by apply Z.compare_eq in Hc.
Qed.

Lemma float_ltb_elim a b :
  (a <? b)%float = true →
  number a = true ∧ number b = true ∧ fval a < fval b.
Proof.
  rewrite FloatAxioms.ltb_spec. unfold SFltb. intros Hlt.
  assert (number a = true ∧ number b = true) as [Ha Hb].
  { unfold number. by destruct (Prim2SF a), (Prim2SF b). }
  do 2 (split; [assumption|]).
  rewrite float_compare_val in Hlt by done.
  by destruct (fval a ?= fval b) eqn:Hc.
Qed.

Lemma fval_bound x : - OVER <= fval x <= OVER.
Proof.
  unfold fval. pose proof (Prim2SF_valid x) as Hv.
  pose proof OVER_pos.
  destruct (Prim2SF x) as [s|s| |s m e] eqn:Hx; cbn [sf_val]; try lia.
  - destruct s; cbn [sgn]; lia.
  - pose proof (valid_below_over (S754_finite s m e) Hv eq_refl) as Hb.
    cbn [sf_val] in Hb. lia.
Qed.

Lemma finite_iff x :
  number x = true → (finite_double x = true ↔ Z.abs (fval x) < OVER).
Proof.
  unfold number, finite_double, fval. pose proof (Prim2SF_valid x) as Hv.
  pose proof OVER_pos.
  destruct (Prim2SF x) as [s|s| |s m e] eqn:Hx; cbn [is_num is_fin sf_val].
  - intros _. split; [|reflexivity]. intros _. rewrite Z.abs_0. lia.
  - intros _. split; [discriminate|]. destruct s; cbn [sgn]; lia.
  - discriminate.
  - intros _. split; [|reflexivity]. intros _.
    exact (valid_below_over (S754_finite s m e) Hv eq_refl).
Qed.

Lemma infinite_shape x :
  number x = true → Z.abs (fval x) = OVER →
  ∃ s, Prim2SF x = S754_infinity s ∧ fval x = sgn s OVER.
Proof.
  intros Hn Habs. pose proof (finite_iff x Hn) as Hf.
  unfold number, finite_double, fval in *.
  destruct (Prim2SF x) as [s|s| |s m e] eqn:Hx.
  - destruct Hf as [Hf _]. specialize (Hf eq_refl). lia.
  - exists s. split; reflexivity.
  - discriminate.
  - destruct Hf as [Hf _]. specialize (Hf eq_refl). lia.
Qed.

Lemma fval_representable x :
  finite_double x = true → representable (Z.abs (fval x)).
Proof. intros. apply valid_representable; (done || apply Prim2SF_valid). Qed.

Lemma fval_fix x : finite_double x = true → xrnd (fval x) = fval x.
Proof. intros. apply xrnd_valid; (done || apply Prim2SF_valid). Qed.

Lemma fval_multiple x : finite_double x = true → (2 ^ 1074 | fval x).
Proof.
  unfold finite_double, fval. pose proof (Prim2SF_valid x) as Hv.
  destruct (Prim2SF x) as [s|s| |s m e] eqn:Hx;
    cbn [is_fin sf_val]; try discriminate; intros _.
  - exists 0. reflexivity.
  - apply bounded_spec in Hv as (He & _). cbn [sf_val].
    exists (sgn s (Z.pos m * 2 ^ (e + 1074))).
    rewrite sgn_mul. f_equal. rewrite <- Z.mul_assoc.
    rewrite <- Z.pow_add_r by lia. do 2 f_equal. lia.
Qed.

(** A double below 1 is at most the double before 1. *)
Lemma below_one A :
  representable A → A < 2 ^ 2148 → A <= 2 ^ 2148 - 2 ^ (2148 - 53).
Proof.
  intros (m & N & -> & Hm & HN & Hc) Hlt.
  pose proof (pow2_pos N ltac:(lia)) as Hp.
  destruct (Z.le_gt_cases N 2095) as [HN'|HN'].
  - assert (2 ^ N <= 2 ^ 2095) by (apply Z.pow_le_mono_r; lia).
    change (2 ^ 2148 - 2 ^ (2148 - 53)) with ((2 ^ 53 - 1) * 2 ^ 2095).
    nia.
  - destruct Hc as [Hc|?]; [|lia].
    assert (2 ^ 2096 <= 2 ^ N) by (apply Z.pow_le_mono_r; lia).
    change (2 ^ 2148) with (2 ^ 52 * 2 ^ 2096) in Hlt. nia.
Qed.

Lemma increment_between (v A Pe : Z) :
  (2 ^ 1074 | v) → Z.abs (xrnd v) < OVER → representable (Z.abs (xrnd v)) →
  0 < A <= 2 ^ 2148 - 2 ^ (2148 - 53) →
  Pe * 2 ^ 2148 = A * xrnd v →
  (0 <= v → 0 <= xrnd Pe <= v) ∧ (v <= 0 → v <= xrnd Pe <= 0).
Proof.
  intros Hdiv Hfin Hrep HA HPe. split; intros Hv.
  - pose proof (xrnd_nonneg v Hv).
    apply (increment_between_pos v A Pe); try done; [lia|].
    by rewrite Z.abs_eq in Hrep.
  - pose proof (xrnd_nonpos v Hv).
    enough (0 <= xrnd (- Pe) <= - v) by (rewrite xrnd_opp in *; lia).
    apply (increment_between_pos (- v) A (- Pe)); try done.
    + by apply Z.divide_opp_r.
    + lia.
    + rewrite xrnd_opp. lia.
    + rewrite xrnd_opp. by rewrite Z.abs_neq in Hrep.
    + rewrite xrnd_opp. lia.
Qed.

Lemma xrnd_sat V : OVER <= V → xrnd V = OVER.
Proof.
  intros HV. pose proof (xrnd_mono _ _ HV) as Hm. rewrite xrnd_OVER in Hm.
  pose proof (xrnd_bound V). lia.
Qed.

(** Sums of non-negative values, infinite ones included. *)
Lemma SFadd_val_nonneg (a b : spec_float) :
  valid_binary a = true → valid_binary b = true →
  is_num a = true → is_num b = true →
  0 <= sf_val a → 0 <= sf_val b →
  is_num (SF64add a b) = true ∧
  sf_val (SF64add a b) = xrnd (sf_val a + sf_val b).
Proof.
  intros Ha Hb Hna Hnb H0a H0b. pose proof OVER_pos.
  destruct (is_fin a) eqn:Hfa, (is_fin b) eqn:Hfb.
  - by apply SFadd_val.
  - destruct b as [sb|sb| |sb mb eb]; try discriminate.
    destruct sb; cbn [sf_val sgn] in H0b; [lia|].
    assert (SF64add a (S754_infinity false) = S754_infinity false) as ->
      by (destruct a as [sa|[]| |sa ma ea]; done).
    split; [done|]. cbn [sf_val sgn]. rewrite xrnd_sat; lia.
  - destruct a as [sa|sa| |sa ma ea]; try discriminate.
    destruct sa; cbn [sf_val sgn] in H0a; [lia|].
    assert (SF64add (S754_infinity false) b = S754_infinity false) as ->
      by (destruct b as [sb|[]| |sb mb eb]; done).
    split; [done|]. cbn [sf_val sgn]. rewrite xrnd_sat; lia.
  - destruct a as [sa|sa| |sa ma ea]; try discriminate.
    destruct b as [sb|sb| |sb mb eb]; try discriminate.
    destruct sa; cbn [sf_val sgn] in H0a; [lia|].
    destruct sb; cbn [sf_val sgn] in H0b; [lia|].
    split; [done|]. cbn [SF64add SFadd Bool.eqb sf_val sgn].
    rewrite xrnd_sat; lia.
Qed.

Lemma float_add_val_nonneg a b :
  number a = true → number b = true → 0 <= fval a → 0 <= fval b →
  number (a + b) = true ∧ fval (a + b) = xrnd (fval a + fval b).
Proof.
  intros. unfold number, fval. rewrite FloatAxioms.add_spec.
  apply SFadd_val_nonneg; (done || apply Prim2SF_valid).
Qed.

Lemma fval_0 : fval 0 = 0.
Proof. reflexivity. Qed.

Lemma fval_1 : fval 1 = 2 ^ 2148.
Proof. reflexivity. Qed.

(** A rate in the open interval (0,1), as a value. *)
Lemma rate_val alpha :
  (0 <? alpha)%float = true → (alpha <? 1)%float = true →
  finite_double alpha = true ∧
  0 < fval alpha <= 2 ^ 2148 - 2 ^ (2148 - 53).
Proof.
  intros H0 H1.
  apply float_ltb_elim in H0 as (_ & Hn & H0). rewrite fval_0 in H0.
  apply float_ltb_elim in H1 as (_ & _ & H1). rewrite fval_1 in H1.
  assert (Z.abs (fval alpha) < OVER) as Hfin.
  { rewrite Z.abs_eq by lia. eapply Z.lt_trans; [exact H1|]. done. }
  apply (finite_iff _ Hn) in Hfin. split; [done|]. split; [done|].
  apply below_one; [|done].
  pose proof (fval_representable alpha Hfin) as Hr.
  by rewrite Z.abs_eq in Hr by lia.
Qed.

Lemma finite_abs x : finite_double x = true → Z.abs (fval x) < OVER.
Proof. intros Hf. by apply finite_iff; [apply finite_number|]. Qed.

Lemma square_inf d :
  number d = true → Z.abs (fval d) = OVER →
  number (d * d) = true ∧ fval (d * d) = OVER.
Proof.
  intros Hn Hinf. destruct (infinite_shape d Hn Hinf) as (s & Hs & _).
  unfold number, fval. rewrite FloatAxioms.mul_spec, Hs.
  by destruct s.
Qed.

Lemma rate_shape alpha :
  finite_double alpha = true → 0 < fval alpha →
  ∃ ma ea, Prim2SF alpha = S754_finite false ma ea.
Proof.
  unfold finite_double, fval. intros Hf Hpos.
  destruct (Prim2SF alpha) as [sa|sa| |sa ma ea];
    cbn [is_fin sf_val] in Hf, Hpos; [lia|discriminate|discriminate|].
  destruct sa; [|by exists ma, ea]. cbn [sgn] in Hpos.
  pose proof (Z.pow_nonneg 2 (ea + 2148) ltac:(lia)). nia.
Qed.

Lemma unrounded_below_over v : Z.abs (xrnd v) < OVER → Z.abs v < OVER.
Proof.
  intros Hlt. destruct (Z.le_gt_cases OVER v) as [Hge|?].
  { rewrite (xrnd_sat v Hge) in Hlt. pose proof OVER_pos. lia. }
  destruct (Z.le_gt_cases OVER (- v)) as [Hge|?]; [|lia].
  pose proof (xrnd_sat (- v) Hge) as Hs. rewrite xrnd_opp in Hs.
  pose proof OVER_pos. lia.
Qed.

(** One entry of the row: its squared difference does not grow. *)
Lemma entry_closer (alpha w x : float) :
  (0 <? alpha)%float = true → (alpha <? 1)%float = true →
  finite_double w = true → finite_double x = true →
  number ((w + alpha * (x - w) - x) * (w + alpha * (x - w) - x)) = true ∧
  number ((w - x) * (w - x)) = true ∧
  0 <= fval ((w + alpha * (x - w) - x) * (w + alpha * (x - w) - x))
    <= fval ((w - x) * (w - x)).
Proof.
  intros H0 H1 Hw Hx. destruct (rate_val alpha H0 H1) as (Ha & HA).
  destruct (float_sub_val x w Hx Hw) as (Hndl & Hdl).
  destruct (float_sub_val w x Hw Hx) as (Hnd & Hd).
  assert (fval (w - x) = - fval (x - w)) as Hneg.
  { rewrite Hd, Hdl, <- xrnd_opp. f_equal. lia. }
  pose proof (xrnd_bound (fval x - fval w)) as Hb. rewrite <- Hdl in Hb.
  pose proof OVER_pos as HO.
  destruct (Z.eq_dec (Z.abs (fval (x - w))) OVER) as [Hinf|Hfin].
  - destruct (infinite_shape _ Hndl Hinf) as (s & Hs & _).
    destruct (rate_shape alpha Ha ltac:(lia)) as (ma & ea & Hal).
    assert (Prim2SF (alpha * (x - w)) = S754_infinity s) as Hp.
    { rewrite FloatAxioms.mul_spec, Hal, Hs. reflexivity. }
    assert (Prim2SF (w + alpha * (x - w)) = S754_infinity s) as Hw'.
    { rewrite FloatAxioms.add_spec, Hp. unfold finite_double in Hw.
      by destruct (Prim2SF w). }
    assert (Prim2SF (w + alpha * (x - w) - x) = S754_infinity s) as Hd'.
    { rewrite FloatAxioms.sub_spec, Hw'. unfold finite_double in Hx.
      by destruct (Prim2SF x). }
    assert (Prim2SF ((w + alpha * (x - w) - x) * (w + alpha * (x - w) - x))
            = S754_infinity false) as Ht'.
    { rewrite FloatAxioms.mul_spec, Hd'. by destruct s. }
    destruct (square_inf (w - x) Hnd ltac:(lia)) as (Hnt & Ht).
    assert (fval ((w + alpha * (x - w) - x) * (w + alpha * (x - w) - x))
            = OVER) as Hv' by (unfold fval; by rewrite Ht').
    rewrite Hv', Ht. unfold number at 1. rewrite Ht'.
    split; [done|]. split; [done|]. lia.
  - assert (Z.abs (fval (x - w)) < OVER) as Hlt by lia.
    assert (finite_double (x - w) = true) as Hfdl by by apply finite_iff.
    assert (finite_double (w - x) = true) as Hfd
      by (apply finite_iff; [done|clear - Hneg Hlt; lia]).
    destruct (float_mul_val alpha (x - w) Ha Hfdl) as (Hnp & Pe & HPe & Hp).
    pose proof (finite_abs w Hw) as HWb. pose proof (finite_abs x Hx) as HXb.
    pose proof (fval_fix w Hw) as HWf. pose proof (fval_fix x Hx) as HXf.
    rewrite Hdl in HPe, Hlt.
    pose proof (unrounded_below_over _ Hlt) as Hv.
    destruct (increment_between (fval x - fval w) (fval alpha) Pe)
      as [Hup Hdown]; [|exact Hlt| |exact HA|exact HPe|].
    { apply Z.divide_sub_r; by apply fval_multiple. }
    { rewrite <- Hdl. by apply fval_representable. }
    rewrite <- Hp in Hup, Hdown.
    assert (Z.abs (fval (alpha * (x - w))) < OVER) as Hpb
      by (clear - Hup Hdown Hv; lia).
    assert (finite_double (alpha * (x - w)) = true) as Hfp
      by by apply finite_iff.
    destruct (float_add_val w (alpha * (x - w)) Hw Hfp) as (Hnw' & Hw').
    assert (Z.min (fval w) (fval x) <= fval w + fval (alpha * (x - w))
            <= Z.max (fval w) (fval x)) as Hbt
      by (clear - Hup Hdown; lia).
    pose proof (xrnd_mono _ _ (proj1 Hbt)) as Hlo.
    pose proof (xrnd_mono _ _ (proj2 Hbt)) as Hhi.
    rewrite <- Hw' in Hlo, Hhi.
    assert (xrnd (Z.min (fval w) (fval x)) = Z.min (fval w) (fval x)) as Hmin
      by (destruct (Z.min_spec (fval w) (fval x)) as [[_ ->]|[_ ->]];
          assumption).
    assert (xrnd (Z.max (fval w) (fval x)) = Z.max (fval w) (fval x)) as Hmax
      by (destruct (Z.max_spec (fval w) (fval x)) as [[_ ->]|[_ ->]];
          assumption).
    rewrite Hmin in Hlo. rewrite Hmax in Hhi.
    assert (Z.abs (fval (w + alpha * (x - w))) < OVER) as Hw'b
      by (clear - Hlo Hhi HWb HXb; lia).
    assert (finite_double (w + alpha * (x - w)) = true) as Hfw'
      by by apply finite_iff.
    destruct (float_sub_val _ x Hfw' Hx) as (Hnd' & Hd').
    assert (Z.abs (fval (w + alpha * (x - w) - x)) <= Z.abs (fval (w - x)))
      as Habs.
    { rewrite Hd', Hd. clear - Hlo Hhi.
      destruct (Z.le_ge_cases (fval w) (fval x)).
      - pose proof (xrnd_mono (fval w - fval x)
                      (fval (w + alpha * (x - w)) - fval x) ltac:(lia)).
        pose proof (xrnd_nonpos (fval (w + alpha * (x - w)) - fval x)
                      ltac:(lia)). lia.
      - pose proof (xrnd_mono (fval (w + alpha * (x - w)) - fval x)
                      (fval w - fval x) ltac:(lia)).
        pose proof (xrnd_nonneg (fval (w + alpha * (x - w)) - fval x)
                      ltac:(lia)). lia. }
    assert (Z.abs (fval (w + alpha * (x - w) - x)) < OVER) as Hd'b
      by (clear - Habs Hneg Hlt Hdl; rewrite <- Hdl in Hlt; lia).
    assert (finite_double (w + alpha * (x - w) - x) = true) as Hfd'
      by by apply finite_iff.
    destruct (float_mul_val _ _ Hfd' Hfd') as (Hnt' & Te' & HTe' & Ht').
    destruct (float_mul_val _ _ Hfd Hfd) as (Hnt & Te & HTe & Ht).
    split; [done|]. split; [done|]. rewrite Ht', Ht.
    assert (0 < 2 ^ 2148) as HK by done.
    assert (0 <= Te' <= Te) as HT.
    { clear - HTe' HTe Habs HK.
      set (a := fval (w + alpha * (x - w) - x)) in *.
      set (b := fval (w - x)) in *.
      assert (a * a <= b * b) by nia. nia. }
    clear - HT. split; [apply xrnd_nonneg|apply xrnd_mono]; lia.
Qed.

Lemma sq_fold_closer (alpha : float) (w x : list float) (acc' acc : float) :
  (0 <? alpha)%float = true → (alpha <? 1)%float = true →
  finite_row w → finite_row x →
  number acc' = true → number acc = true → 0 <= fval acc' <= fval acc →
  number (fold_left sq_term (zip (pull alpha x w) x) acc') = true ∧
  number (fold_left sq_term (zip w x) acc) = true ∧
  0 <= fval (fold_left sq_term (zip (pull alpha x w) x) acc')
    <= fval (fold_left sq_term (zip w x) acc).
Proof.
  intros H0 H1 Hw. revert x acc' acc.
  induction Hw as [|wk w Hwk Hw IH]; intros x acc' acc Hx Hn' Hn Hacc.
  { cbn. done. }
  destruct Hx as [|xk x Hxk Hx]; [cbn; done|].
  change (pull alpha (xk :: x) (wk :: w))
    with (pull_entry alpha wk xk :: pull alpha x w).
  cbn [zip zip_with fold_left].
  destruct (entry_closer alpha wk xk H0 H1 Hwk Hxk) as (Hnt' & Hnt & Ht).
  apply IH; [done|..].
  - unfold sq_term, pull_entry. cbn.
    apply float_add_val_nonneg; (done || lia).
  - unfold sq_term. cbn. apply float_add_val_nonneg; (done || lia).
  - unfold sq_term, pull_entry. cbn.
    destruct (float_add_val_nonneg acc'
                ((wk + alpha * (xk - wk) - xk) * (wk + alpha * (xk - wk) - xk))
                Hn' Hnt' ltac:(lia) ltac:(lia)) as (_ & ->).
    destruct (float_add_val_nonneg acc ((wk - xk) * (wk - xk))
                Hn Hnt ltac:(lia) ltac:(lia)) as (_ & ->).
    split; [apply xrnd_nonneg|apply xrnd_mono]; lia.
Qed.

Lemma sq_dist_pull_le (alpha : float) (w x : list float) :
  (0 <? alpha)%float = true → (alpha <? 1)%float = true →
  finite_row w → finite_row x →
  (sq_dist (pull alpha x w) x <=? sq_dist w x)%float = true.
Proof.
  intros H0 H1 Hw Hx.
  destruct (sq_fold_closer alpha w x 0 0 H0 H1 Hw Hx eq_refl eq_refl)
    as (Hn' & Hn & Hle); [by rewrite fval_0|].
  unfold sq_dist. change num_zero with 0%float.
  rewrite float_leb_val by done. apply Z.leb_le. lia.
Qed.

Lemma pull_entry_same (alpha wk xk : float) :
  (0 <? alpha)%float = true → (alpha <? 1)%float = true →
  finite_double wk = true → finite_double xk = true →
  (wk =? xk)%float = true → (pull_entry alpha wk xk =? wk)%float = true.
Proof.
  intros H0 H1 Hw Hx Heq. destruct (rate_val alpha H0 H1) as (Ha & HA).
  rewrite float_eqb_val in Heq by by apply finite_number.
  apply Z.eqb_eq in Heq.
  destruct (float_sub_val xk wk Hx Hw) as (Hnd & Hd).
  rewrite Heq, Z.sub_diag, xrnd_0 in Hd.
  assert (finite_double (xk - wk) = true) as Hfd.
  { apply finite_iff; [done|]. rewrite Hd. exact OVER_pos. }
  destruct (float_mul_val alpha (xk - wk) Ha Hfd) as (Hnp & Pe & HPe & Hp).
  rewrite Hd, Z.mul_0_r in HPe.
  assert (Pe = 0) as -> by (clear - HPe; nia).
  rewrite xrnd_0 in Hp.
  assert (finite_double (alpha * (xk - wk)) = true) as Hfp.
  { apply finite_iff; [done|]. rewrite Hp. exact OVER_pos. }
  destruct (float_add_val wk (alpha * (xk - wk)) Hw Hfp) as (Hnw & Hw').
  rewrite Hp, Z.add_0_r, fval_fix in Hw' by done.
  unfold pull_entry. cbn.
  rewrite float_eqb_val by (done || by apply finite_number).
  by apply Z.eqb_eq.
Qed.

Lemma pull_same_values (alpha : float) (w x : list float) :
  (0 <? alpha)%float = true → (alpha <? 1)%float = true →
  finite_row w → finite_row x →
  same_values w x → same_values (pull alpha x w) w.
Proof.
  intros H0 H1 Hw Hx Hs. induction Hs as [|wk xk w x Hk Hs IH].
  { constructor. }
  inversion Hw; subst. inversion Hx; subst.
  change (pull alpha (xk :: x) (wk :: w))
    with (pull_entry alpha wk xk :: pull alpha x w).
  constructor; [by apply pull_entry_same|by apply IH].
Qed.

Lemma same_values_refl (w : list float) : finite_row w → same_values w w.
Proof.
  induction 1 as [|wk w Hk Hw IH]; constructor; [|done].
  rewrite float_eqb_val by by apply finite_number. apply Z.eqb_refl.
Qed.


(** ** The pull towards the sample, in the arithmetic of the program *)

Section Contraction.
Import Reals.

(** C7, as the code has it: every row [w] of finite doubles that the
    neighbourhood update pulls towards a sample [x] of finite doubles with
    [alpha] in the open interval (0,1) becomes [pull alpha x w], entry by
    entry [w[k] + alpha * (x[k] - w[k])] rounded as binary64 rounds it; the
    squared distance of the new row from [x], summed in binary64 as
    [update_weights] sums it, is not greater than that of the old row, and
    a row whose entries equal those of [x] keeps its values.  Run in exact
    arithmetic, the same update makes the distance strictly less unless
    [w = x], and then leaves the row as it is. *)
Theorem C7_pull_contracts (x : list float) (W : list (list float))
    (num_out num_features : Z) (alpha : float) (bmu radius : Z) :
  matrix W num_out num_features → vector x num_features →
  (0 <? alpha)%float = true → (alpha <? 1)%float = true →
  finite_row x →
  (∃ W', update_neighborhood x W num_out num_features alpha bmu radius
         = Some W' ∧
     ∀ (j : nat) (w : list float),
       from_node bmu radius <= Z.of_nat j < to_node num_out bmu radius →
       W !! j = Some w → finite_row w →
       W' !! j = Some (pull alpha x w) ∧
       (sq_dist (pull alpha x w) x <=? sq_dist w x)%float = true ∧
       (same_values w x → same_values (pull alpha x w) w) ∧
       (w = x → same_values (pull alpha x w) w)) ∧
  ∀ (xr : list R) (Wr : list (list R)) (a : R),
    matrix Wr num_out num_features → vector xr num_features →
    (0 < a < 1)%R →
    ∃ Wr', update_neighborhood xr Wr num_out num_features a bmu radius
           = Some Wr' ∧
      ∀ (j : nat) (w : list R),
        from_node bmu radius <= Z.of_nat j < to_node num_out bmu radius →
        Wr !! j = Some w →
        Wr' !! j = Some (pull a xr w) ∧
        (w ≠ xr → (sq_dist (pull a xr w) xr < sq_dist w xr)%R) ∧
        (w = xr → pull a xr w = w).
Proof.
  intros HW Hx H0 H1 Hfx. split;
    [|intros xr Wr a; apply (Exact.pull_contracts xr Wr)].
  destruct (update_neighborhood_spec x W num_out num_features alpha bmu
              radius HW Hx) as (W' & HW' & _ & Hget).
  exists W'. split; [done|]. intros j w Hj Hw Hfw.
  split; [|split; [|split]].
  - rewrite Hget. destruct (decide _); [|done]. by rewrite Hw.
  - by apply sq_dist_pull_le.
  - by apply pull_same_values.
  - intros ->. by apply pull_same_values, same_values_refl.
Qed.
End Contraction.
(** ** The theorems at concrete inputs *)

Lemma C1_witness :
  ∃ D', evaluate_distances [0.5; 0.25]%float [[1; 0]; [0.5; 0.25]]%float
          [0; 0]%float 2 2 = Some D' ∧
        vector D' 2 ∧
        ∀ (j : nat) (w : list float),
          [[1; 0]; [0.5; 0.25]]%float !! j = Some w →
          D' !! j = Some (sq_dist w [0.5; 0.25]%float).
Proof. apply C1_distance_evaluation; shapes. Defined.

Lemma C3_witness :
  ∃ W', update_neighborhood [1%float] [[0]; [0.5]; [0.25]]%float 3 1
          0.5%float 0 1 = Some W' ∧
    ∀ (j k : nat) (w : list float) (wk xk : float),
      in_window 3 0 1 (Z.of_nat j) →
      [[0]; [0.5]; [0.25]]%float !! j = Some w →
      w !! k = Some wk → [1%float] !! k = Some xk →
      ∃ w', W' !! j = Some w' ∧
            w' !! k = Some (wk + 0.5%float * (xk - wk))%num.
Proof.
  apply (C3_neighborhood_update [1%float] [[0]; [0.5]; [0.25]]%float 3 1
           0.5%float 0 1); [shapes|shapes|lia|lia|by vm_compute].
Defined.

Lemma C4_witness :
  ∃ W', update_neighborhood [1%float] [[0]; [0.5]; [0.25]]%float 3 1
          0.5%float 0 1 = Some W' ∧
    length W' = length [[0]; [0.5]; [0.25]]%float ∧
    ∀ j : nat, ¬ in_window 3 0 1 (Z.of_nat j) →
      W' !! j = [[0]; [0.5]; [0.25]]%float !! j.
Proof.
  apply (C4_neighborhood_frame [1%float] [[0]; [0.5]; [0.25]]%float 3 1
           0.5%float 0 1); [shapes|shapes|by vm_compute|by vm_compute].
Defined.

Lemma C5_witness :
  matrix [[1%float]] 1 1 ∧ matrix [[0%float]] 1 1 ∧ vector [0%float] 1 ∧
  (∃ st, kohonen_som_tracer [[1%float]] 1 1 1 alpha_min_test1 (λ _ _, 0) 99
           [[0%float]] [0%float] = Returned st ∧
         after_passes [[1%float]] 1 1 1 alpha_min_test1 (λ _ _, 0) 90
           (tracer_init 1 [[0%float]] [0%float]) = Some st ∧
         st_iter st = 90) ∧
  (∃ st, kohonen_som_tracer [[1%float]] 1 1 1 alpha_min_test2 (λ _ _, 0) 99
           [[0%float]] [0%float] = Returned st ∧
         after_passes [[1%float]] 1 1 1 alpha_min_test2 (λ _ _, 0) 99
           (tracer_init 1 [[0%float]] [0%float]) = Some st ∧
         st_iter st = 99).
Proof.
  assert (matrix [[1%float]] 1 1) as HX by shapes.
  assert (matrix [[0%float]] 1 1) as HW by shapes.
  assert (vector [0%float] 1) as HD by shapes.
  split; [done|]. split; [done|]. split; [done|].
  apply (C5_schedule_termination [[1%float]] [[0%float]] [0%float] 1 1 1
           (λ _ _, 0) 99 HX HW HD). lia.
Defined.


Lemma C8_witness :
  (∀ idx R, 0 <= from_node idx R ∧ to_node 2 idx R <= 2) ∧
  (∀ (x : list float) (alpha : float) (R idx0 : Z),
     vector x 1 →
     ∃ W' D', update_weights x [[0]; [0.5]]%float [0; 0]%float 2 1 alpha R
                idx0 = Some (W', D') ∧
              matrix W' 2 1 ∧ vector D' 2) ∧
  (∀ (threshold : float) (n : nat),
     kohonen_som_tracer [[1]; [0.25]]%float 2 1 2 threshold (λ _ _, 0) n
       [[0]; [0.5]]%float [0; 0]%float ≠ Fault) ∧
  ∃ st, kohonen_som_tracer [[1]; [0.25]]%float 2 1 2 0.5%float (λ _ _, 0)
          100 [[0]; [0.5]]%float [0; 0]%float = Returned st ∧
        matrix (st_W st) 2 1.
Proof.
  apply (C8_no_fault [[1]; [0.25]]%float [[0]; [0.5]]%float [0; 0]%float
           2 1 2 0.5%float (λ _ _, 0) 100); [shapes|shapes|shapes|done|lia].
Defined.

Lemma C10_witness :
  ∃ st, kohonen_som_tracer [[1%float]] 1 1 1 1%float (λ _ _, 0) 0
          [[0%float]] [0%float] = Returned st ∧
        after_passes [[1%float]] 1 1 1 1%float (λ _ _, 0) 0
          (tracer_init 1 [[0%float]] [0%float]) = Some st ∧
        st_iter st = 0 ∧ st_W st = [[0%float]].
Proof.
  apply (C10_no_pass [[1%float]] [[0%float]] [0%float] 1 1 1 1%float
           (λ _ _, 0) 0). reflexivity.
Defined.

Lemma X1_witness :
  ∃ (val : float) (idx : Z),
    get_min_1d [3; 1; 2; 1]%float 4 99 = Some (val, idx) ∧
    0 <= idx < 4 ∧
    [3; 1; 2; 1]%float !! Z.to_nat idx = Some val ∧
    (∀ (j : nat) (d : float),
       [3; 1; 2; 1]%float !! j = Some d → (d <? val)%float = false) ∧
    (∀ (j : nat) (d : float), Z.of_nat j < idx →
       [3; 1; 2; 1]%float !! j = Some d → (d <=? val)%float = false).
Proof.
  apply (X1_bmu_locator [3; 1; 2; 1]%float 4 99); [done|].
  exists O, 3%float. by split.
Defined.

Lemma X2_witness :
  update_weights [1%float] [[0]; [0.5]]%float [7; 7]%float 2 1 0.5%float 0 5
  = update_weights [1%float] [[0]; [0.5]]%float [0; 0]%float 2 1 0.5%float
      0 5 ∧
  ((∃ (j : nat) (w : list float),
      [[0]; [0.5]]%float !! j = Some w ∧
      (sq_dist w [1%float] <? infinity)%float = true) →
   update_weights [1%float] [[0]; [0.5]]%float [7; 7]%float 2 1 0.5%float 0 5
   = update_weights [1%float] [[0]; [0.5]]%float [0; 0]%float 2 1 0.5%float
       0 (-3)).
Proof.
  apply (X2_update_weights_deterministic [1%float] [[0]; [0.5]]%float
           [7; 7]%float [0; 0]%float 2 1 0.5%float 0 5 (-3)); shapes.
Defined.

Lemma C7_witness :
  (∃ W', update_neighborhood [1%float] [[0]; [1]]%float 2 1 0x1p-1%float 0 1
         = Some W' ∧
     ∀ (j : nat) (w : list float),
       from_node 0 1 <= Z.of_nat j < to_node 2 0 1 →
       [[0]; [1]]%float !! j = Some w → finite_row w →
       W' !! j = Some (pull 0x1p-1%float [1%float] w) ∧
       (sq_dist (pull 0x1p-1%float [1%float] w) [1%float]
        <=? sq_dist w [1%float])%float = true ∧
       (same_values w [1%float]
        → same_values (pull 0x1p-1%float [1%float] w) w) ∧
       (w = [1%float] → same_values (pull 0x1p-1%float [1%float] w) w)) ∧
  ∀ (xr : list Rdefinitions.R) (Wr : list (list Rdefinitions.R))
    (a : Rdefinitions.R),
    matrix Wr 2 1 → vector xr 1 →
    (Rdefinitions.Rlt (Rdefinitions.IZR 0) a
     ∧ Rdefinitions.Rlt a (Rdefinitions.IZR 1)) →
    ∃ Wr', update_neighborhood xr Wr 2 1 a 0 1 = Some Wr' ∧
      ∀ (j : nat) (w : list Rdefinitions.R),
        from_node 0 1 <= Z.of_nat j < to_node 2 0 1 →
        Wr !! j = Some w →
        Wr' !! j = Some (pull a xr w) ∧
        (w ≠ xr → Rdefinitions.Rlt (sq_dist (pull a xr w) xr) (sq_dist w xr)) ∧
        (w = xr → pull a xr w = w).
Proof.
  apply (C7_pull_contracts [1%float] [[0]; [1]]%float 2 1 0x1p-1%float 0 1);
    [shapes|shapes|reflexivity|reflexivity|].
  by repeat constructor.
Defined.

Lemma X4_witness :
  get_min_1d [infinity; nan; 1]%float 2 7 = Some (infinity, 7).
Proof.
  apply (X4_bmu_locator_unassigned [infinity; nan; 1]%float 2 7);
    [simpl; lia|].
  intros [|[|j]] d Hj Hd; [| |lia]; by injection Hd as <-.
Defined.

Lemma X5_witness :
  ∃ (W' : list (list float)) (bmu : nat) (wb : list float),
    update_weights [1%float] [[0]; [0.5]; [0.25]]%float [7; 7; 7]%float 3 1
      0.5%float 0 5
      = Some (W', (λ w, sq_dist w [1%float])
                    <$> [[0]; [0.5]; [0.25]]%float) ∧
    [[0]; [0.5]; [0.25]]%float !! bmu = Some wb ∧
    (∀ (j : nat) (w : list float),
       [[0]; [0.5]; [0.25]]%float !! j = Some w →
       (sq_dist w [1%float] <? sq_dist wb [1%float])%float = false) ∧
    (∀ (j : nat) (w : list float), (j < bmu)%nat →
       [[0]; [0.5]; [0.25]]%float !! j = Some w →
       (sq_dist w [1%float] <=? sq_dist wb [1%float])%float = false) ∧
    length W' = length [[0]; [0.5]; [0.25]]%float ∧
    ∀ j : nat,
      W' !! j = if decide (Z.of_nat bmu - 0 <= Z.of_nat j <= Z.of_nat bmu + 0)
                then pull 0.5%float [1%float]
                     <$> [[0]; [0.5]; [0.25]]%float !! j
                else [[0]; [0.5]; [0.25]]%float !! j.
Proof.
  apply (X5_update_weights_spec [1%float] [[0]; [0.5]; [0.25]]%float
           [7; 7; 7]%float 3 1 0.5%float 0 5);
    [shapes|shapes|shapes|lia|by vm_compute|].
  exists O, [0%float]. by split.
Defined.


Lemma X7_witness :
  ∃ fs' : gmap string (list ascii),
    save_2d_data (λ b : bool, if b then ["1"%char] else ["0"%char])
      ∅ "w11.csv" [[true; false]; [false; true]] 2 2 = Some fs' ∧
    fs' !! "w11.csv"
      = Some (csv (format_cells
                     (λ b : bool, if b then ["1"%char] else ["0"%char])
                     [[true; false]; [false; true]])) ∧
    ∀ other : string, other ≠ "w11.csv" →
      fs' !! other = (∅ : gmap string (list ascii)) !! other.
Proof.
  apply (X7_save_2d_data_writes_csv
           (λ b : bool, if b then ["1"%char] else ["0"%char])
           ∅ "w11.csv" [[true; false]; [false; true]] 2 2);
    [shapes|by vm_compute|by vm_compute].
Defined.

Lemma X8_witness :
  ∃ (fs' : gmap string (list ascii)) (text : list ascii),
    save_2d_data (λ b : bool, if b then ["1"%char] else ["0"%char])
      ∅ "w11.csv" [[true; false]; [false; true]] 2 2 = Some fs' ∧
    fs' !! "w11.csv" = Some text ∧
    parse_csv text
    = format_cells (λ b : bool, if b then ["1"%char] else ["0"%char])
        [[true; false]; [false; true]].
Proof.
  apply (X8_save_2d_data_reads_back
           (λ b : bool, if b then ["1"%char] else ["0"%char])
           ∅ "w11.csv" [[true; false]; [false; true]] 2 2);
    [shapes|by vm_compute|by vm_compute|].
  intros []; split; by intros [=]%list_elem_of_singleton.
Defined.

Lemma X9_witness :
  save_2d_data (λ b : bool, if b then ["1"%char] else ["0"%char])
    (∅ : gmap string (list ascii)) "w11.csv" [[true]] 3 0
  = Some (<["w11.csv" := replicate (Z.to_nat (3 - 1)) newline]> ∅).
Proof.
  apply (X9_save_2d_data_degenerate
           (λ b : bool, if b then ["1"%char] else ["0"%char])
           ∅ "w11.csv" [[true]] 3 0); [by vm_compute|by right].
Defined.

Lemma X10_witness :
  ∃ data',
    test_circle (λ x, x) (λ x, x) 0x1.921fb54442d18p+1%float Z.of_nat
      [[0; 0]; [0; 0]; [0; 0]]%float 2 5
      = Some (data', (5 + 2 * Z.to_nat 2)%nat) ∧
    length data' = length [[0; 0]; [0; 0]; [0; 0]]%float ∧
    (∀ i : nat,
       data' !! i
       = if decide (Z.of_nat i < 2)
         then circle_row (λ x, x) (λ x, x) 0x1.921fb54442d18p+1%float
                Z.of_nat 5 i <$> [[0; 0]; [0; 0]; [0; 0]]%float !! i
         else [[0; 0]; [0; 0]; [0; 0]]%float !! i) ∧
    ((∀ n, 0 <= Z.of_nat n) →
     ∀ i : nat,
       (0.75 - 0x1.3333333333333p-2 <=? circle_radius Z.of_nat 5 i)%float
         = true ∧
       (circle_radius Z.of_nat 5 i <? 0.75 + 0x1.3333333333333p-2)%float
         = true).
Proof.
  apply (X10_test_circle_points (λ x, x) (λ x, x)
           0x1.921fb54442d18p+1%float Z.of_nat
           [[0; 0]; [0; 0]; [0; 0]]%float 2 5); [simpl; lia|].
  intros [|[|i]] row Hi Hrow; [| |lia]; by injection Hrow as <-.
Defined.

Lemma X11_witness :
  ∃ data',
    test_lamniscate (λ x, x) (λ x, x) 0x1.921fb54442d18p+1%float Z.of_nat
      [[0; 0]; [0; 0]; [0; 0]]%float 2 5
      = Some (data', (5 + 3 * Z.to_nat 2)%nat) ∧
    length data' = length [[0; 0]; [0; 0]; [0; 0]]%float ∧
    (∀ i : nat,
       data' !! i
       = if decide (Z.of_nat i < 2)
         then lamniscate_row (λ x, x) (λ x, x) 0x1.921fb54442d18p+1%float
                Z.of_nat 5 i <$> [[0; 0]; [0; 0]; [0; 0]]%float !! i
         else [[0; 0]; [0; 0]; [0; 0]]%float !! i) ∧
    ((∀ n, 0 <= Z.of_nat n) →
     ∀ i : nat,
       (- 0x1.999999999999ap-3 <=? lamniscate_dx Z.of_nat 5 i)%float = true ∧
       (lamniscate_dx Z.of_nat 5 i <? 0x1.999999999999ap-3)%float = true ∧
       (- 0x1.999999999999ap-3 <=? lamniscate_dy Z.of_nat 5 i)%float = true ∧
       (lamniscate_dy Z.of_nat 5 i <? 0x1.999999999999ap-3)%float = true).
Proof.
  apply (X11_test_lamniscate_points (λ x, x) (λ x, x)
           0x1.921fb54442d18p+1%float Z.of_nat
           [[0; 0]; [0; 0]; [0; 0]]%float 2 5); [simpl; lia|].
  intros [|[|i]] row Hi Hrow; [| |lia]; by injection Hrow as <-.
Defined.

Lemma X12_witness :
  ∃ X W,
    alloc_loop Z.of_nat zeroed 3 2 2 5
      = Some (X, W, (5 + Z.to_nat 2 * Z.to_nat 2)%nat) ∧
    matrix X 3 2 ∧ matrix W 2 2 ∧
    (∀ (i j : nat) (row : list float),
       X !! i = Some row → Z.of_nat j < 2 →
       row !! j = Some (stale_X zeroed (Z.of_nat i) j)) ∧
    (∀ (i j : nat) (row : list float),
       W !! i = Some row → Z.of_nat j < 2 →
       row !! j = Some (_random (-1) 1
                          (Z.of_nat (5 + Z.to_nat 2 * i + j)%nat))) ∧
    ((∀ n, 0 <= Z.of_nat n) →
     ∀ (row : list float) (w : float), row ∈ W → w ∈ row →
       (-1 <=? w)%float = true ∧ (w <? 1)%float = true).
Proof. apply (X12_allocation_loop Z.of_nat zeroed 3 2 2 5); lia. Defined.

Lemma X13_witness :
  ∃ st fs',
    test1 (λ x, x) (λ x, x) 0x1.921fb54442d18p+1%float Z.of_nat
      (λ _, ["0"%char]) zeroed 90 ∅ 5
      = Some (fs', (5 + 1100)%nat) ∧
    kohonen_som_tracer
      (circle_point (λ x, x) (λ x, x) 0x1.921fb54442d18p+1%float Z.of_nat
         (5 + 100) <$> seq 0 500)
      500 2 50 0x1.999999999999ap-4%float (junk_idx zeroed) 90
      (initial_weights Z.of_nat 5 2 50)
      (malloc_doubles (stale_D zeroed) 50) = Returned st ∧
    st_iter st = 90 ∧ st_R st = 3 ∧
    fs' !! "test1.csv"
      = Some (csv (format_cells (λ _, ["0"%char])
                     (circle_point (λ x, x) (λ x, x)
                        0x1.921fb54442d18p+1%float Z.of_nat (5 + 100)
                        <$> seq 0 500))) ∧
    fs' !! "w11.csv"
      = Some (csv (format_cells (λ _, ["0"%char])
                     (initial_weights Z.of_nat 5 2 50))) ∧
    fs' !! "w12.csv" = Some (csv (format_cells (λ _, ["0"%char]) (st_W st))) ∧
    ∀ f, f ∉ ["test1.csv"; "w11.csv"; "w12.csv"] →
      fs' !! f = (∅ : gmap string (list ascii)) !! f.
Proof.
  apply (X13_test1_run (λ x, x) (λ x, x) 0x1.921fb54442d18p+1%float
           Z.of_nat (λ _, ["0"%char]) zeroed 90 ∅ 5). lia.
Defined.

Lemma X14_witness :
  ∃ st fs',
    test2 (λ x, x) (λ x, x) 0x1.921fb54442d18p+1%float Z.of_nat
      (λ _, ["0"%char]) zeroed 99 ∅ 5
      = Some (fs', (5 + 1540)%nat) ∧
    kohonen_som_tracer
      (lamniscate_point (λ x, x) (λ x, x) 0x1.921fb54442d18p+1%float
         Z.of_nat (5 + 40) <$> seq 0 500)
      500 2 20 0x1.47ae147ae147bp-7%float (junk_idx zeroed) 99
      (initial_weights Z.of_nat 5 2 20)
      (malloc_doubles (stale_D zeroed) 20) = Returned st ∧
    st_iter st = 99 ∧ st_R st = 1 ∧
    fs' !! "test2.csv"
      = Some (csv (format_cells (λ _, ["0"%char])
                     (lamniscate_point (λ x, x) (λ x, x)
                        0x1.921fb54442d18p+1%float Z.of_nat (5 + 40)
                        <$> seq 0 500))) ∧
    fs' !! "w21.csv"
      = Some (csv (format_cells (λ _, ["0"%char])
                     (initial_weights Z.of_nat 5 2 20))) ∧
    fs' !! "w22.csv" = Some (csv (format_cells (λ _, ["0"%char]) (st_W st))) ∧
    ∀ f, f ∉ ["test2.csv"; "w21.csv"; "w22.csv"] →
      fs' !! f = (∅ : gmap string (list ascii)) !! f.
Proof.
  apply (X14_test2_run (λ x, x) (λ x, x) 0x1.921fb54442d18p+1%float
           Z.of_nat (λ _, ["0"%char]) zeroed 99 ∅ 5). lia.
Defined.

Lemma X15_witness :
  ∃ fs',
    main (λ x, x) (λ x, x) 0x1.921fb54442d18p+1%float Z.of_nat
      (λ _, ["0"%char]) zeroed zeroed 99 ∅ 5
      = Some (0, fs', (5 + 2640)%nat) ∧
    fs' !! "test1.csv"
      = Some (csv (format_cells (λ _, ["0"%char])
                     (circle_point (λ x, x) (λ x, x)
                        0x1.921fb54442d18p+1%float Z.of_nat (5 + 100)
                        <$> seq 0 500))) ∧
    fs' !! "w11.csv"
      = Some (csv (format_cells (λ _, ["0"%char])
                     (initial_weights Z.of_nat 5 2 50))) ∧
    fs' !! "test2.csv"
      = Some (csv (format_cells (λ _, ["0"%char])
                     (lamniscate_point (λ x, x) (λ x, x)
                        0x1.921fb54442d18p+1%float Z.of_nat (5 + 1140)
                        <$> seq 0 500))) ∧
    fs' !! "w21.csv"
      = Some (csv (format_cells (λ _, ["0"%char])
                     (initial_weights Z.of_nat (5 + 1100) 2 20))) ∧
    is_Some (fs' !! "w12.csv") ∧ is_Some (fs' !! "w22.csv") ∧
    ∀ f, f ∉ ["test1.csv"; "w11.csv"; "w12.csv";
              "test2.csv"; "w21.csv"; "w22.csv"] →
      fs' !! f = (∅ : gmap string (list ascii)) !! f.
Proof.
  apply (X15_main_run (λ x, x) (λ x, x) 0x1.921fb54442d18p+1%float
           Z.of_nat (λ _, ["0"%char]) zeroed zeroed 99 ∅ 5). lia.
Defined.

Lemma X16_witness :
  same_run
    (kohonen_som_tracer [[1]; [0.25]]%float 2 1 2 alpha_min_test1 (λ _ _, 0)
       99 [[0]; [0.5]]%float [0; 0]%float)
    (kohonen_som_tracer [[1]; [0.25]]%float 2 1 2 alpha_min_test1 (λ _ _, 0)
       99 [[0]; [0.5]]%float [7; nan]%float).
Proof.
  apply (X16_stale_distances_never_read [[1]; [0.25]]%float 2 1 2
           alpha_min_test1 (λ _ _, 0) 99 [[0]; [0.5]]%float [0; 0]%float
           [7; nan]%float); shapes.
Defined.

Lemma X17_witness :
  main (λ x, x) (λ x, x) 0x1.921fb54442d18p+1%float Z.of_nat
    (λ _, ["0"%char]) zeroed zeroed 99 ∅ 5
  = main (λ x, x) (λ x, x) 0x1.921fb54442d18p+1%float Z.of_nat
      (λ _, ["0"%char])
      {| junk_idx := λ _ _, 0; stale_X := λ _ _, 1%float;
         stale_W := λ _ _, 2%float; stale_D := λ _, nan |}
      {| junk_idx := λ _ _, 0; stale_X := λ _ _, 3%float;
         stale_W := λ _ _, 4%float; stale_D := λ _, infinity |}
      99 ∅ 5.
Proof.
  apply (X17_main_ignores_stale_memory (λ x, x) (λ x, x)
           0x1.921fb54442d18p+1%float Z.of_nat (λ _, ["0"%char])
           zeroed zeroed
           {| junk_idx := λ _ _, 0; stale_X := λ _ _, 1%float;
              stale_W := λ _ _, 2%float; stale_D := λ _, nan |}
           {| junk_idx := λ _ _, 0; stale_X := λ _ _, 3%float;
              stale_W := λ _ _, 4%float; stale_D := λ _, infinity |}
           99 ∅ 5); reflexivity.
Defined.

Lemma X18_witness :
  ∃ st,
    kohonen_som_tracer [[1%float]] 0 1 2 alpha_min_test1 (λ _ _, 0)
      99 [[0]; [0.5]]%float [7%float] = Returned st ∧
    st_W st = [[0]; [0.5]]%float ∧ st_D st = [7%float] ∧
    st_iter st = wrap (Z.of_nat 90).
Proof.
  apply (X18_no_samples_nothing_learnt [[1%float]] 0 1 2 alpha_min_test1
           (λ _ _, 0) 90 99 [[0]; [0.5]]%float [7%float]);
    [lia|by vm_compute|lia].
Defined.
